(** * TikTok Watch Indexer: the local indexing and search core

    A shallow embedding of the background worker ([background.js]) and of
    the colour utilities ([colorUtils], median cut and nearest colour name),
    with the properties of the indexing, search, retention and quantization
    code proved about it.

    Conventions.
    - A JavaScript string is its sequence of UTF-16 code units, [list N].
    - An IndexedDB object store is a finite map from its key path to the
      record ([gmap]); the order of an index scan is written out with a
      stable sort where the code depends on it.
    - [async] functions are modelled as sequential state passing: every
      function takes the database and returns its result with the new
      database.  Interleavings of concurrent calls are not modelled.
    - Requests to the stores succeed, except the [put] of [saveFrame],
      whose failure the code catches and reports.
    - Timestamps ([Date.now()]) are integers, [Z]. *)

From Stdlib Require Import ZArith List Lia Permutation QArith Qminmax Ascii String.
From stdpp Require Import gmap list pretty.
Import ListNotations.

Local Open Scope Z_scope.
Local Open Scope list_scope.

(** ** JavaScript strings *)

Abbreviation jsstring := (list N).

(** Code units of an ASCII literal, for examples. *)
Fixpoint js (s : string) : jsstring :=
  match s with
  | EmptyString => []
  | String c s' => N_of_ascii c :: js s'
  end.

(** [Array.prototype.join(' ')]. *)
Fixpoint join_space (parts : list jsstring) : jsstring :=
  match parts with
  | [] => []
  | [p] => p
  | p :: rest => p ++ 32%N :: join_space rest
  end.

(** ** [Array.prototype.sort] with a comparator

    The sort of the platform is stable; a stable sort has one result for a
    consistent comparator, the one insertion from the right builds. The
    element [x] goes behind [y] exactly when the comparator puts [y]
    strictly first ([cmp y x < 0]). *)

Section JsSort.
Context {A : Type}.
Variable cmp : A -> A -> Z.

Fixpoint sort_insert (x : A) (l : list A) : list A :=
  match l with
  | [] => [x]
  | y :: ys => if cmp y x <? 0 then y :: sort_insert x ys else x :: y :: ys
  end.

Fixpoint js_sort (l : list A) : list A :=
  match l with
  | [] => []
  | x :: xs => sort_insert x (js_sort xs)
  end.
End JsSort.

(** Comparators of the shape [(a, b) => key(a) - key(b)]. *)
Definition by_key {A : Type} (key : A -> Z) (a b : A) : Z := key a - key b.

(** ** Tokenizer ([normalizeText], [extractTokens])

    [String.prototype.toLowerCase] and [String.prototype.normalize('NFD')]
    are functions of the platform; the tokenizer is parametric in them. *)

(** The character class [\s] of a JavaScript regular expression. *)
Definition is_js_whitespace (c : N) : bool :=
  ((9 <=? c) && (c <=? 13) || (c =? 32) || (c =? 0xa0) || (c =? 0x1680)
   || (0x2000 <=? c) && (c <=? 0x200a) || (c =? 0x2028) || (c =? 0x2029)
   || (c =? 0x202f) || (c =? 0x205f) || (c =? 0x3000) || (c =? 0xfeff))%N.

(** The combining diacritical marks, U+0300 to U+036F, removed by [replace]. *)
Definition is_combining_mark (c : N) : bool :=
  ((0x0300 <=? c) && (c <=? 0x036f))%N.

(** [s.split(/\s+/)]: a run of white space separates; a string that starts
    or ends with white space yields an empty first or last piece. *)
Fixpoint split_ws_go (in_ws : bool) (acc : jsstring) (s : jsstring)
  : list jsstring :=
  match s with
  | [] => [rev acc]
  | c :: s' =>
      if is_js_whitespace c then
        if in_ws then split_ws_go true acc s'
        else rev acc :: split_ws_go true [] s'
      else split_ws_go false (c :: acc) s'
  end.

Definition split_ws (s : jsstring) : list jsstring := split_ws_go false [] s.

(** [Set.prototype.add] on a set kept in insertion order. *)
Definition set_add (tokens : list jsstring) (token : jsstring) : list jsstring :=
  if decide (token ∈ tokens) then tokens else tokens ++ [token].

Section Tokenizer.
Variable toLowerCase : jsstring -> jsstring.
Variable normalizeNFD : jsstring -> jsstring.

Definition normalizeText (text : jsstring) : list jsstring :=
  match text with
  | [] => []
  | _ =>
      List.filter (fun token => (0 <? length token)%nat)
        (split_ws
           (List.filter (fun c => negb (is_combining_mark c))
              (normalizeNFD (toLowerCase text))))
  end.

Definition extractTokens (text : jsstring) : list jsstring :=
  fold_left
    (fun tokens token =>
       if (2 <=? length token)%nat then set_add tokens token else tokens)
    (normalizeText text) [].
End Tokenizer.

(** A table of the two platform functions on the letters the examples use:
    ASCII and Latin-1 capitals for [toLowerCase], the precomposed Latin-1
    vowels for NFD. Every other code unit is left as it is. *)
Module Latin.
Definition lower_unit (c : N) : N :=
  (if (65 <=? c) && (c <=? 90) then c + 32
   else if (0xc0 <=? c) && (c <=? 0xde) && negb (c =? 0xd7) then c + 32
   else c)%N.

Definition toLowerCase (s : jsstring) : jsstring := map lower_unit s.

Definition grave : N := 0x300%N.
Definition acute : N := 0x301%N.
Definition circumflex : N := 0x302%N.
Definition tilde : N := 0x303%N.

Definition nfd_unit (c : N) : jsstring :=
  (if c =? 0xe0 then [97; grave] else if c =? 0xe1 then [97; acute]
   else if c =? 0xe2 then [97; circumflex] else if c =? 0xe3 then [97; tilde]
   else if c =? 0xe8 then [101; grave] else if c =? 0xe9 then [101; acute]
   else if c =? 0xea then [101; circumflex]
   else if c =? 0xec then [105; grave] else if c =? 0xed then [105; acute]
   else if c =? 0xf2 then [111; grave] else if c =? 0xf3 then [111; acute]
   else if c =? 0xf4 then [111; circumflex] else if c =? 0xf5 then [111; tilde]
   else if c =? 0xf9 then [117; grave] else if c =? 0xfa then [117; acute]
   else if c =? 0xfd then [121; acute]
   else [c])%N.

Definition normalizeNFD (s : jsstring) : jsstring := flat_map nfd_unit s.
End Latin.

(** ** Records of the four object stores *)

(** A record of the [videos] store, key path [id]. [caption], [author] and
    [hashtags] may be absent from the message ([None]). *)
Record Video := mkVideo {
  video_id : jsstring;
  video_url : jsstring;
  video_author : option jsstring;
  video_caption : option jsstring;
  video_hashtags : option (list jsstring);
  video_viewedAt : Z
}.

(** The result of the vision service as the code keeps it. *)
Record Analysis := mkAnalysis {
  labels : list jsstring;
  text : jsstring;
  objects : list jsstring
}.

(** What [saveFrame] stores under [blobData]: an [ArrayBuffer] made from the
    payload, or the payload object itself when it already has a
    [byteLength]. *)
Inductive BlobData :=
| Buffer (bytes : list N)
| Passed (bytes : list N).

(** A record of the [frames] store, key path [key]. [imageEmbedding] and
    [colorPalette] are copied through and never read; they are left out. *)
Record Frame := mkFrame {
  frame_key : jsstring;
  frame_videoId : jsstring;
  frame_ts : Z;
  frame_blobData : option BlobData;
  frame_analysis : option Analysis
}.

(** A record of the [thumbnails] store, key path [key]. *)
Record Thumb := mkThumb {
  thumb_key : jsstring;
  thumb_videoId : jsstring;
  thumb_url : jsstring;
  thumb_ts : Z;
  thumb_dataUrl : jsstring;
  thumb_width : Z;
  thumb_height : Z
}.

(** The database: [videos], [frames], [thumbnails] and [invertedIndex]. An
    entry [{ token, ids }] of the inverted index is the binding of [token]
    to [ids]. *)
Record DB := mkDB {
  videos : gmap jsstring Video;
  frames : gmap jsstring Frame;
  thumbnails : gmap jsstring Thumb;
  invertedIndex : gmap jsstring (list jsstring)
}.

Definition emptyDB : DB := mkDB ∅ ∅ ∅ ∅.

Definition set_videos (db : DB) (m : gmap jsstring Video) : DB :=
  mkDB m (frames db) (thumbnails db) (invertedIndex db).
Definition set_frames (db : DB) (m : gmap jsstring Frame) : DB :=
  mkDB (videos db) m (thumbnails db) (invertedIndex db).
Definition set_thumbnails (db : DB) (m : gmap jsstring Thumb) : DB :=
  mkDB (videos db) (frames db) m (invertedIndex db).
Definition set_invertedIndex (db : DB) (m : gmap jsstring (list jsstring)) : DB :=
  mkDB (videos db) (frames db) (thumbnails db) m.

(** ** A JavaScript [Map] with string keys

    Keys are kept in insertion order; [set] on a present key changes the
    value in place. *)
Fixpoint jsmap_get (k : jsstring) (m : list (jsstring * Z)) : option Z :=
  match m with
  | [] => None
  | (k', v) :: rest => if decide (k' = k) then Some v else jsmap_get k rest
  end.

Fixpoint jsmap_set (k : jsstring) (v : Z) (m : list (jsstring * Z))
  : list (jsstring * Z) :=
  match m with
  | [] => [(k, v)]
  | (k', v') :: rest =>
      if decide (k' = k) then (k', v) :: rest else (k', v') :: jsmap_set k v rest
  end.

(** ** Inverted index ([updateInvertedIndex]) *)

Definition index_token (videoId : jsstring)
    (index : gmap jsstring (list jsstring)) (token : jsstring)
  : gmap jsstring (list jsstring) :=
  match index !! token with
  | Some ids =>
      if decide (videoId ∈ ids) then index
      else <[token := ids ++ [videoId]]> index
  | None => <[token := [videoId]]> index
  end.

Definition updateInvertedIndex (videoId : jsstring) (tokens : list jsstring)
    (db : DB) : DB :=
  set_invertedIndex db (fold_left (index_token videoId) tokens (invertedIndex db)).

(** Results of [saveVideo]: [{ success: true, message }]. *)
Inductive SaveVideoResult := VideoAlreadyIndexed | VideoSaved.

(** ** Inputs and results of [saveFrame] *)

(** The shapes of [frameData.blob] that [saveFrame] tells apart. *)
Inductive BlobField :=
| BlobUndefined
| BlobNull
| BlobFalsy                                  (* 0, NaN, the empty string, false *)
| BlobObject (arrayBuffer : list N + jsstring)
    (* [instanceof Blob]; [arrayBuffer()] resolves to the bytes or rejects
       with an error that has this message *)
| BlobArrayBuffer (bytes : list N)           (* [instanceof ArrayBuffer] *)
| BlobHasByteLength (bytes : list N)         (* any other value with a [byteLength] *)
| BlobArray (values : list Z)                (* [Array.isArray] *)
| BlobOther.                                 (* any other truthy value *)

Record FrameData := mkFrameData {
  fd_key : jsstring;
  fd_videoId : jsstring;
  fd_ts : Z;
  fd_blob : BlobField
}.

(** One constructor for each [return] of [saveFrame]:
    [{ success: true }], [{ success: false, error: 'Invalid blob type' }],
    and [{ success: false, error: error.message }] from the conversion and
    from the write. *)
Inductive SaveFrameResult :=
| FrameSaved
| InvalidBlobType
| ConversionError (message : jsstring)
| StoreError (message : jsstring).

Definition success (res : SaveFrameResult) : bool :=
  match res with FrameSaved => true | _ => false end.

Definition error (res : SaveFrameResult) : option jsstring :=
  match res with
  | FrameSaved => None
  | InvalidBlobType => Some (js "Invalid blob type")
  | ConversionError message | StoreError message => Some message
  end.

(** [chrome.storage.sync.get(['enableAI', 'enableCloudVision',
    'cloudVisionApiKey'])]. *)
Record Settings := mkSettings {
  enableAI : bool;
  enableCloudVision : bool;
  cloudVisionApiKey : jsstring
}.

(** What the request to the vision service comes to. *)
Inductive VisionReply :=
| FetchRejects                     (* the service is unreachable: [fetch] throws *)
| HttpNotOk (statusText : jsstring)           (* [!response.ok] *)
| MalformedBody                    (* [response.json()] or [data.responses[0]] throws *)
| Annotated (labelAnnotations : option (list jsstring))
            (fullText : option jsstring)
            (localizedObjects : option (list jsstring)).

(** The surroundings of one call of [saveFrame]: the settings read ([None]
    when the read rejects), the reply of the vision service, and the
    outcome of [store.put] ([Some message] when the request fails). *)
Record World := mkWorld {
  settingsRead : option Settings;
  vision : VisionReply;
  framePut : option jsstring
}.

(** [analyzeImageWithCloudVision]: every failure is caught and becomes
    [null]. The request body (the image in base 64) does not influence what
    the code does with the reply and is not modelled. *)
Definition analyzeImageWithCloudVision (reply : VisionReply) : option Analysis :=
  match reply with
  | Annotated l t o => Some (mkAnalysis (default [] l) (default [] t) (default [] o))
  | FetchRejects | HttpNotOk _ | MalformedBody => None
  end.

(** [new Uint8Array(array)] on integers. *)
Definition toUint8 (x : Z) : N := Z.to_N (x mod 256).

(** The conversion of the payload at the head of [saveFrame]: an early
    result, or the [blobData] to store ([None] is [null]). *)
Definition convertBlob (blob : BlobField) : SaveFrameResult + option BlobData :=
  match blob with
  | BlobUndefined | BlobNull | BlobFalsy => inr None
  | BlobObject (inl bytes) => inr (Some (Buffer bytes))
  | BlobObject (inr message) => inl (ConversionError message)
  | BlobArrayBuffer bytes => inr (Some (Buffer bytes))
  | BlobHasByteLength bytes => inr (Some (Passed bytes))
  | BlobArray values => inr (Some (Buffer (toUint8 <$> values)))
  | BlobOther => inl InvalidBlobType
  end.

Section Background.
Variable toLowerCase : jsstring -> jsstring.
Variable normalizeNFD : jsstring -> jsstring.

Local Abbreviation tokensOf := (extractTokens toLowerCase normalizeNFD).

(** *** [saveVideo] *)

Definition allText (videoData : Video) : jsstring :=
  join_space
    ([default [] (video_caption videoData)]
       ++ default [] (video_hashtags videoData)
       ++ [default [] (video_author videoData)]).

Definition saveVideo (videoData : Video) (db : DB) : SaveVideoResult * DB :=
  match videos db !! video_id videoData with
  | Some _ => (VideoAlreadyIndexed, db)
  | None =>
      let db1 := set_videos db (<[video_id videoData := videoData]> (videos db)) in
      let tokens := tokensOf (allText videoData) in
      (VideoSaved, updateInvertedIndex (video_id videoData) tokens db1)
  end.

(** *** [searchVideos] *)

Definition score_ids (scores : list (jsstring * Z)) (ids : list jsstring)
  : list (jsstring * Z) :=
  fold_left
    (fun sc id => jsmap_set id (default 0 (jsmap_get id sc) + 1) sc)
    ids scores.

Definition videoIdScores (db : DB) (queryTokens : list jsstring)
  : list (jsstring * Z) :=
  fold_left
    (fun scores token =>
       match invertedIndex db !! token with
       | Some ids => score_ids scores ids
       | None => scores
       end)
    queryTokens [].

Definition sortedIds (scores : list (jsstring * Z)) : list jsstring :=
  map fst (js_sort (fun a b => snd b - snd a) scores).

Definition searchVideos (db : DB) (query : jsstring) : list Video :=
  let queryTokens := tokensOf query in
  if (length queryTokens =? 0)%nat then []
  else omap (fun id => videos db !! id) (sortedIds (videoIdScores db queryTokens)).

(** *** [saveFrame] *)

Definition add_all (tokens : list jsstring) (more : list jsstring) : list jsstring :=
  fold_left set_add more tokens.

Definition analysisTokens (analysis : Analysis) : list jsstring :=
  let t0 := match text analysis with
            | [] => []
            | _ => add_all [] (tokensOf (text analysis))
            end in
  let t1 := fold_left (fun ts l => add_all ts (tokensOf l)) (labels analysis) t0 in
  fold_left (fun ts o => add_all ts (tokensOf o)) (objects analysis) t1.

Definition analysisEnabled (s : Settings) (blobData : option BlobData) : bool :=
  enableAI s && enableCloudVision s
  && negb (length (cloudVisionApiKey s) =? 0)%nat
  && bool_decide (is_Some blobData).

(** The [try] block around the analysis: the analysis attached to the
    frame and the database after the index update. *)
Definition analyzeForFrame (w : World) (frameData : FrameData)
    (blobData : option BlobData) (db : DB) : option Analysis * DB :=
  match settingsRead w with
  | None => (None, db)
  | Some s =>
      if analysisEnabled s blobData then
        match analyzeImageWithCloudVision (vision w) with
        | Some analysis =>
            (Some analysis,
             updateInvertedIndex (fd_videoId frameData) (analysisTokens analysis) db)
        | None => (None, db)
        end
      else (None, db)
  end.

Definition saveFrame (w : World) (frameData : FrameData) (db : DB)
  : SaveFrameResult * DB :=
  match convertBlob (fd_blob frameData) with
  | inl early => (early, db)
  | inr blobData =>
      let '(analysis, db1) := analyzeForFrame w frameData blobData db in
      let frameToStore :=
        mkFrame (fd_key frameData) (fd_videoId frameData) (fd_ts frameData)
                blobData analysis in
      match framePut w with
      | None =>
          (FrameSaved,
           set_frames db1 (<[fd_key frameData := frameToStore]> (frames db1)))
      | Some message => (StoreError message, db1)
      end
  end.

End Background.

(** ** Index scans

    Keys of an object store are compared code unit by code unit. *)
Fixpoint key_cmp (k1 k2 : jsstring) : Z :=
  match k1, k2 with
  | [], [] => 0
  | [], _ :: _ => -1
  | _ :: _, [] => 1
  | c1 :: r1, c2 :: r2 =>
      if (c1 <? c2)%N then -1 else if (c2 <? c1)%N then 1 else key_cmp r1 r2
  end.

(** The entries of a store, primary key and record, in the order of the
    keys. *)
Definition entries {R : Type} (m : gmap jsstring R) : list (jsstring * R) :=
  js_sort (fun a b => key_cmp a.1 b.1) (map_to_list m).

(** [index.openCursor(IDBKeyRange.upperBound(bound))] on the index of the
    field [ts]: the entries with [ts <= bound] (the bound is closed unless
    [upperBound] is given a second argument), by [ts] and then by key. *)
Definition cursor_upperBound {R : Type} (ts : R -> Z) (bound : Z)
    (m : gmap jsstring R) : list (jsstring * R) :=
  filter (fun e => ts e.2 <= bound) (js_sort (by_key (fun e => ts e.2)) (entries m)).

(** A run of [delete] requests. [cursor.delete()] deletes the entry under
    the primary key of the cursor. *)
Definition delete_keys {R : Type} (keys : list jsstring) (m : gmap jsstring R)
  : gmap jsstring R :=
  fold_left (fun m' k => delete k m') keys m.

(** ** Thumbnails ([saveThumbnail], [getThumbnailsForVideo]) *)

Definition MAX_THUMBS_PER_VIDEO : nat := 500.

(** [store.index('videoId').getAll(videoId)]. *)
Definition thumbsOfVideo (videoId : jsstring) (m : gmap jsstring Thumb) : list Thumb :=
  filter (fun t => thumb_videoId t = videoId) (entries m).*2.

Definition saveThumbnail (thumbData : Thumb) (db : DB) : DB :=
  let existing := thumbsOfVideo (thumb_videoId thumbData) (thumbnails db) in
  let store :=
    if (MAX_THUMBS_PER_VIDEO <=? length existing)%nat then
      let sorted := js_sort (by_key thumb_ts) existing in
      let toRemove := take (length existing - MAX_THUMBS_PER_VIDEO + 1) sorted in
      delete_keys (thumb_key <$> toRemove) (thumbnails db)
    else thumbnails db in
  set_thumbnails db (<[thumb_key thumbData := thumbData]> store).

Definition getThumbnailsForVideo (videoId : jsstring) (db : DB) : list Thumb :=
  js_sort (fun a b => thumb_ts b - thumb_ts a) (thumbsOfVideo videoId (thumbnails db)).

(** A run of [SAVE_THUMBNAIL] messages, one after the other. *)
Definition saveThumbnails (thumbs : list Thumb) (db : DB) : DB :=
  fold_left (fun db' thumbData => saveThumbnail thumbData db') thumbs db.

(** ** Retention ([cleanupOldFrames], [checkDBSize]) *)

Definition thirtyDays : Z := 30 * 24 * 60 * 60 * 1000.

Definition cleanupOldFrames (now : Z) (db : DB) : DB :=
  let thirtyDaysAgo := now - thirtyDays in
  let db1 :=
    set_frames db
      (delete_keys (cursor_upperBound frame_ts thirtyDaysAgo (frames db)).*1
         (frames db)) in
  set_thumbnails db1
    (delete_keys (cursor_upperBound thumb_ts thirtyDaysAgo (thumbnails db1)).*1
       (thumbnails db1)).

Definition MAX_FRAMES : Z := 10000.

Definition checkDBSize (now : Z) (db : DB) : DB :=
  let frameCount := Z.of_nat (size (frames db)) in
  if MAX_FRAMES <? frameCount then cleanupOldFrames now db else db.

(** One round of the timer: the cleanup, then the size check, each with its
    own reading of the clock. *)
Definition retentionCycle (now1 now2 : Z) (db : DB) : DB :=
  checkDBSize now2 (cleanupOldFrames now1 db).

(** ** Colour utilities ([hexToRgb], [colorDistance], [findNearestColorName],
       [medianCut], [detectColors]) *)

Record Pixel := mkPixel {
  pixel_r : Z;
  pixel_g : Z;
  pixel_b : Z
}.

(** The colour lexicon, in the order of its source text. The names are
    Vietnamese; the first one reads "red". *)
Definition name_do : jsstring := [273; 7887]%N.

Definition COLOR_NAMES : list (jsstring * list jsstring) :=
  [ (name_do, [js "#FF0000"; js "#DC143C"; js "#B22222"; js "#8B0000"; js "#FF6347"; js "#FF4500"]);
    ([104; 7891; 110; 103]%N,
      [js "#FFC0CB"; js "#FF69B4"; js "#FF1493"; js "#FFB6C1"; js "#FFA07A"]);
    (js "cam", [js "#FFA500"; js "#FF8C00"; js "#FF7F50"; js "#FF6347"]);
    ([118; 224; 110; 103]%N,
      [js "#FFFF00"; js "#FFD700"; js "#FFA500"; js "#FFD700"; js "#FFE135"]);
    ([118; 224; 110; 103; 32; 110; 104; 7841; 116]%N,
      [js "#FFFFE0"; js "#FFFACD"; js "#FFEFD5"]);
    ([120; 97; 110; 104; 32; 108; 225]%N,
      [js "#00FF00"; js "#32CD32"; js "#228B22"; js "#008000"; js "#00FF7F"; js "#00FA9A"]);
    ([120; 97; 110; 104; 32; 108; 225; 32; 99; 226; 121]%N,
      [js "#00FF00"; js "#32CD32"; js "#228B22"; js "#008000"]);
    ([120; 97; 110; 104; 32; 108; 7909; 99]%N,
      [js "#00FF00"; js "#32CD32"; js "#228B22"; js "#008000"]);
    ([120; 97; 110; 104; 32; 100; 432; 417; 110; 103]%N,
      [js "#0000FF"; js "#4169E1"; js "#1E90FF"; js "#0000CD"; js "#0066CC"]);
    (js "xanh",
      [js "#0000FF"; js "#4169E1"; js "#1E90FF"; js "#0000CD"; js "#0066CC"; js "#00CED1"; js "#00BFFF"]);
    ([120; 97; 110; 104; 32; 110; 432; 7899; 99; 32; 98; 105; 7875; 110]%N,
      [js "#0000FF"; js "#4169E1"; js "#1E90FF"; js "#0000CD"]);
    ([120; 97; 110; 104; 32; 100; 97; 32; 116; 114; 7901; 105]%N,
      [js "#87CEEB"; js "#87CEFA"; js "#B0E0E6"; js "#ADD8E6"]);
    ([116; 237; 109]%N,
      [js "#800080"; js "#9370DB"; js "#8B008B"; js "#9400D3"; js "#9932CC"; js "#BA55D3"]);
    ([110; 226; 117]%N,
      [js "#A52A2A"; js "#8B4513"; js "#654321"; js "#D2691E"; js "#CD853F"]);
    ([273; 101; 110]%N, [js "#000000"; js "#1C1C1C"; js "#2F2F2F"; js "#3D3D3D"]);
    ([116; 114; 7855; 110; 103]%N, [js "#FFFFFF"; js "#F5F5F5"; js "#FAFAFA"; js "#F0F0F0"]);
    ([120; 225; 109]%N, [js "#808080"; js "#A9A9A9"; js "#C0C0C0"; js "#D3D3D3"; js "#696969"]);
    (js "grey", [js "#808080"; js "#A9A9A9"; js "#C0C0C0"; js "#D3D3D3"]);
    (js "be", [js "#F5F5DC"; js "#F5DEB3"; js "#DEB887"]);
    (js "kem", [js "#FFF8DC"; js "#FFE4B5"; js "#FFEBCD"]) ].

(** One digit of [[a-f\d]], case-insensitive. *)
Definition hex_digit (c : N) : option Z :=
  (if (48 <=? c) && (c <=? 57) then Some (Z.of_N (c - 48))
   else if (65 <=? c) && (c <=? 70) then Some (Z.of_N (c - 55))
   else if (97 <=? c) && (c <=? 102) then Some (Z.of_N (c - 87))
   else None)%N.

Definition hex_pair (hi lo : N) : option Z :=
  match hex_digit hi, hex_digit lo with
  | Some h, Some l => Some (16 * h + l)
  | _, _ => None
  end.

(** [hexToRgb]: an optional [#], then exactly three pairs of digits. *)
Definition hexToRgb (hex : jsstring) : option Pixel :=
  let body := match hex with 35%N :: rest => rest | _ => hex end in
  match body with
  | [r1; r2; g1; g2; b1; b2] =>
      match hex_pair r1 r2, hex_pair g1 g2, hex_pair b1 b2 with
      | Some r, Some g, Some b => Some (mkPixel r g b)
      | _, _, _ => None
      end
  | _ => None
  end.

(** [colorDistance] is the square root of this sum. The code only compares
    distances with [<], and the square root is strictly monotone on the
    sums that occur (integers up to [3 * 255^2]), so the sum stands for it. *)
Definition colorDistance2 (rgb1 rgb2 : Pixel) : Z :=
  let dr := pixel_r rgb1 - pixel_r rgb2 in
  let dg := pixel_g rgb1 - pixel_g rgb2 in
  let db := pixel_b rgb1 - pixel_b rgb2 in
  dr * dr + dg * dg + db * db.

(** The state of the two loops of [findNearestColorName]: [minDistance]
    ([None] is [Infinity]) and [nearestName] ([None] is [null]). *)
Definition nearest_step (rgb : Pixel) (name : jsstring)
    (st : option Z * option jsstring) (hex : jsstring)
  : option Z * option jsstring :=
  match hexToRgb hex with
  | Some colorRgb =>
      let distance := colorDistance2 rgb colorRgb in
      match fst st with
      | Some minDistance =>
          if distance <? minDistance then (Some distance, Some name) else st
      | None => (Some distance, Some name)
      end
  | None => st
  end.

Definition findNearestColorName (rgb : Pixel) : option jsstring :=
  snd (fold_left
         (fun st entry => fold_left (nearest_step rgb (fst entry)) (snd entry) st)
         COLOR_NAMES (None, None)).

(** [Math.round(sum / count)] for [0 <= sum] and [0 < count]: the quotient
    rounded to the nearest integer, halves upwards. *)
Definition round_div (sum count : Z) : Z := (2 * sum + count) / (2 * count).

Definition channel_min (ch : Pixel -> Z) (box : list Pixel) : Z :=
  fold_left (fun m pixel => Z.min m (ch pixel)) box 255.

Definition channel_max (ch : Pixel -> Z) (box : list Pixel) : Z :=
  fold_left (fun m pixel => Z.max m (ch pixel)) box 0.

Definition channel_range (ch : Pixel -> Z) (box : list Pixel) : Z :=
  channel_max ch box - channel_min ch box.

(** The body of [for (const box of boxes)] for a box that is not empty:
    what the box adds to [newBoxes]. [box.sort] sorts in place, and the
    first box is the array [pixels] itself; the code reads nothing but
    the length of [pixels] afterwards, so the sorted copy stands for it. *)
Definition split_nonempty (box : list Pixel) : list (list Pixel) :=
  let rRange := channel_range pixel_r box in
  let gRange := channel_range pixel_g box in
  let bRange := channel_range pixel_b box in
  let maxRange := Z.max (Z.max rRange gRange) bRange in
  if maxRange =? 0 then [box]
  else
    let sortChannel :=
      if gRange =? maxRange then pixel_g
      else if bRange =? maxRange then pixel_b
      else pixel_r in
    let sorted := js_sort (by_key sortChannel) box in
    let median := (length box / 2)%nat in
    [take median sorted; drop median sorted].

Definition split_box (box : list Pixel) : list (list Pixel) :=
  match box with
  | [] => []
  | _ => split_nonempty box
  end.

(** One pass of the [while] loop. *)
Definition split_pass (boxes : list (list Pixel)) : list (list Pixel) :=
  boxes ≫= split_box.

(** The condition of the [while] loop. *)
Definition keep_splitting (numColors : Z) (pixels : list Pixel)
    (boxes : list (list Pixel)) : bool :=
  (Z.of_nat (length boxes) <? numColors) && (length boxes <? length pixels)%nat.

(** The [while] loop with a bound on the number of passes: [None] when the
    loop is still running after [fuel] passes. *)
Fixpoint split_loop (fuel : nat) (numColors : Z) (pixels : list Pixel)
    (boxes : list (list Pixel)) : option (list (list Pixel)) :=
  if keep_splitting numColors pixels boxes then
    match fuel with
    | O => None
    | S fuel' => split_loop fuel' numColors pixels (split_pass boxes)
    end
  else Some boxes.

Record Color := mkColor {
  color_rgb : Pixel;
  color_count : nat
}.

Definition channel_sum (ch : Pixel -> Z) (box : list Pixel) : Z :=
  fold_left (fun sum pixel => sum + ch pixel) box 0.

(** The mean colour of a box that is not empty, with its weight. *)
Definition mean_color (box : list Pixel) : Color :=
  let count := Z.of_nat (length box) in
  mkColor
    (mkPixel (round_div (channel_sum pixel_r box) count)
             (round_div (channel_sum pixel_g box) count)
             (round_div (channel_sum pixel_b box) count))
    (length box).

Definition box_color (box : list Pixel) : option Color :=
  match box with
  | [] => None
  | _ => Some (mean_color box)
  end.

Definition medianCut (fuel : nat) (pixels : list Pixel) (numColors : Z)
  : option (list Color) :=
  match pixels with
  | [] => Some []
  | _ =>
      match split_loop fuel numColors pixels [pixels] with
      | Some boxes =>
          Some (js_sort (fun a b => Z.of_nat (color_count b) - Z.of_nat (color_count a))
                  (omap box_color boxes))
      | None => None
      end
  end.

(** An entry of the result of [detectColors]; [confidence] is the exact
    quotient. The [hex] field repeats [rgb] and is left out. *)
Record ColorResult := mkColorResult {
  name : option jsstring;
  rgb : Pixel;
  confidence : Q
}.

(** [detectColors] after [extractPixels] has decoded the image. *)
Definition detectColors (fuel : nat) (pixels : list Pixel) (numColors : Z)
  : option (list ColorResult) :=
  match medianCut fuel pixels numColors with
  | Some dominantColors =>
      Some ((fun color =>
               mkColorResult
                 (findNearestColorName (color_rgb color))
                 (color_rgb color)
                 (Qmin (Z.of_nat (color_count color) # Pos.of_nat (length pixels)) 1))
              <$> dominantColors)
  | None => None
  end.

Definition red : Pixel := mkPixel 255 0 0.
Definition blue : Pixel := mkPixel 0 0 255.

(** ** Vocabulary of the statements *)

(** [before a b l]: an occurrence of [a] in [l] is followed, later, by an
    occurrence of [b]. *)
Inductive before {A : Type} (a b : A) : list A -> Prop :=
| before_here l : b ∈ l -> before a b (a :: l)
| before_later x l : before a b l -> before a b (x :: l).

(** The position of the first occurrence of [x] in [l]; the length of [l]
    when there is none. *)
Fixpoint first_index {A : Type} `{EqDecision A} (x : A) (l : list A) : nat :=
  match l with
  | [] => 0
  | y :: ys => if decide (y = x) then 0 else S (first_index x ys)
  end.

(** The posting list of a token: the [ids] of its entry, empty without an
    entry. *)
Definition posting (db : DB) (token : jsstring) : list jsstring :=
  default [] (invertedIndex db !! token).

(** The query tokens whose posting list contains [id], and their number. *)
Definition matching_tokens (db : DB) (tokens : list jsstring) (id : jsstring)
  : list jsstring :=
  filter (fun token => id ∈ posting db token) tokens.

Definition match_count (db : DB) (tokens : list jsstring) (id : jsstring) : Z :=
  Z.of_nat (length (matching_tokens db tokens id)).

(** The ids in the order the loops of [searchVideos] meet them: token by
    token, each posting list from its head. *)
Definition encounters (db : DB) (tokens : list jsstring) : list jsstring :=
  tokens ≫= posting db.

(** The number of occurrences of [id] in a stream of ids. *)
Definition occurrences (id : jsstring) (stream : list jsstring) : Z :=
  Z.of_nat (length (filter (fun x => x = id) stream)).

(** What the score map holds after the loops have met the ids of
    [stream]: one key for each id met, in the order of the first
    encounters, with the number of encounters as its value. *)
Record score_inv (stream : list jsstring) (m : list (jsstring * Z)) : Prop := {
  inv_nodup : NoDup m.*1;
  inv_keys : forall id, id ∈ m.*1 <-> id ∈ stream;
  inv_value : forall id, id ∈ stream -> jsmap_get id m = Some (occurrences id stream);
  inv_order : forall a b,
      before a b m.*1 -> (first_index a stream < first_index b stream)%nat
}.

(** Invariants of the stores: a posting list names an id once, and a video
    is stored under its own id (the key path of the store). *)
Definition index_wf (db : DB) : Prop :=
  map_Forall (fun _ ids => NoDup ids) (invertedIndex db).

Definition videos_wf (db : DB) : Prop :=
  map_Forall (fun id video => video_id video = id) (videos db).

#[global] Instance index_wf_dec db : Decision (index_wf db).
Proof. unfold index_wf. apply _. Defined.

#[global] Instance videos_wf_dec db : Decision (videos_wf db).
Proof. unfold videos_wf. apply _. Defined.

(** The payloads that [saveFrame] turns into image data. *)
Definition valid_payload (blob : BlobField) : Prop :=
  match blob with
  | BlobObject (inl _) | BlobArrayBuffer _ | BlobHasByteLength _ | BlobArray _ => True
  | _ => False
  end.

(** The vision step is switched on and has a key. *)
Definition vision_enabled (w : World) : Prop :=
  exists s, settingsRead w = Some s /\ enableAI s = true /\
            enableCloudVision s = true /\ cloudVisionApiKey s <> [].

(** The vision step fails: the service is unreachable, answers with a
    status other than 200, or the reply cannot be read. *)
Definition vision_fails (w : World) : Prop :=
  match vision w with
  | FetchRejects | HttpNotOk _ | MalformedBody => True
  | Annotated _ _ _ => False
  end.

(** The thumbnails of one video as a store of their own, and the store
    that holds the thumbnails of a list under their keys. *)
Definition thumbs_of (videoId : jsstring) (m : gmap jsstring Thumb)
  : gmap jsstring Thumb :=
  filter (fun e => thumb_videoId e.2 = videoId) m.

Definition thumb_map (l : list Thumb) : gmap jsstring Thumb :=
  list_to_map ((fun t => (thumb_key t, t)) <$> l).

(** ** A small database for the examples *)
Module Demo.
Definition lower := Latin.toLowerCase.
Definition nfd := Latin.normalizeNFD.

Definition video (id author caption : string) : Video :=
  mkVideo (js id) (js "https://example.test/video") (Some (js author))
          (Some (js caption)) None 0.

(** Video [A] matches both tokens of the query [ao mau], video [B] one. *)
Definition videoA : Video := video "A" "alice" "ao mau do".
Definition videoB : Video := video "B" "bob" "mau xanh".

Definition db : DB :=
  (saveVideo lower nfd videoA (saveVideo lower nfd videoB emptyDB).2).2.
(** Two videos that share no token: each matches one token of [ao mau]. *)
Definition videoC : Video := video "C" "carol" "ao".
Definition videoD : Video := video "D" "dave" "mau".

Definition tie_db : DB :=
  (saveVideo lower nfd videoD (saveVideo lower nfd videoC emptyDB).2).2.

(** The query [ao mau] with its accents: a-acute, o, space, m, a-grave, u. *)
Definition accented : jsstring := [0xe1; 111; 32; 109; 0xe0; 117]%N.
(** A frame and a thumbnail taken exactly thirty days before [now], and
    a frame and a thumbnail taken one millisecond later. *)
Definition now : Z := 1700000000000 + thirtyDays.

Definition frameAt (key : string) (ts : Z) : Frame :=
  mkFrame (js key) (js "A") ts (Some (Buffer [82; 73; 70; 70]%N)) None.

Definition thumbAt (key : string) (ts : Z) : Thumb :=
  mkThumb (js key) (js "A") (js "https://example.test/video") ts
          (js "data:image/webp;base64,") 90 160.

Definition retention_db : DB :=
  mkDB (videos db)
       (<[js "A:1700000000000" := frameAt "A:1700000000000" 1700000000000]>
          (<[js "A:1700000000001" := frameAt "A:1700000000001" 1700000000001]> ∅))
       (<[js "A:thumb:1700000000000" := thumbAt "A:thumb:1700000000000" 1700000000000]>
          (<[js "A:thumb:1700000000001" := thumbAt "A:thumb:1700000000001" 1700000000001]> ∅))
       (invertedIndex db).

(** A world in which the vision step is switched on and the service
    cannot be reached. *)
Definition offline : World :=
  mkWorld (Some (mkSettings true true (js "key"))) FetchRejects None.

Definition frameData (blob : BlobField) : FrameData :=
  mkFrameData (js "A:1700000000000") (js "A") 1700000000000 blob.
(** Thumbnails of video [A], the key made of the timestamp as the
    content script does. *)
Definition thumbNo (ts : Z) : Thumb :=
  thumbAt (String.append "A:thumb:" (pretty (Z.to_N ts))) ts.

Definition first500 : list Thumb := thumbNo <$> seqZ 1700000000001 500.
Definition newest : Thumb := thumbNo 1700000000501.
Definition stale : Thumb := thumbNo 1700000000000.
End Demo.

(** ** Reading the stores ([getFrameCount], [getFramesForVideo],
       [getFrameData], [getAllVideos], [getStats], [clearAllData]) *)

(** [store.index('videoId').getAll(videoId)] on the frames. *)
Definition framesOfVideo (videoId : jsstring) (m : gmap jsstring Frame) : list Frame :=
  filter (fun f => frame_videoId f = videoId) (entries m).*2.

(** [index.count(videoId)]. *)
Definition getFrameCount (videoId : jsstring) (db : DB) : nat :=
  length (framesOfVideo videoId (frames db)).

(** [const { blobData, ...rest } = f]: the frame without its image data. *)
Definition withoutBlob (f : Frame) : Frame :=
  mkFrame (frame_key f) (frame_videoId f) (frame_ts f) None (frame_analysis f).

Definition getFramesForVideo (videoId : jsstring) (includeBlobs : bool) (db : DB)
  : list Frame :=
  let results := framesOfVideo videoId (frames db) in
  if includeBlobs then results else withoutBlob <$> results.

(** [Array.from(new Uint8Array(blobData))]; for image data that was stored
    as it came, [bytes] is what the typed array reads from it. *)
Definition bytesOf (blobData : BlobData) : list N :=
  match blobData with
  | Buffer bytes | Passed bytes => bytes
  end.

(** [getFrameData]: [null] for a key without a frame and for a frame
    without image data. *)
Definition getFrameData (frameKey : jsstring) (db : DB)
  : option (list N * option Analysis) :=
  match frames db !! frameKey with
  | Some frame =>
      match frame_blobData frame with
      | Some blobData => Some (bytesOf blobData, frame_analysis frame)
      | None => None
      end
  | None => None
  end.

(** [getAllVideos]: the cursor walks the index [viewedAt] in the direction
    [prev], from the newest entry down, ties in descending order of the
    keys, and stops after [limit] videos. *)
Definition getAllVideos (limit : Z) (db : DB) : list Video :=
  take (Z.to_nat limit)
    (reverse (js_sort (by_key (fun e => video_viewedAt e.2)) (entries (videos db)))).*2.

Record Stats := mkStats {
  stats_videos : nat;
  stats_frames : nat;
  stats_thumbnails : nat
}.

Definition getStats (db : DB) : Stats :=
  mkStats (size (videos db)) (size (frames db)) (size (thumbnails db)).

Definition clearAllData (db : DB) : DB := mkDB ∅ ∅ ∅ ∅.

(** The thumbnails and the frames are stored under their own key (the key
    path of their stores). *)
Definition thumbs_wf (db : DB) : Prop :=
  map_Forall (fun k t => thumb_key t = k) (thumbnails db).

Definition frames_wf (db : DB) : Prop :=
  map_Forall (fun k f => frame_key f = k) (frames db).

#[global] Instance thumbs_wf_dec db : Decision (thumbs_wf db).
Proof. unfold thumbs_wf. apply _. Defined.

#[global] Instance frames_wf_dec db : Decision (frames_wf db).
Proof. unfold frames_wf. apply _. Defined.

(** ** More of the colour utilities ([rgbToHex], [isColorQuery]) *)

(** The digit [d] of [Number.prototype.toString(16)], in lower case. *)
Definition hex_char (d : N) : N := (if d <? 10 then 48 + d else 87 + d)%N.

Fixpoint toString16_go (fuel : nat) (n : N) (acc : jsstring) : jsstring :=
  match fuel with
  | O => acc
  | S fuel' =>
      let acc' := hex_char (n mod 16) :: acc in
      if (n <? 16)%N then acc' else toString16_go fuel' (n / 16) acc'
  end.

(** [x.toString(16)] for an integer [x]; a number of [b] bits has no more
    than [b] digits. *)
Definition toString16 (x : Z) : jsstring :=
  let digits := toString16_go (S (N.size_nat (Z.abs_N x))) (Z.abs_N x) [] in
  if x <? 0 then 45%N :: digits else digits.

Definition pad2 (hex : jsstring) : jsstring :=
  if (length hex =? 1)%nat then 48%N :: hex else hex.

Definition rgbToHex (r g b : Z) : jsstring :=
  35%N :: pad2 (toString16 r) ++ pad2 (toString16 g) ++ pad2 (toString16 b).

(** The check that [hexToRgb] reads the two digits that [rgbToHex] writes
    for [x]. *)
Definition hex_round_trip (x : Z) : bool :=
  match pad2 (toString16 x) with
  | [hi; lo] => bool_decide (hex_pair hi lo = Some x)
  | _ => false
  end.

(** [text.startsWith(term)] and [text.includes(term)]. *)
Fixpoint starts_with (text term : jsstring) : bool :=
  match term, text with
  | [], _ => true
  | _ :: _, [] => false
  | c :: term', d :: text' => (c =? d)%N && starts_with text' term'
  end.

Fixpoint includes (text term : jsstring) : bool :=
  starts_with text term
  || match text with
     | [] => false
     | _ :: text' => includes text' term
     end.

(** The terms of [isColorQuery], Vietnamese and English words for colour
    and two garments. *)
Definition colorTerms : list jsstring :=
  [ [109; 224; 117]%N;                          (* "mau" with a grave accent *)
    js "color";
    [225; 111]%N;                               (* "ao" with an acute accent *)
    [113; 117; 7847; 110]%N;                    (* "quan" with its accents *)
    [225; 111; 32; 109; 224; 117]%N;            (* the third and the first term *)
    [109; 224; 117; 32; 103; 236]%N;            (* the first term and "gi" *)
    js "what color" ].

Definition isColorQuery (toLowerCase : jsstring -> jsstring) (query : jsstring) : bool :=
  let lowerQuery := toLowerCase query in
  existsb (fun term => includes lowerQuery term) colorTerms.

(** The reference colours of the lexicon in the order in which
    [findNearestColorName] visits them, each with its name. *)
Definition references : list (jsstring * jsstring) :=
  COLOR_NAMES ≫= (fun entry => (fun hex => (entry.1, hex)) <$> entry.2).

(** The state of the search after a prefix of the references: nothing
    yet when no reference of the prefix could be read; otherwise the first
    of the nearest references of the prefix. *)
Definition nearest_so_far (rgb : Pixel) (seen : list (jsstring * jsstring))
    (st : option Z * option jsstring) : Prop :=
  (st = (None, None) /\ forall e, e ∈ seen -> hexToRgb e.2 = None) \/
  exists i name hex ref,
    seen !! i = Some (name, hex) /\ hexToRgb hex = Some ref /\
    st = (Some (colorDistance2 rgb ref), Some name) /\
    forall j name' hex' ref',
      seen !! j = Some (name', hex') -> hexToRgb hex' = Some ref' ->
      colorDistance2 rgb ref <= colorDistance2 rgb ref' /\
      ((j < i)%nat -> colorDistance2 rgb ref < colorDistance2 rgb ref').


(** The confidences of a result of [detectColors], added up. *)
Definition total_confidence (results : list ColorResult) : Q :=
  fold_right Qplus 0%Q (confidence <$> results).

(** A pixel as [getImageData] gives it: every channel is a byte. *)
Definition in_range (p : Pixel) : Prop :=
  0 <= pixel_r p <= 255 /\ 0 <= pixel_g p <= 255 /\ 0 <= pixel_b p <= 255.

(** ** More data for the examples *)
Module Sample.
(** Five pixels of five shades, and what [medianCut] makes of them when
    three colours are asked for: the second pass splits both boxes. *)
Definition shades : list Pixel :=
  [mkPixel 0 0 0; mkPixel 80 0 0; mkPixel 160 0 0; mkPixel 240 0 0; mkPixel 250 0 0].

Definition palette : list Color :=
  [mkColor (mkPixel 245 0 0) 2; mkColor (mkPixel 0 0 0) 1;
   mkColor (mkPixel 80 0 0) 1; mkColor (mkPixel 160 0 0) 1].

(** A world in which the vision step is switched on and the service
    answers with one label. *)
Definition online : World :=
  mkWorld (Some (mkSettings true true (js "key")))
          (Annotated (Some [js "Red Shirt"]) None None) None.

(** A thumbnail of video [B]. *)
Definition thumbB : Thumb :=
  mkThumb (js "B:thumb:1700000000002") (js "B") (js "https://example.test/video")
          1700000000002 (js "data:image/webp;base64,") 90 160.
End Sample.

(** * Properties *)

(** ** Lists *)

Section BeforeFacts.
Context {A : Type}.
Implicit Types (a b x : A) (l : list A).

Lemma before_elem_l a b l : before a b l -> a ∈ l.
Proof. induction 1; [apply list_elem_of_here | by apply list_elem_of_further]. Qed.

Lemma before_elem_r a b l : before a b l -> b ∈ l.
Proof. induction 1; by apply list_elem_of_further. Qed.

Lemma before_cons_inv a b x l :
  before a b (x :: l) -> (a = x /\ b ∈ l) \/ before a b l.
Proof. inversion 1; subst; auto. Qed.

Lemma before_snoc_inv a b x l :
  before a b (l ++ [x]) -> before a b l \/ (a ∈ l /\ b = x).
Proof.
  induction l as [| y l IH]; simpl; intros H.
  - inversion H as [l' Hb | y' l' Hb]; subst.
    + by apply elem_of_nil in Hb.
    + inversion Hb.
  - apply before_cons_inv in H as [[-> Hb] | H].
    + apply elem_of_app in Hb as [Hb | Hb].
      * left. by apply before_here.
      * apply list_elem_of_singleton in Hb. right. split; [apply list_elem_of_here | done].
    + destruct (IH H) as [H' | [Ha ->]].
      * left. by apply before_later.
      * right. split; [by apply list_elem_of_further | done].
Qed.

Lemma before_lookup i j a b l :
  (i < j)%nat -> l !! i = Some a -> l !! j = Some b -> before a b l.
Proof.
  revert i j. induction l as [| x l IH]; intros i j Hij Hi Hj; [done |].
  destruct j as [| j]; [lia |]. simpl in Hj.
  destruct i as [| i]; simpl in Hi.
  - injection Hi as ->. apply before_here. by eapply list_elem_of_lookup_2.
  - apply before_later. apply (IH i j); [lia | done | done].
Qed.

Lemma before_irrefl_NoDup a l : NoDup l -> ~ before a a l.
Proof.
  induction 1 as [| x l Hx _ IH]; intros H; [inversion H |].
  apply before_cons_inv in H as [[-> Ha] | H]; auto.
Qed.
End BeforeFacts.

Lemma before_fmap_inv {A B : Type} (f : A -> B) (x y : B) (l : list A) :
  before x y (f <$> l) ->
  exists a b, x = f a /\ y = f b /\ before a b l.
Proof.
  induction l as [| c l IH]; simpl; intros H; [inversion H |].
  apply before_cons_inv in H as [[-> Hy] | H].
  - apply list_elem_of_fmap in Hy as (b & -> & Hb).
    exists c, b. split; [done |]. split; [done |]. by apply before_here.
  - destruct (IH H) as (a & b & -> & -> & Hab).
    exists a, b. split; [done |]. split; [done |]. by apply before_later.
Qed.

Lemma before_omap_inv {A B : Type} (f : A -> option B) (x y : B) (l : list A) :
  before x y (omap f l) ->
  exists a b, f a = Some x /\ f b = Some y /\ before a b l.
Proof.
  induction l as [| c l IH]; simpl; intros H; [inversion H |].
  destruct (f c) as [z |] eqn:Hc.
  - apply before_cons_inv in H as [[-> Hy] | H].
    + apply list_elem_of_omap in Hy as (b & Hb & Hfb).
      exists c, b. split; [done |]. split; [done |]. by apply before_here.
    + destruct (IH H) as (a & b & Ha & Hb & Hab).
      exists a, b. split; [done |]. split; [done |]. by apply before_later.
  - destruct (IH H) as (a & b & Ha & Hb & Hab).
    exists a, b. split; [done |]. split; [done |]. by apply before_later.
Qed.

Section FirstIndex.
Context {A : Type} `{EqDecision A}.
Implicit Types (x : A) (l : list A).

Lemma first_index_lt x l : x ∈ l -> (first_index x l < length l)%nat.
Proof.
  induction l as [| y l IH]; intros Hx; [by apply elem_of_nil in Hx |].
  simpl. destruct (decide (y = x)); [lia |].
  apply elem_of_cons in Hx as [-> | Hx]; [done |]. specialize (IH Hx). lia.
Qed.

Lemma first_index_app_l x l l' :
  x ∈ l -> first_index x (l ++ l') = first_index x l.
Proof.
  induction l as [| y l IH]; intros Hx; [by apply elem_of_nil in Hx |].
  simpl. destruct (decide (y = x)); [done |].
  apply elem_of_cons in Hx as [-> | Hx]; [done |]. by rewrite IH.
Qed.

Lemma first_index_app_r x l l' :
  x ∉ l -> first_index x (l ++ l') = (length l + first_index x l')%nat.
Proof.
  induction l as [| y l IH]; intros Hx; [done |].
  simpl. apply not_elem_of_cons in Hx as [Hne Hx].
  destruct (decide (y = x)); [congruence |]. by rewrite IH.
Qed.
End FirstIndex.

(** ** The sort *)

Section JsSortFacts.
Context {A : Type}.
Variable cmp : A -> A -> Z.
Implicit Types (a b x : A) (l : list A).

Lemma sort_insert_perm x l : sort_insert cmp x l ≡ₚ x :: l.
Proof.
  induction l as [| y l IH]; simpl; [done |].
  destruct (cmp y x <? 0); [| done].
  rewrite IH. apply Permutation_swap.
Qed.

Lemma js_sort_perm l : js_sort cmp l ≡ₚ l.
Proof.
  induction l as [| x l IH]; simpl; [done |].
  by rewrite sort_insert_perm, IH.
Qed.

Lemma js_sort_length l : length (js_sort cmp l) = length l.
Proof. by rewrite js_sort_perm. Qed.

Lemma js_sort_elem x l : x ∈ js_sort cmp l <-> x ∈ l.
Proof. by rewrite js_sort_perm. Qed.

(** Two elements that the insertion leaves in the order [a], [b] were in
    that order, or [a] is the new element with [b] in the list, or [b] is
    the new one and it went behind [a] because the comparator says so. *)
Lemma sort_insert_before a b x l :
  before a b (sort_insert cmp x l) ->
  before a b l \/ (a = x /\ b ∈ l) \/ (b = x /\ a ∈ l /\ cmp a x < 0).
Proof.
  induction l as [| y l IH]; simpl; intros H.
  - inversion H as [l' Hb | y' l' Hb]; subst.
    + by apply elem_of_nil in Hb.
    + inversion Hb.
  - destruct (cmp y x <? 0) eqn:Hc.
    + apply Z.ltb_lt in Hc.
      apply before_cons_inv in H as [[-> Hb] | H].
      * apply (proj1 (elem_of_Permutation_proper _ _ _ (sort_insert_perm x l))) in Hb.
        apply elem_of_cons in Hb as [-> | Hb].
        -- right; right. split; [done |]. split; [apply list_elem_of_here | done].
        -- left. by apply before_here.
      * destruct (IH H) as [H' | [[-> Hb] | (-> & Ha & Hlt)]].
        -- left. by apply before_later.
        -- right; left. split; [done |]. by apply list_elem_of_further.
        -- right; right. split; [done |]. split; [by apply list_elem_of_further | done].
    + apply before_cons_inv in H as [[-> Hb] | H].
      * right; left. done.
      * by left.
Qed.

(** Stability: the sort moves [a] in front of [b] only if the comparator
    puts [a] strictly first. *)
Lemma js_sort_before a b l :
  before a b (js_sort cmp l) -> before a b l \/ cmp a b < 0.
Proof.
  revert a b. induction l as [| x l IH]; simpl; intros a b H; [inversion H |].
  apply sort_insert_before in H as [H | [[-> Hb] | (-> & Ha & Hlt)]].
  - destruct (IH _ _ H) as [H' | H']; [left; by apply before_later | by right].
  - left. apply before_here. exact (proj1 (js_sort_elem b l) Hb).
  - by right.
Qed.

(** For a comparator that orders by a key, the result is in the order of
    the keys. *)
Variable key : A -> Z.
Hypothesis cmp_key : forall a b, cmp a b < 0 <-> key a < key b.

Lemma sort_insert_sorted x l :
  (forall a b, before a b l -> key a <= key b) ->
  forall a b, before a b (sort_insert cmp x l) -> key a <= key b.
Proof.
  induction l as [| y l IH]; simpl; intros Hl a b H.
  - inversion H as [l' Hb | y' l' Hb]; subst.
    + by apply elem_of_nil in Hb.
    + inversion Hb.
  - destruct (cmp y x <? 0) eqn:Hc.
    + apply Z.ltb_lt, cmp_key in Hc.
      apply before_cons_inv in H as [[-> Hb] | H].
      * apply (proj1 (elem_of_Permutation_proper _ _ _ (sort_insert_perm x l))) in Hb.
        apply elem_of_cons in Hb as [-> | Hb]; [lia |].
        apply Hl. by apply before_here.
      * apply IH; [| done]. intros a' b' H'. apply Hl. by apply before_later.
    + apply Z.ltb_ge in Hc.
      assert (key x <= key y) as Hxy.
      { destruct (Z.le_gt_cases (key x) (key y)) as [? | Hlt]; [done |].
        apply cmp_key in Hlt. lia. }
      apply before_cons_inv in H as [[-> Hb] | H]; [| by apply Hl].
      apply elem_of_cons in Hb as [-> | Hb]; [done |].
      transitivity (key y); [done |]. apply Hl. by apply before_here.
Qed.

Lemma js_sort_sorted l a b : before a b (js_sort cmp l) -> key a <= key b.
Proof.
  revert a b. induction l as [| x l IH]; simpl; intros a b H; [inversion H |].
  by apply (sort_insert_sorted x (js_sort cmp l)).
Qed.
End JsSortFacts.

Lemma before_fmap {A B : Type} (f : A -> B) (a b : A) (l : list A) :
  before a b l -> before (f a) (f b) (f <$> l).
Proof.
  induction 1 as [l Hb | x l _ IH]; simpl.
  - apply before_here. by apply list_elem_of_fmap_2.
  - by apply before_later.
Qed.

(** ** The score map of [searchVideos] *)

Lemma jsmap_set_keys k v (m : list (jsstring * Z)) :
  (jsmap_set k v m).*1 = if decide (k ∈ m.*1) then m.*1 else m.*1 ++ [k].
Proof.
  induction m as [| [k' v'] m IH]; csimpl.
  - destruct (decide (k ∈ [])) as [H | _]; [by apply elem_of_nil in H | done].
  - destruct (decide (k' = k)) as [-> | Hne]; csimpl.
    + by rewrite decide_True by apply list_elem_of_here.
    + rewrite IH. destruct (decide (k ∈ m.*1)) as [Hin | Hnin].
      * by rewrite decide_True by by apply list_elem_of_further.
      * rewrite decide_False; [done |].
        apply not_elem_of_cons. split; [congruence | done].
Qed.

Lemma jsmap_get_set k k' v (m : list (jsstring * Z)) :
  jsmap_get k' (jsmap_set k v m) = if decide (k = k') then Some v else jsmap_get k' m.
Proof.
  induction m as [| [k0 v0] m IH]; simpl.
  - destruct (decide (k = k')); done.
  - destruct (decide (k0 = k)) as [-> | Hne]; simpl.
    + destruct (decide (k = k')); done.
    + destruct (decide (k0 = k')) as [-> | Hne'].
      * by rewrite decide_False by congruence.
      * apply IH.
Qed.

Lemma jsmap_get_None k (m : list (jsstring * Z)) :
  k ∉ m.*1 -> jsmap_get k m = None.
Proof.
  induction m as [| [k0 v0] m IH]; simpl; intros Hk; [done |].
  apply not_elem_of_cons in Hk as [Hne Hk].
  rewrite decide_False by congruence. by apply IH.
Qed.

Lemma jsmap_get_elem k v (m : list (jsstring * Z)) :
  NoDup m.*1 -> (k, v) ∈ m -> jsmap_get k m = Some v.
Proof.
  induction m as [| [k0 v0] m IH]; simpl; intros Hnd Hin.
  - by apply elem_of_nil in Hin.
  - apply NoDup_cons in Hnd as [Hk0 Hnd].
    apply elem_of_cons in Hin as [Heq | Hin].
    + injection Heq as -> ->. by rewrite decide_True.
    + rewrite decide_False; [by apply IH |].
      intros ->. apply Hk0. by apply (list_elem_of_fmap_2 fst) in Hin.
Qed.

Lemma occurrences_snoc id x stream :
  occurrences id (stream ++ [x])
  = occurrences id stream + (if decide (x = id) then 1 else 0).
Proof.
  unfold occurrences. rewrite filter_app, length_app.
  rewrite filter_cons, filter_nil. destruct (decide (x = id)); simpl; lia.
Qed.


Lemma occurrences_zero id stream : id ∉ stream -> occurrences id stream = 0.
Proof.
  intros Hnin. unfold occurrences.
  destruct (filter (fun x => x = id) stream) as [| y l] eqn:Hf; [done |].
  assert (y ∈ filter (fun x => x = id) stream) as H
    by (rewrite Hf; apply list_elem_of_here).
  apply list_elem_of_filter in H as [-> H]. done.
Qed.

Lemma occurrences_NoDup id stream :
  NoDup stream ->
  occurrences id stream = if decide (id ∈ stream) then 1 else 0.
Proof.
  induction 1 as [| x l Hx Hnd IH]; unfold occurrences in *.
  - by rewrite decide_False by apply not_elem_of_nil.
  - rewrite filter_cons. destruct (decide (x = id)) as [-> | Hne].
    + rewrite decide_True by apply list_elem_of_here.
      simpl. rewrite decide_False in IH by done. lia.
    + rewrite IH. destruct (decide (id ∈ l)) as [Hin | Hnin].
      * by rewrite decide_True by by apply list_elem_of_further.
      * rewrite decide_False; [done |].
        apply not_elem_of_cons. split; [congruence | done].
Qed.

Lemma score_inv_nil : score_inv [] [].
Proof.
  split; simpl.
  - constructor.
  - done.
  - intros id H. by apply elem_of_nil in H.
  - intros a b H. inversion H.
Qed.

Lemma score_inv_step stream m id :
  score_inv stream m ->
  score_inv (stream ++ [id]) (jsmap_set id (default 0 (jsmap_get id m) + 1) m).
Proof.
  intros [Hnd Hkeys Hval Hord].
  split.
  - rewrite jsmap_set_keys. destruct (decide (id ∈ m.*1)); [done |].
    apply NoDup_app. split; [done |]. split; [| apply NoDup_singleton].
    intros x Hx Hx'. apply list_elem_of_singleton in Hx'. by subst.
  - intros x. rewrite jsmap_set_keys, elem_of_app, list_elem_of_singleton.
    destruct (decide (id ∈ m.*1)) as [Hin | Hnin].
    + rewrite Hkeys. split; [auto |]. intros [H | ->]; [done | by apply Hkeys].
    + rewrite elem_of_app, list_elem_of_singleton, Hkeys. done.
  - intros x Hx. rewrite jsmap_get_set, occurrences_snoc.
    destruct (decide (id = x)) as [-> | Hne].
    + destruct (decide (x ∈ stream)) as [Hin | Hnin].
      * rewrite (Hval x Hin). simpl. done.
      * rewrite jsmap_get_None by (by rewrite Hkeys).
        rewrite occurrences_zero by done. done.
    + apply elem_of_app in Hx as [Hx | Hx].
      * rewrite (Hval x Hx). f_equal. lia.
      * apply list_elem_of_singleton in Hx. congruence.
  - intros a b. rewrite jsmap_set_keys.
    destruct (decide (id ∈ m.*1)) as [Hin | Hnin]; intros H.
    + pose proof (before_elem_l _ _ _ H) as Ha.
      pose proof (before_elem_r _ _ _ H) as Hb.
      apply Hkeys in Ha, Hb.
      rewrite !first_index_app_l by done. by apply Hord.
    + apply before_snoc_inv in H as [H | [Ha ->]].
      * pose proof (before_elem_l _ _ _ H) as Ha.
        pose proof (before_elem_r _ _ _ H) as Hb.
        apply Hkeys in Ha, Hb.
        rewrite !first_index_app_l by done. by apply Hord.
      * apply Hkeys in Ha.
        rewrite first_index_app_l by done.
        rewrite first_index_app_r by (by rewrite <- Hkeys).
        pose proof (first_index_lt _ _ Ha). lia.
Qed.

Lemma score_ids_app m s1 s2 : score_ids m (s1 ++ s2) = score_ids (score_ids m s1) s2.
Proof. unfold score_ids. apply fold_left_app. Qed.

Lemma score_ids_inv stream : score_inv stream (score_ids [] stream).
Proof.
  induction stream as [| id stream IH] using rev_ind.
  - apply score_inv_nil.
  - rewrite score_ids_app. simpl. by apply score_inv_step.
Qed.

Lemma videoIdScores_stream db tokens m :
  fold_left
    (fun scores token =>
       match invertedIndex db !! token with
       | Some ids => score_ids scores ids
       | None => scores
       end) tokens m
  = score_ids m (tokens ≫= posting db).
Proof.
  revert m. induction tokens as [| token tokens IH]; intros m; simpl; [done |].
  rewrite IH, score_ids_app. unfold posting.
  by destruct (invertedIndex db !! token).
Qed.

Lemma videoIdScores_inv db tokens :
  score_inv (encounters db tokens) (videoIdScores db tokens).
Proof.
  unfold videoIdScores. rewrite videoIdScores_stream. apply score_ids_inv.
Qed.

Lemma elem_of_encounters db tokens id :
  id ∈ encounters db tokens <->
  exists token, token ∈ tokens /\ id ∈ posting db token.
Proof.
  unfold encounters. rewrite list_elem_of_bind.
  split; intros (token & H1 & H2); exists token; done.
Qed.

Lemma posting_NoDup db token : index_wf db -> NoDup (posting db token).
Proof.
  intros Hwf. unfold posting.
  destruct (invertedIndex db !! token) as [ids |] eqn:He; simpl.
  - by eapply Hwf.
  - constructor.
Qed.

(** With posting lists free of repetitions, the encounters of an id are
    the query tokens that match it. *)
Lemma occurrences_encounters db tokens id :
  index_wf db ->
  occurrences id (encounters db tokens) = match_count db tokens id.
Proof.
  intros Hwf. unfold match_count, matching_tokens, encounters.
  induction tokens as [| token tokens IH]; [done |].
  change ((token :: tokens) ≫= posting db)
    with (posting db token ++ (tokens ≫= posting db)).
  unfold occurrences in *. rewrite filter_app, length_app, Nat2Z.inj_add, IH.
  pose proof (occurrences_NoDup id _ (posting_NoDup db token Hwf)) as Hocc.
  unfold occurrences in Hocc. rewrite Hocc, filter_cons.
  destruct (decide (id ∈ posting db token)); simpl; lia.
Qed.

(** ** The tokenizer *)

Lemma set_add_NoDup tokens token : NoDup tokens -> NoDup (set_add tokens token).
Proof.
  intros Hnd. unfold set_add. destruct (decide (token ∈ tokens)); [done |].
  apply NoDup_app. split; [done |]. split; [| apply NoDup_singleton].
  intros x Hx Hx'. apply list_elem_of_singleton in Hx'. by subst.
Qed.

Lemma elem_of_set_add tokens token x :
  x ∈ set_add tokens token <-> x ∈ tokens \/ x = token.
Proof.
  unfold set_add. destruct (decide (token ∈ tokens)) as [Hin | Hnin].
  - split; [auto |]. intros [H | ->]; done.
  - by rewrite elem_of_app, list_elem_of_singleton.
Qed.

Section TokenizerFacts.
Variable toLowerCase : jsstring -> jsstring.
Variable normalizeNFD : jsstring -> jsstring.

Lemma extractTokens_NoDup text :
  NoDup (extractTokens toLowerCase normalizeNFD text).
Proof.
  unfold extractTokens.
  assert (forall l acc, NoDup acc ->
            NoDup (fold_left
                     (fun tokens token =>
                        if (2 <=? length token)%nat then set_add tokens token
                        else tokens) l acc)) as H.
  { induction l as [| token l IH]; intros acc Hacc; cbn [fold_left]; [done |].
    apply IH. destruct (2 <=? length token)%nat; [by apply set_add_NoDup | done]. }
  apply H. constructor.
Qed.

(** Every token has two code units or more, none of them white space or
    a combining mark. *)
Lemma extractTokens_length text token :
  token ∈ extractTokens toLowerCase normalizeNFD text -> (2 <= length token)%nat.
Proof.
  unfold extractTokens.
  assert (forall l acc,
            (forall t, t ∈ acc -> (2 <= length t)%nat) ->
            forall t, t ∈ fold_left
                     (fun tokens token =>
                        if (2 <=? length token)%nat then set_add tokens token
                        else tokens) l acc -> (2 <= length t)%nat) as H.
  { induction l as [| tok l IH]; intros acc Hacc t; cbn [fold_left]; [apply Hacc |].
    apply IH. intros t'. destruct (2 <=? length tok)%nat eqn:Hlen; [| apply Hacc].
    rewrite elem_of_set_add. intros [Ht | ->]; [by apply Hacc |].
    by apply Nat.leb_le. }
  apply H. intros t Ht. by apply elem_of_nil in Ht.
Qed.
End TokenizerFacts.

(** ** [searchVideos] *)

(** Reading the videos of a list of ids keeps the ids that have a video. *)
Lemma hydrate_ids db (ids : list jsstring) :
  videos_wf db ->
  video_id <$> omap (fun id => videos db !! id) ids
  = filter (fun id => is_Some (videos db !! id)) ids.
Proof.
  intros Hwf. induction ids as [| id ids IH]; [done |].
  csimpl. rewrite filter_cons.
  destruct (videos db !! id) as [video |] eqn:Hv.
  - rewrite decide_True by done. csimpl. rewrite IH. f_equal. by apply Hwf.
  - rewrite decide_False by (by intros [? ?]). apply IH.
Qed.

Lemma sortedIds_perm scores : sortedIds scores ≡ₚ scores.*1.
Proof. unfold sortedIds. by rewrite js_sort_perm. Qed.

(** The order of the sorted ids: scores do not increase, and of two ids
    with the same score the one met first comes first. *)
Lemma sortedIds_before db tokens a b :
  index_wf db ->
  before a b (sortedIds (videoIdScores db tokens)) ->
  match_count db tokens b <= match_count db tokens a /\
  (match_count db tokens a = match_count db tokens b ->
   (first_index a (encounters db tokens) < first_index b (encounters db tokens))%nat).
Proof.
  intros Hwf Hbefore.
  destruct (videoIdScores_inv db tokens) as [Hnd Hkeys Hval Hord].
  unfold sortedIds in Hbefore.
  apply before_fmap_inv in Hbefore as ([a' sa] & [b' sb] & Ha & Hb & Hbefore).
  simpl in Ha, Hb. subst a' b'.
  set (cmp := fun x y : jsstring * Z => y.2 - x.2) in *.
  assert (forall id s, (id, s) ∈ js_sort cmp (videoIdScores db tokens) ->
            s = match_count db tokens id) as Hscore.
  { intros id s Hin. apply js_sort_elem in Hin.
    pose proof (jsmap_get_elem _ _ _ Hnd Hin) as Hget.
    assert (id ∈ encounters db tokens) as Hid.
    { apply Hkeys. by apply (list_elem_of_fmap_2 fst) in Hin. }
    rewrite (Hval _ Hid) in Hget. injection Hget as <-.
    by apply occurrences_encounters. }
  rewrite <- (Hscore a sa) by (by eapply before_elem_l).
  rewrite <- (Hscore b sb) by (by eapply before_elem_r).
  split.
  - pose proof (js_sort_sorted cmp (fun x => - x.2)) as Hsorted.
    specialize (Hsorted ltac:(intros x y; unfold cmp; lia) _ _ _ Hbefore).
    simpl in Hsorted. lia.
  - intros Heq. apply js_sort_before in Hbefore as [Hbefore | Hlt].
    + apply Hord. by apply (before_fmap fst) in Hbefore.
    + unfold cmp in Hlt. simpl in Hlt. lia.
Qed.

Section SearchFacts.
Variable toLowerCase : jsstring -> jsstring.
Variable normalizeNFD : jsstring -> jsstring.

Local Abbreviation tokensOf := (extractTokens toLowerCase normalizeNFD).
Local Abbreviation search := (searchVideos toLowerCase normalizeNFD).

Lemma searchVideos_unfold db query :
  search db query
  = omap (fun id => videos db !! id)
      (sortedIds (videoIdScores db (tokensOf query))).
Proof.
  unfold searchVideos.
  destruct (tokensOf query) as [| token tokens] eqn:Ht; [done | done].
Qed.

Lemma elem_of_searchVideos db query video :
  videos_wf db ->
  video ∈ search db query <->
  videos db !! video_id video = Some video /\
  exists token, token ∈ tokensOf query /\ video_id video ∈ posting db token.
Proof.
  intros Hwf. rewrite searchVideos_unfold, list_elem_of_omap.
  destruct (videoIdScores_inv db (tokensOf query)) as [_ Hkeys _ _].
  rewrite <- elem_of_encounters, <- Hkeys, <- sortedIds_perm.
  split.
  - intros (id & Hid & Hv). by rewrite (Hwf _ _ Hv).
  - intros [Hv Hid]. by exists (video_id video).
Qed.

Lemma searchVideos_NoDup db query :
  videos_wf db -> NoDup (video_id <$> search db query).
Proof.
  intros Hwf. rewrite searchVideos_unfold, hydrate_ids by done.
  apply NoDup_filter. rewrite sortedIds_perm.
  apply (videoIdScores_inv db (tokensOf query)).
Qed.

(** C1. On a database whose posting lists name each id once and whose
    videos are stored under their own id, [searchVideos] returns, each
    once, exactly the stored videos whose id is on the posting list of a
    query token; the score that the search keeps for a returned video is
    the number of the (pairwise distinct) query tokens whose posting list
    contains its id; and the result is in descending order of that score,
    videos of equal score in the order in which the search met their
    ids. *)
Theorem searchVideos_ranked db query :
  index_wf db -> videos_wf db ->
  let tokens := tokensOf query in
  let result := search db query in
  NoDup tokens /\
  NoDup (video_id <$> result) /\
  (forall video,
      video ∈ result <->
      videos db !! video_id video = Some video /\
      exists token, token ∈ tokens /\ video_id video ∈ posting db token) /\
  (forall video,
      video ∈ result ->
      jsmap_get (video_id video) (videoIdScores db tokens)
      = Some (match_count db tokens (video_id video))) /\
  (forall i j vi vj,
      (i < j)%nat -> result !! i = Some vi -> result !! j = Some vj ->
      match_count db tokens (video_id vj) <= match_count db tokens (video_id vi) /\
      (match_count db tokens (video_id vi) = match_count db tokens (video_id vj) ->
       (first_index (video_id vi) (encounters db tokens)
        < first_index (video_id vj) (encounters db tokens))%nat)).
Proof.
  intros Hiwf Hvwf tokens result.
  split; [apply extractTokens_NoDup |].
  split; [by apply searchVideos_NoDup |].
  split; [intros video; by apply elem_of_searchVideos |].
  split.
  - intros video Hin. apply elem_of_searchVideos in Hin as [_ Hid]; [| done].
    apply elem_of_encounters in Hid.
    destruct (videoIdScores_inv db tokens) as [_ _ Hval _].
    rewrite (Hval _ Hid). f_equal. by apply occurrences_encounters.
  - intros i j vi vj Hij Hi Hj.
    pose proof (before_lookup i j vi vj result Hij Hi Hj) as Hbefore.
    subst result. rewrite searchVideos_unfold in Hbefore.
    apply before_omap_inv in Hbefore as (a & b & Ha & Hb & Hbefore).
    rewrite <- (Hvwf _ _ Ha), <- (Hvwf _ _ Hb) in Hbefore.
    by apply sortedIds_before.
Qed.
End SearchFacts.

(** ** The invariants of the stores *)

Lemma index_token_wf (videoId token : jsstring)
    (index : gmap jsstring (list jsstring)) :
  map_Forall (fun _ ids => NoDup ids) index ->
  map_Forall (fun _ ids => NoDup ids) (index_token videoId index token).
Proof.
  intros Hwf. unfold index_token.
  destruct (index !! token) as [ids |] eqn:He.
  - destruct (decide (videoId ∈ ids)) as [Hin | Hnin]; [done |].
    apply map_Forall_insert_2; [| done].
    apply NoDup_app. split; [by eapply Hwf |]. split; [| apply NoDup_singleton].
    intros x Hx Hx'. apply list_elem_of_singleton in Hx'. by subst.
  - apply map_Forall_insert_2; [apply NoDup_singleton | done].
Qed.

Lemma updateInvertedIndex_index_wf videoId tokens db :
  index_wf db -> index_wf (updateInvertedIndex videoId tokens db).
Proof.
  unfold index_wf, updateInvertedIndex. simpl.
  generalize (invertedIndex db).
  induction tokens as [| token tokens IH]; intros index Hwf; simpl; [done |].
  apply IH. by apply index_token_wf.
Qed.

Lemma emptyDB_wf : index_wf emptyDB /\ videos_wf emptyDB.
Proof. split; apply map_Forall_empty. Qed.

Section InvariantFacts.
Variable toLowerCase : jsstring -> jsstring.
Variable normalizeNFD : jsstring -> jsstring.

Lemma saveVideo_index_wf videoData db :
  index_wf db -> index_wf (saveVideo toLowerCase normalizeNFD videoData db).2.
Proof.
  intros Hi. unfold saveVideo.
  destruct (videos db !! video_id videoData) eqn:He; simpl; [done |].
  by apply updateInvertedIndex_index_wf.
Qed.

Lemma saveVideo_videos_wf videoData db :
  videos_wf db -> videos_wf (saveVideo toLowerCase normalizeNFD videoData db).2.
Proof.
  intros Hv. unfold saveVideo.
  destruct (videos db !! video_id videoData) eqn:He; simpl; [done |].
  unfold videos_wf. simpl. by apply map_Forall_insert_2.
Qed.

Lemma saveFrame_wf w frameData db :
  index_wf db -> videos_wf db ->
  index_wf (saveFrame toLowerCase normalizeNFD w frameData db).2 /\
  videos_wf (saveFrame toLowerCase normalizeNFD w frameData db).2.
Proof.
  intros Hi Hv. unfold saveFrame.
  destruct (convertBlob (fd_blob frameData)) as [early | blobData]; [done |].
  assert (index_wf (analyzeForFrame toLowerCase normalizeNFD w frameData blobData db).2 /\
          videos_wf (analyzeForFrame toLowerCase normalizeNFD w frameData blobData db).2)
    as H.
  { unfold analyzeForFrame.
    destruct (settingsRead w) as [s |]; [| done].
    destruct (analysisEnabled s blobData); [| done].
    destruct (analyzeImageWithCloudVision (vision w)); [| done].
    simpl. split; [by apply updateInvertedIndex_index_wf | done]. }
  destruct (analyzeForFrame toLowerCase normalizeNFD w frameData blobData db)
    as [analysis db1].
  simpl in H. destruct (framePut w); simpl; done.
Qed.
End InvariantFacts.

Lemma searchVideos_ranked_witness :
  index_wf Demo.db /\ videos_wf Demo.db /\
  let tokens := extractTokens Demo.lower Demo.nfd (js "ao mau") in
  let result := searchVideos Demo.lower Demo.nfd Demo.db (js "ao mau") in
  NoDup tokens /\
  NoDup (video_id <$> result) /\
  (forall video,
      video ∈ result <->
      videos Demo.db !! video_id video = Some video /\
      exists token, token ∈ tokens /\ video_id video ∈ posting Demo.db token) /\
  (forall video,
      video ∈ result ->
      jsmap_get (video_id video) (videoIdScores Demo.db tokens)
      = Some (match_count Demo.db tokens (video_id video))) /\
  (forall i j vi vj,
      (i < j)%nat -> result !! i = Some vi -> result !! j = Some vj ->
      match_count Demo.db tokens (video_id vj) <= match_count Demo.db tokens (video_id vi) /\
      (match_count Demo.db tokens (video_id vi) = match_count Demo.db tokens (video_id vj) ->
       (first_index (video_id vi) (encounters Demo.db tokens)
        < first_index (video_id vj) (encounters Demo.db tokens))%nat)).
Proof.
  assert (index_wf Demo.db) as Hi by (refine (bool_decide_unpack _ _); vm_compute; exact I).
  assert (videos_wf Demo.db) as Hv by (refine (bool_decide_unpack _ _); vm_compute; exact I).
  split; [exact Hi |]. split; [exact Hv |].
  exact (searchVideos_ranked Demo.lower Demo.nfd Demo.db (js "ao mau") Hi Hv).
Defined.

(** The example of the specification: [A] matches two tokens of the query,
    [B] one, and [A] comes first although [B] was saved first. *)
Example searchVideos_scores_example :
  video_id <$> searchVideos Demo.lower Demo.nfd Demo.db (js "ao mau") = [js "A"; js "B"]
  /\ videoIdScores Demo.db (extractTokens Demo.lower Demo.nfd (js "ao mau"))
     = [(js "A", 2); (js "B", 1)]
  /\ searchVideos Demo.lower Demo.nfd Demo.db (js "xyz") = [].
Proof. vm_compute. done. Qed.

(** ** [saveVideo] *)

Lemma updateInvertedIndex_videos videoId tokens db :
  videos (updateInvertedIndex videoId tokens db) = videos db.
Proof. done. Qed.

(** In a store with key path [id], the records with a given [id] are the
    one record bound to that key. *)
Lemma one_record_per_id (m : gmap jsstring Video) id video :
  map_Forall (fun k v => video_id v = k) m ->
  m !! id = Some video ->
  filter (fun v => video_id v = id) (map_to_list m).*2 ≡ₚ [video].
Proof.
  intros Hwf Hid.
  rewrite <- (insert_delete_id m id video Hid).
  rewrite map_to_list_insert by apply lookup_delete_eq.
  csimpl. rewrite filter_cons_True by by apply (Hwf id video).
  assert (filter (fun v => video_id v = id) (map_to_list (delete id m)).*2 = []) as ->;
    [| done].
  apply elem_of_nil_inv. intros v Hv.
  apply list_elem_of_filter in Hv as [Hv Hin].
  apply list_elem_of_fmap in Hin as ([k v'] & -> & Hin). simpl in Hv.
  apply elem_of_map_to_list in Hin.
  destruct (decide (k = id)) as [-> | Hne].
  - by rewrite lookup_delete_eq in Hin.
  - rewrite lookup_delete_ne in Hin by done. apply Hne.
    by rewrite <- (Hwf k v' Hin).
Qed.

Section SaveVideoFacts.
Variable toLowerCase : jsstring -> jsstring.
Variable normalizeNFD : jsstring -> jsstring.

Local Abbreviation save := (saveVideo toLowerCase normalizeNFD).

Lemma saveVideo_stored videoData db :
  is_Some (videos (save videoData db).2 !! video_id videoData).
Proof.
  unfold saveVideo.
  destruct (videos db !! video_id videoData) as [old |] eqn:He; simpl.
  - by rewrite He.
  - rewrite lookup_insert_eq. done.
Qed.

Lemma saveVideo_first_write videoData db :
  videos db !! video_id videoData = None ->
  save videoData db
  = (VideoSaved,
     updateInvertedIndex (video_id videoData)
       (extractTokens toLowerCase normalizeNFD (allText videoData))
       (set_videos db (<[video_id videoData := videoData]> (videos db)))).
Proof. intros He. unfold saveVideo. by rewrite He. Qed.

(** C2. After [saveVideo first], a second [saveVideo] with the same id
    answers "already indexed" and returns the database as it was: no
    store is written and every posting list is what it was. The store
    then holds exactly one video with that id, and it is [first] if the
    id was new. *)
Theorem saveVideo_twice (first second : Video) (db : DB) :
  videos_wf db ->
  video_id second = video_id first ->
  let db1 := (save first db).2 in
  let db2 := (save second db1).2 in
  save second db1 = (VideoAlreadyIndexed, db1) /\
  (forall token, invertedIndex db2 !! token = invertedIndex db1 !! token) /\
  length (filter (fun v => video_id v = video_id first) (map_to_list (videos db2)).*2)
  = 1%nat /\
  (videos db !! video_id first = None ->
   videos db2 !! video_id first = Some first).
Proof.
  intros Hwf Hid db1 db2.
  assert (save second db1 = (VideoAlreadyIndexed, db1)) as Hsecond.
  { destruct (saveVideo_stored first db) as [stored Hstored].
    unfold saveVideo at 1. fold db1. rewrite Hid.
    change (videos db1 !! video_id first) with
      (videos (save first db).2 !! video_id first).
    by rewrite Hstored. }
  assert (db2 = db1) as Hdb2 by (unfold db2; by rewrite Hsecond).
  split; [done |]. split; [by rewrite Hdb2 |]. rewrite Hdb2. split.
  - destruct (saveVideo_stored first db) as [stored Hstored].
    pose proof (saveVideo_videos_wf toLowerCase normalizeNFD first db Hwf) as Hwf1.
    fold db1 in Hstored, Hwf1.
    by rewrite (one_record_per_id _ _ _ Hwf1 Hstored).
  - intros Hnew. unfold db1. rewrite saveVideo_first_write by done.
    simpl. apply lookup_insert_eq.
Qed.
End SaveVideoFacts.

Lemma saveVideo_twice_witness :
  videos_wf emptyDB /\
  video_id (Demo.video "A" "mallory" "another caption") = video_id Demo.videoA /\
  let db1 := (saveVideo Demo.lower Demo.nfd Demo.videoA emptyDB).2 in
  let db2 :=
    (saveVideo Demo.lower Demo.nfd (Demo.video "A" "mallory" "another caption") db1).2 in
  saveVideo Demo.lower Demo.nfd (Demo.video "A" "mallory" "another caption") db1
  = (VideoAlreadyIndexed, db1) /\
  (forall token, invertedIndex db2 !! token = invertedIndex db1 !! token) /\
  length (filter (fun v => video_id v = video_id Demo.videoA)
            (map_to_list (videos db2)).*2) = 1%nat /\
  (videos emptyDB !! video_id Demo.videoA = None ->
   videos db2 !! video_id Demo.videoA = Some Demo.videoA).
Proof.
  assert (videos_wf emptyDB) as Hv by (refine (bool_decide_unpack _ _); vm_compute; exact I).
  split; [exact Hv |]. split; [reflexivity |].
  exact (saveVideo_twice Demo.lower Demo.nfd Demo.videoA
           (Demo.video "A" "mallory" "another caption") emptyDB Hv eq_refl).
Defined.

(** ** Queries with the same tokens *)

Section SameTokens.
Variable toLowerCase : jsstring -> jsstring.
Variable normalizeNFD : jsstring -> jsstring.

Local Abbreviation tokensOf := (extractTokens toLowerCase normalizeNFD).
Local Abbreviation search := (searchVideos toLowerCase normalizeNFD).

(** C7, as amended. Two queries with the same set of tokens find the
    same videos, each once (the results are permutations of one
    another); when the tokens also come in the same order, the results
    are the same sequence. *)
Theorem searchVideos_same_tokens db query1 query2 :
  videos_wf db ->
  (forall token, token ∈ tokensOf query1 <-> token ∈ tokensOf query2) ->
  search db query1 ≡ₚ search db query2 /\
  (tokensOf query1 = tokensOf query2 -> search db query1 = search db query2).
Proof.
  intros Hwf Hset. split.
  - apply NoDup_Permutation.
    + eapply NoDup_fmap_1. by apply searchVideos_NoDup.
    + eapply NoDup_fmap_1. by apply searchVideos_NoDup.
    + intros video. rewrite !elem_of_searchVideos by done.
      split; intros [Hv (token & Ht & Hp)]; (split; [done |]);
        exists token; (split; [by apply Hset | done]).
  - intros Heq. unfold searchVideos. by rewrite Heq.
Qed.
End SameTokens.

Lemma searchVideos_same_tokens_witness :
  videos_wf Demo.db /\
  (forall token,
      token ∈ extractTokens Demo.lower Demo.nfd (js "ao mau") <->
      token ∈ extractTokens Demo.lower Demo.nfd Demo.accented) /\
  searchVideos Demo.lower Demo.nfd Demo.db (js "ao mau")
  ≡ₚ searchVideos Demo.lower Demo.nfd Demo.db Demo.accented /\
  searchVideos Demo.lower Demo.nfd Demo.db (js "ao mau")
  = searchVideos Demo.lower Demo.nfd Demo.db Demo.accented.
Proof.
  assert (videos_wf Demo.db) as Hv by (refine (bool_decide_unpack _ _); vm_compute; exact I).
  assert (extractTokens Demo.lower Demo.nfd (js "ao mau")
          = extractTokens Demo.lower Demo.nfd Demo.accented) as Heq
    by (vm_compute; reflexivity).
  assert (forall token,
      token ∈ extractTokens Demo.lower Demo.nfd (js "ao mau") <->
      token ∈ extractTokens Demo.lower Demo.nfd Demo.accented) as Hset
    by (intros token; rewrite Heq; reflexivity).
  split; [exact Hv |]. split; [exact Hset |].
  destruct (searchVideos_same_tokens Demo.lower Demo.nfd Demo.db (js "ao mau")
              Demo.accented Hv Hset) as [Hperm Hsame].
  split; [exact Hperm | exact (Hsame Heq)].
Defined.

(** The queries [ao mau] and [mau ao] have the same set of tokens, and on a
    database where one video matches [ao] and another [mau] their results
    are in different orders. *)
Lemma same_token_set_other_order :
  (forall token,
      token ∈ extractTokens Demo.lower Demo.nfd (js "ao mau") <->
      token ∈ extractTokens Demo.lower Demo.nfd (js "mau ao")) /\
  index_wf Demo.tie_db /\ videos_wf Demo.tie_db /\
  video_id <$> searchVideos Demo.lower Demo.nfd Demo.tie_db (js "ao mau")
  = [js "C"; js "D"] /\
  video_id <$> searchVideos Demo.lower Demo.nfd Demo.tie_db (js "mau ao")
  = [js "D"; js "C"] /\
  searchVideos Demo.lower Demo.nfd Demo.tie_db (js "ao mau")
  <> searchVideos Demo.lower Demo.nfd Demo.tie_db (js "mau ao").
Proof.
  split.
  { assert (extractTokens Demo.lower Demo.nfd (js "ao mau") = [js "ao"; js "mau"]) as ->
      by (vm_compute; reflexivity).
    assert (extractTokens Demo.lower Demo.nfd (js "mau ao") = [js "mau"; js "ao"]) as ->
      by (vm_compute; reflexivity).
    intros token. rewrite !elem_of_cons, !elem_of_nil. tauto. }
  split; [refine (bool_decide_unpack _ _); vm_compute; exact I |].
  split; [refine (bool_decide_unpack _ _); vm_compute; exact I |].
  split; [vm_compute; reflexivity |].
  split; [vm_compute; reflexivity |].
  intros Heq. apply (f_equal (fmap video_id)) in Heq. vm_compute in Heq. discriminate.
Qed.

(** The accented and the plain spelling of the example give the same
    tokens. *)
Example extractTokens_accents :
  extractTokens Demo.lower Demo.nfd Demo.accented = [js "ao"; js "mau"]
  /\ extractTokens Demo.lower Demo.nfd (js "ao mau") = [js "ao"; js "mau"].
Proof. split; vm_compute; reflexivity. Qed.

(** ** [saveFrame] *)

Lemma convertBlob_valid blob :
  valid_payload blob -> exists data, convertBlob blob = inr (Some data).
Proof.
  destruct blob as [| | | [bytes | message] | bytes | bytes | values |];
    simpl; intros H; try done; eauto.
Qed.

Section SaveFrameFacts.
Variable toLowerCase : jsstring -> jsstring.
Variable normalizeNFD : jsstring -> jsstring.

Local Abbreviation save := (saveFrame toLowerCase normalizeNFD).
Local Abbreviation analyze := (analyzeForFrame toLowerCase normalizeNFD).

(** A failed analysis leaves the database alone and attaches nothing. *)
Lemma analyzeForFrame_failure w frameData blobData db :
  vision_fails w -> analyze w frameData blobData db = (None, db).
Proof.
  unfold vision_fails, analyzeForFrame. intros Hfail.
  destruct (settingsRead w) as [s |]; [| done].
  destruct (analysisEnabled s blobData); [| done].
  destruct (vision w); simpl; done.
Qed.

Lemma analyzeForFrame_no_blob w frameData db :
  analyze w frameData None db = (None, db).
Proof.
  unfold analyzeForFrame. destruct (settingsRead w) as [s |]; [| done].
  unfold analysisEnabled. rewrite bool_decide_false by (by intros [? ?]).
  by rewrite andb_false_r.
Qed.

(** C8. With a payload that converts to image data and the vision step
    switched on, a failure of the vision step (service unreachable,
    status not 200, unreadable reply) does not touch the write: when the
    store accepts the [put], [saveFrame] answers success and the frame
    is stored with its image data and without analysis, every other
    store unchanged. *)
Theorem saveFrame_survives_vision_failure (w : World) (frameData : FrameData)
    (db : DB) :
  valid_payload (fd_blob frameData) ->
  vision_enabled w ->
  vision_fails w ->
  framePut w = None ->
  exists data,
    convertBlob (fd_blob frameData) = inr (Some data) /\
    save w frameData db
    = (FrameSaved,
       set_frames db
         (<[fd_key frameData :=
              mkFrame (fd_key frameData) (fd_videoId frameData) (fd_ts frameData)
                      (Some data) None]> (frames db))).
Proof.
  intros Hvalid _ Hfail Hput.
  destruct (convertBlob_valid _ Hvalid) as [data Hdata].
  exists data. split; [done |].
  unfold saveFrame. rewrite Hdata, analyzeForFrame_failure by done.
  by rewrite Hput.
Qed.

(** Whatever the store does with the [put], a failing vision step gives
    the result of a call without the vision step. *)
Lemma saveFrame_vision_failure_as_disabled (w : World) frameData db :
  vision_fails w ->
  save w frameData db
  = save (mkWorld None (vision w) (framePut w)) frameData db.
Proof.
  intros Hfail. unfold saveFrame.
  destruct (convertBlob (fd_blob frameData)) as [early | blobData]; [done |].
  by rewrite analyzeForFrame_failure.
Qed.

(** C10. A frame whose [blob] is [undefined] or [null] is not rejected:
    when the store accepts the [put], [saveFrame] answers success and
    stores the frame with [blobData] null. The answer "Invalid blob
    type" is given exactly for the payloads that are present (truthy)
    and of none of the shapes the code knows. *)
Theorem saveFrame_absent_blob (w : World) (frameData : FrameData) (db : DB) :
  (fd_blob frameData = BlobUndefined \/ fd_blob frameData = BlobNull ->
   framePut w = None ->
   save w frameData db
   = (FrameSaved,
      set_frames db
        (<[fd_key frameData :=
             mkFrame (fd_key frameData) (fd_videoId frameData) (fd_ts frameData)
                     None None]> (frames db)))) /\
  ((save w frameData db).1 = InvalidBlobType <-> fd_blob frameData = BlobOther).
Proof.
  split.
  - intros Habsent Hput. unfold saveFrame.
    assert (convertBlob (fd_blob frameData) = inr None) as ->
      by (destruct Habsent as [-> | ->]; done).
    by rewrite analyzeForFrame_no_blob, Hput.
  - unfold saveFrame.
    destruct (fd_blob frameData) as [| | | [bytes | message] | bytes | bytes | values |];
      simpl; try (split; [| done]);
      try (destruct (analyze _ _ _ _) as [analysis db1];
           destruct (framePut w); simpl; done);
      done.
Qed.
End SaveFrameFacts.

Lemma saveFrame_survives_vision_failure_witness :
  valid_payload (fd_blob (Demo.frameData (BlobArray [82; 73; 70; 70]))) /\
  vision_enabled Demo.offline /\
  vision_fails Demo.offline /\
  framePut Demo.offline = None /\
  exists data,
    convertBlob (fd_blob (Demo.frameData (BlobArray [82; 73; 70; 70])))
    = inr (Some data) /\
    saveFrame Demo.lower Demo.nfd Demo.offline
      (Demo.frameData (BlobArray [82; 73; 70; 70])) Demo.db
    = (FrameSaved,
       set_frames Demo.db
         (<[js "A:1700000000000" :=
              mkFrame (js "A:1700000000000") (js "A") 1700000000000 (Some data) None]>
            (frames Demo.db))).
Proof.
  assert (valid_payload (fd_blob (Demo.frameData (BlobArray [82; 73; 70; 70])))) as H1
    by exact I.
  assert (vision_enabled Demo.offline) as H2.
  { exists (mkSettings true true (js "key")). simpl.
    split; [reflexivity |]. split; [reflexivity |]. split; [reflexivity | discriminate]. }
  assert (vision_fails Demo.offline) as H3 by exact I.
  split; [exact H1 |]. split; [exact H2 |]. split; [exact H3 |].
  split; [reflexivity |].
  exact (saveFrame_survives_vision_failure Demo.lower Demo.nfd Demo.offline
           (Demo.frameData (BlobArray [82; 73; 70; 70])) Demo.db H1 H2 H3 eq_refl).
Defined.

(** A frame without image data is stored with [blobData] null; a string in
    the place of the image data is turned away. *)
Example saveFrame_blob_examples :
  (saveFrame Demo.lower Demo.nfd Demo.offline (Demo.frameData BlobUndefined) Demo.db).1
  = FrameSaved
  /\ frame_blobData <$>
       (frames (saveFrame Demo.lower Demo.nfd Demo.offline
                  (Demo.frameData BlobNull) Demo.db).2 !! js "A:1700000000000")
     = Some None
  /\ error (saveFrame Demo.lower Demo.nfd Demo.offline
              (Demo.frameData BlobOther) Demo.db).1
     = Some (js "Invalid blob type").
Proof. vm_compute. done. Qed.

(** ** Retention *)

Lemma lookup_delete_keys {R : Type} (keys : list jsstring) (m : gmap jsstring R)
    (k : jsstring) :
  delete_keys keys m !! k = if decide (k ∈ keys) then None else m !! k.
Proof.
  unfold delete_keys. revert m.
  induction keys as [| k' keys IH]; intros m; simpl.
  - destruct (decide (k ∈ [])) as [H | _]; [by apply elem_of_nil in H | done].
  - rewrite IH. destruct (decide (k ∈ keys)) as [Hin | Hnin].
    + by rewrite decide_True by by apply list_elem_of_further.
    + destruct (decide (k = k')) as [-> | Hne].
      * rewrite decide_True by apply list_elem_of_here. apply lookup_delete_eq.
      * rewrite decide_False by (apply not_elem_of_cons; done).
        by apply lookup_delete_ne.
Qed.

Lemma elem_of_entries {R : Type} (m : gmap jsstring R) (k : jsstring) (rec : R) :
  (k, rec) ∈ entries m <-> m !! k = Some rec.
Proof. unfold entries. by rewrite js_sort_elem, elem_of_map_to_list. Qed.

Lemma entries_perm {R : Type} (m : gmap jsstring R) : entries m ≡ₚ map_to_list m.
Proof. apply js_sort_perm. Qed.

Lemma elem_of_cursor_upperBound {R : Type} (ts : R -> Z) (bound : Z)
    (m : gmap jsstring R) (k : jsstring) :
  k ∈ (cursor_upperBound ts bound m).*1 <->
  exists rec, m !! k = Some rec /\ ts rec <= bound.
Proof.
  unfold cursor_upperBound. rewrite list_elem_of_fmap. split.
  - intros ([k' rec] & -> & Hin). apply list_elem_of_filter in Hin as [Hts Hin].
    apply js_sort_elem, elem_of_entries in Hin. by exists rec.
  - intros (rec & Hk & Hts). exists (k, rec). split; [done |].
    apply list_elem_of_filter. split; [done |].
    by apply js_sort_elem, elem_of_entries.
Qed.

(** The walk of the cursor leaves the entries behind the bound. *)
Lemma delete_cursor_upperBound {R : Type} (ts : R -> Z) (bound : Z)
    (m : gmap jsstring R) :
  delete_keys (cursor_upperBound ts bound m).*1 m
  = filter (fun e => bound < ts e.2) m.
Proof.
  apply map_eq. intros k. rewrite lookup_delete_keys, map_lookup_filter.
  destruct (decide (k ∈ (cursor_upperBound ts bound m).*1)) as [Hin | Hnin].
  - apply elem_of_cursor_upperBound in Hin as (rec & -> & Hts). simpl.
    rewrite option_guard_False by (simpl; lia). done.
  - destruct (m !! k) as [rec |] eqn:Hk; simpl; [| done].
    rewrite option_guard_True; [done |]. simpl.
    destruct (Z.lt_ge_cases bound (ts rec)) as [? | Hle]; [done |].
    exfalso. apply Hnin, elem_of_cursor_upperBound. by exists rec.
Qed.

(** What one cleanup leaves: the frames and the thumbnails taken after
    the horizon [now - thirtyDays]. An entry taken at the horizon itself
    is deleted with the older ones. *)
Lemma cleanupOldFrames_stores now db :
  frames (cleanupOldFrames now db)
  = filter (fun e => now - thirtyDays < frame_ts e.2) (frames db) /\
  thumbnails (cleanupOldFrames now db)
  = filter (fun e => now - thirtyDays < thumb_ts e.2) (thumbnails db).
Proof.
  unfold cleanupOldFrames. simpl. by rewrite !delete_cursor_upperBound.
Qed.

Lemma cleanupOldFrames_frame now db :
  videos (cleanupOldFrames now db) = videos db /\
  invertedIndex (cleanupOldFrames now db) = invertedIndex db.
Proof. done. Qed.

Lemma checkDBSize_frame now db :
  videos (checkDBSize now db) = videos db /\
  invertedIndex (checkDBSize now db) = invertedIndex db.
Proof.
  unfold checkDBSize. destruct (MAX_FRAMES <? _); [apply cleanupOldFrames_frame | done].
Qed.

(** C9. A round of the retention timer, the cleanup followed by the size
    check, leaves the videos and the inverted index as they were. *)
Theorem retention_keeps_videos_and_index (now1 now2 : Z) (db : DB) :
  videos (retentionCycle now1 now2 db) = videos db /\
  invertedIndex (retentionCycle now1 now2 db) = invertedIndex db.
Proof.
  unfold retentionCycle.
  destruct (checkDBSize_frame now2 (cleanupOldFrames now1 db)) as [-> ->].
  apply cleanupOldFrames_frame.
Qed.

(** C3, at the input where the code parts from it. The frame and the
    thumbnail taken exactly thirty days before [now] have a timestamp
    equal to the horizon, not below it, and the cleanup deletes them; the
    ones taken a millisecond later stay. *)
Theorem cleanup_deletes_at_horizon :
  Demo.now - thirtyDays = 1700000000000 /\
  frame_ts <$> (frames Demo.retention_db !! js "A:1700000000000") = Some 1700000000000 /\
  frames (cleanupOldFrames Demo.now Demo.retention_db) !! js "A:1700000000000" = None /\
  thumbnails (cleanupOldFrames Demo.now Demo.retention_db) !! js "A:thumb:1700000000000"
  = None /\
  frame_ts <$> (frames (cleanupOldFrames Demo.now Demo.retention_db)
                  !! js "A:1700000000001") = Some 1700000000001 /\
  thumb_ts <$> (thumbnails (cleanupOldFrames Demo.now Demo.retention_db)
                  !! js "A:thumb:1700000000001") = Some 1700000000001.
Proof. vm_compute. done. Qed.

(** The same for every database: an entry with the timestamp of the
    horizon does not survive the cleanup. *)
Lemma cleanup_deletes_at_horizon_general now db k frame :
  frames db !! k = Some frame ->
  frame_ts frame = now - thirtyDays ->
  frames (cleanupOldFrames now db) !! k = None.
Proof.
  intros Hk Hts. destruct (cleanupOldFrames_stores now db) as [-> _].
  rewrite map_lookup_filter, Hk. simpl.
  rewrite option_guard_False by (simpl; lia). done.
Qed.

(** ** Median cut *)

Lemma split_loop_more_fuel fuel numColors pixels boxes result :
  split_loop fuel numColors pixels boxes = Some result ->
  split_loop (S fuel) numColors pixels boxes = Some result.
Proof.
  revert boxes. induction fuel as [| fuel IH]; intros boxes; simpl.
  - destruct (keep_splitting numColors pixels boxes); [done | done].
  - destruct (keep_splitting numColors pixels boxes) eqn:Hk; [| done].
    intros H. apply IH in H. simpl in H. done.
Qed.

(** A pass that changes nothing while the condition of the loop holds
    repeats for ever: no number of passes ends the loop. *)
Lemma split_loop_stuck numColors pixels boxes :
  keep_splitting numColors pixels boxes = true ->
  split_pass boxes = boxes ->
  forall fuel, split_loop fuel numColors pixels boxes = None.
Proof.
  intros Hcond Hpass fuel. induction fuel as [| fuel IH]; simpl; rewrite Hcond.
  - done.
  - by rewrite Hpass.
Qed.

Section ChannelFacts.
Variable ch : Pixel -> Z.

Lemma fold_max_spec box init :
  let m := fold_left (fun m pixel => Z.max m (ch pixel)) box init in
  init <= m /\ (forall p, p ∈ box -> ch p <= m) /\
  (m = init \/ exists p, p ∈ box /\ m = ch p).
Proof.
  revert init. induction box as [| q box IH]; intros init; simpl.
  - split; [lia |]. split; [| by left]. intros p Hp. by apply elem_of_nil in Hp.
  - destruct (IH (Z.max init (ch q))) as (H1 & H2 & H3).
    split; [lia |]. split.
    + intros p Hp. apply elem_of_cons in Hp as [-> | Hp]; [lia | by apply H2].
    + destruct H3 as [H3 | (p & Hp & H3)].
      * destruct (Z.max_spec init (ch q)) as [[_ Hm] | [_ Hm]].
        -- right. exists q. split; [apply list_elem_of_here | lia].
        -- left. lia.
      * right. exists p. split; [by apply list_elem_of_further | done].
Qed.

Lemma fold_min_spec box init :
  let m := fold_left (fun m pixel => Z.min m (ch pixel)) box init in
  m <= init /\ (forall p, p ∈ box -> m <= ch p) /\
  (m = init \/ exists p, p ∈ box /\ m = ch p).
Proof.
  revert init. induction box as [| q box IH]; intros init; simpl.
  - split; [lia |]. split; [| by left]. intros p Hp. by apply elem_of_nil in Hp.
  - destruct (IH (Z.min init (ch q))) as (H1 & H2 & H3).
    split; [lia |]. split.
    + intros p Hp. apply elem_of_cons in Hp as [-> | Hp]; [lia | by apply H2].
    + destruct H3 as [H3 | (p & Hp & H3)].
      * destruct (Z.min_spec init (ch q)) as [[_ Hm] | [_ Hm]].
        -- left. lia.
        -- right. exists q. split; [apply list_elem_of_here | lia].
      * right. exists p. split; [by apply list_elem_of_further | done].
Qed.

(** The largest and the smallest value of a channel in a box of pixels
    with values from 0 to 255. *)
Lemma channel_max_eq box p hi :
  p ∈ box -> ch p = hi -> 0 <= hi -> (forall q, q ∈ box -> ch q <= hi) ->
  channel_max ch box = hi.
Proof.
  intros Hp Hhi H0 Hall. unfold channel_max.
  destruct (fold_max_spec box 0) as (H1 & H2 & H3).
  specialize (H2 p Hp). destruct H3 as [H3 | (q & Hq & H3)].
  - lia.
  - specialize (Hall q Hq). lia.
Qed.

Lemma channel_min_eq box p lo :
  p ∈ box -> ch p = lo -> lo <= 255 -> (forall q, q ∈ box -> lo <= ch q) ->
  channel_min ch box = lo.
Proof.
  intros Hp Hlo H255 Hall. unfold channel_min.
  destruct (fold_min_spec box 255) as (H1 & H2 & H3).
  specialize (H2 p Hp). destruct H3 as [H3 | (q & Hq & H3)].
  - lia.
  - specialize (Hall q Hq). lia.
Qed.

Lemma channel_sum_from box init :
  fold_left (fun sum pixel => sum + ch pixel) box init = init + channel_sum ch box.
Proof.
  unfold channel_sum. revert init. induction box as [| q box IH]; intros init; simpl.
  - lia.
  - rewrite IH, (IH (0 + ch q)). lia.
Qed.

Lemma channel_sum_app box1 box2 :
  channel_sum ch (box1 ++ box2) = channel_sum ch box1 + channel_sum ch box2.
Proof. unfold channel_sum at 1. by rewrite fold_left_app, channel_sum_from. Qed.

Lemma channel_sum_replicate n p :
  channel_sum ch (replicate n p) = Z.of_nat n * ch p.
Proof.
  induction n as [| n IH]; [done |].
  change (replicate (S n) p) with ([p] ++ replicate n p).
  rewrite channel_sum_app, IH. unfold channel_sum. simpl. lia.
Qed.
End ChannelFacts.

(** A box of one colour is handed on as it is. *)
Lemma split_box_monochrome p n :
  0 <= pixel_r p <= 255 -> 0 <= pixel_g p <= 255 -> 0 <= pixel_b p <= 255 ->
  split_box (replicate (S n) p) = [replicate (S n) p].
Proof.
  intros Hr Hg Hb.
  assert (forall ch, 0 <= ch p <= 255 -> channel_range ch (replicate (S n) p) = 0) as Hrange.
  { intros ch Hch. unfold channel_range.
    rewrite (channel_max_eq ch _ p (ch p)), (channel_min_eq ch _ p (ch p)); try lia.
    - apply list_elem_of_here.
    - intros q Hq. apply elem_of_replicate_inv in Hq. subst. lia.
    - apply list_elem_of_here.
    - intros q Hq. apply elem_of_replicate_inv in Hq. subst. lia. }
  change (split_box (replicate (S n) p)) with (split_nonempty (replicate (S n) p)).
  unfold split_nonempty. by rewrite !Hrange.
Qed.

(** The loop does not end on a sample of two or more pixels of one colour
    when two or more colours are asked for. *)
Lemma medianCut_monochrome_general fuel p n numColors :
  0 <= pixel_r p <= 255 -> 0 <= pixel_g p <= 255 -> 0 <= pixel_b p <= 255 ->
  2 <= numColors ->
  medianCut fuel (replicate (S (S n)) p) numColors = None.
Proof.
  intros Hr Hg Hb Hk. unfold medianCut.
  rewrite (split_loop_stuck numColors _ [replicate (S (S n)) p]); [done | |].
  - unfold keep_splitting. rewrite length_replicate.
    apply andb_true_iff. split; [apply Z.ltb_lt; simpl; lia | done].
  - unfold split_pass.
    change ([replicate (S (S n)) p] ≫= split_box)
      with (split_box (replicate (S (S n)) p) ++ []).
    by rewrite split_box_monochrome.
Qed.

(** C4, at an input where the code parts from it: on two red pixels with
    two colours asked for the loop of [medianCut] has not ended after any
    number of passes. *)
Theorem medianCut_monochrome_never_returns :
  forall fuel, medianCut fuel [red; red] 2 = None.
Proof.
  intros fuel.
  apply (medianCut_monochrome_general fuel red 0 2); simpl; lia.
Qed.

(** *** A sample of red and blue pixels *)

Lemma split_box_nonempty box : box <> [] -> split_box box = split_nonempty box.
Proof. by destruct box. Qed.

Lemma box_color_nonempty box : box <> [] -> box_color box = Some (mean_color box).
Proof. by destruct box. Qed.

Lemma medianCut_nonempty fuel pixels numColors :
  pixels <> [] ->
  medianCut fuel pixels numColors
  = match split_loop fuel numColors pixels [pixels] with
    | Some boxes =>
        Some (js_sort (fun a b => Z.of_nat (color_count b) - Z.of_nat (color_count a))
                (omap box_color boxes))
    | None => None
    end.
Proof. by destruct pixels. Qed.

Lemma replicate_nonempty {A : Type} (n : nat) (x : A) : (0 < n)%nat -> replicate n x <> [].
Proof. destruct n; [lia | done]. Qed.

Lemma round_div_multiple k c : 0 < c -> round_div (c * k) c = k.
Proof.
  intros Hc. unfold round_div.
  replace (2 * (c * k) + c) with (c * (2 * k + 1)) by lia.
  replace (2 * c) with (c * 2) by lia.
  rewrite Z.div_mul_cancel_l by lia.
  replace (2 * k + 1) with (1 + k * 2) by lia. rewrite Z.div_add by lia.
  reflexivity.
Qed.

(** A list of red and blue pixels in the order of the blue channel is the
    red pixels followed by the blue ones. *)
Lemma sorted_red_blue l n m :
  (forall a b, before a b l -> pixel_b a <= pixel_b b) ->
  l ≡ₚ replicate n red ++ replicate m blue ->
  l = replicate n red ++ replicate m blue.
Proof.
  revert l. induction n as [| n IH]; intros l Hsorted Hperm.
  - simpl in *. symmetry. by apply replicate_Permutation.
  - destruct l as [| x l].
    { apply Permutation_length in Hperm. simpl in Hperm. lia. }
    assert (x = red) as ->.
    { assert (x ∈ replicate (S n) red ++ replicate m blue) as Hx
        by (rewrite <- Hperm; apply list_elem_of_here).
      apply elem_of_app in Hx as [Hx | Hx]; [by apply elem_of_replicate_inv in Hx |].
      apply elem_of_replicate_inv in Hx. subst x.
      assert (red ∈ blue :: l) as Hred
        by (rewrite Hperm; apply list_elem_of_here).
      apply elem_of_cons in Hred as [Hred | Hred]; [discriminate |].
      specialize (Hsorted blue red (before_here _ _ _ Hred)). simpl in Hsorted. lia. }
    simpl. f_equal. apply IH.
    + intros a b Hab. apply Hsorted. by apply before_later.
    + simpl in Hperm. by apply Permutation_cons_inv in Hperm.
Qed.

Section RedBlue.
Variable j : nat.
Variable pixels : list Pixel.
Hypothesis j_pos : (0 < j)%nat.
Hypothesis sample : pixels ≡ₚ replicate (8 * j) red ++ replicate (2 * j) blue.

Lemma sample_elem p : p ∈ pixels -> p = red \/ p = blue.
Proof.
  rewrite sample, elem_of_app.
  intros [H | H]; apply elem_of_replicate_inv in H; auto.
Qed.

Lemma sample_red : red ∈ pixels.
Proof.
  rewrite sample, elem_of_app. left. apply elem_of_replicate. split; [done | lia].
Qed.

Lemma sample_blue : blue ∈ pixels.
Proof.
  rewrite sample, elem_of_app. right. apply elem_of_replicate. split; [done | lia].
Qed.

Lemma sample_length : length pixels = (10 * j)%nat.
Proof. rewrite sample, length_app, !length_replicate. lia. Qed.

Lemma sample_nonempty : pixels <> [].
Proof. intros H. pose proof sample_length as Hl. rewrite H in Hl. simpl in Hl. lia. Qed.

Lemma sample_ranges :
  channel_range pixel_r pixels = 255 /\
  channel_range pixel_g pixels = 0 /\
  channel_range pixel_b pixels = 255.
Proof.
  unfold channel_range.
  rewrite (channel_max_eq pixel_r pixels red 255), (channel_min_eq pixel_r pixels blue 0),
    (channel_max_eq pixel_g pixels red 0), (channel_min_eq pixel_g pixels red 0),
    (channel_max_eq pixel_b pixels blue 255), (channel_min_eq pixel_b pixels red 0);
    try done; try apply sample_red; try apply sample_blue;
    intros q Hq; destruct (sample_elem q Hq) as [-> | ->]; simpl; lia.
Qed.

(** The one pass of the loop: the sample is sorted by its blue channel
    and cut in the middle, which falls among the red pixels. *)
Lemma sample_split :
  split_box pixels
  = [replicate (5 * j) red; replicate (3 * j) red ++ replicate (2 * j) blue].
Proof.
  rewrite split_box_nonempty by apply sample_nonempty.
  unfold split_nonempty.
  destruct sample_ranges as (-> & -> & ->).
  change (Z.max (Z.max 255 0) 255) with 255.
  change (255 =? 0) with false. change (0 =? 255) with false.
  change (255 =? 255) with true. cbv beta iota zeta.
  rewrite (sorted_red_blue (js_sort (by_key pixel_b) pixels) (8 * j) (2 * j)).
  - rewrite sample_length.
    replace (10 * j)%nat with (5 * j * 2)%nat by lia.
    rewrite Nat.div_mul by done.
    replace (8 * j)%nat with (5 * j + 3 * j)%nat by lia.
    rewrite replicate_add, <- app_assoc.
    rewrite take_app_length' by (by rewrite length_replicate).
    rewrite drop_app_length' by (by rewrite length_replicate).
    done.
  - apply js_sort_sorted. intros a b. unfold by_key. lia.
  - by rewrite js_sort_perm.
Qed.

Lemma sample_split_loop fuel :
  (0 < fuel)%nat ->
  split_loop fuel 2 pixels [pixels]
  = Some [replicate (5 * j) red; replicate (3 * j) red ++ replicate (2 * j) blue].
Proof.
  intros Hfuel. destruct fuel as [| fuel]; [lia |].
  assert (keep_splitting 2 pixels [pixels] = true) as Hfirst.
  { unfold keep_splitting. rewrite sample_length. simpl.
    apply Nat.ltb_lt. lia. }
  simpl. rewrite Hfirst. unfold split_pass.
  change ([pixels] ≫= split_box) with (split_box pixels ++ []).
  rewrite sample_split. simpl. by destruct fuel.
Qed.

Lemma mean_color_red : mean_color (replicate (5 * j) red) = mkColor red (5 * j).
Proof.
  unfold mean_color. rewrite !channel_sum_replicate, length_replicate. simpl.
  rewrite !round_div_multiple by lia. done.
Qed.

Lemma mean_color_mixed :
  mean_color (replicate (3 * j) red ++ replicate (2 * j) blue)
  = mkColor (mkPixel 153 0 102) (5 * j).
Proof.
  unfold mean_color.
  rewrite !channel_sum_app, !channel_sum_replicate, length_app, !length_replicate.
  simpl pixel_r. simpl pixel_g. simpl pixel_b.
  replace (3 * j + 2 * j)%nat with (5 * j)%nat by lia.
  f_equal. unfold round_div.
  assert (0 < Z.of_nat j) as Hj by lia.
  f_equal.
  - replace (2 * (Z.of_nat (3 * j) * 255 + Z.of_nat (2 * j) * 0) + Z.of_nat (5 * j))
      with (1535 * Z.of_nat j) by lia.
    replace (2 * Z.of_nat (5 * j)) with (10 * Z.of_nat j) by lia.
    by rewrite Z.div_mul_cancel_r by lia.
  - replace (2 * (Z.of_nat (3 * j) * 0 + Z.of_nat (2 * j) * 0) + Z.of_nat (5 * j))
      with (5 * Z.of_nat j) by lia.
    replace (2 * Z.of_nat (5 * j)) with (10 * Z.of_nat j) by lia.
    by rewrite Z.div_mul_cancel_r by lia.
  - replace (2 * (Z.of_nat (3 * j) * 0 + Z.of_nat (2 * j) * 255) + Z.of_nat (5 * j))
      with (1025 * Z.of_nat j) by lia.
    replace (2 * Z.of_nat (5 * j)) with (10 * Z.of_nat j) by lia.
    by rewrite Z.div_mul_cancel_r by lia.
Qed.

Lemma sample_medianCut fuel :
  (0 < fuel)%nat ->
  medianCut fuel pixels 2
  = Some [mkColor red (5 * j); mkColor (mkPixel 153 0 102) (5 * j)].
Proof.
  intros Hfuel. rewrite medianCut_nonempty by apply sample_nonempty.
  rewrite sample_split_loop by done.
  cbn [omap list_omap].
  rewrite !box_color_nonempty, mean_color_red, mean_color_mixed.
  - cbn [js_sort sort_insert color_count]. by rewrite Z.sub_diag.
  - intros H. apply (f_equal length) in H.
    rewrite length_app, !length_replicate in H. simpl in H. lia.
  - apply replicate_nonempty. lia.
Qed.
End RedBlue.

Lemma Zpos_of_nat n : (0 < n)%nat -> Z.pos (Pos.of_nat n) = Z.of_nat n.
Proof.
  intros Hn. rewrite <- (positive_nat_Z (Pos.of_nat n)).
  rewrite Nat2Pos.id by lia. reflexivity.
Qed.

Lemma confidence_half j :
  (0 < j)%nat -> Qmin (Z.of_nat (5 * j) # Pos.of_nat (10 * j)) 1 == 1 # 2.
Proof.
  intros Hj.
  rewrite Q.min_l.
  - unfold Qeq. simpl Qnum. simpl Qden. rewrite Zpos_of_nat by lia. lia.
  - unfold Qle. simpl Qnum. simpl Qden. rewrite Zpos_of_nat by lia. lia.
Qed.

(** C5, as amended. A sample of [10 * j] pixels, eight in ten pure red and
    two in ten pure blue in any arrangement, quantized to two colours,
    gives a palette of two entries. The first is pure red and its nearest
    name is the red of the lexicon; its confidence is one half, because
    the cut in the middle gives each box half of the pixels. *)
Theorem detectColors_red_blue (fuel j : nat) (pixels : list Pixel) :
  (0 < fuel)%nat ->
  (0 < j)%nat ->
  pixels ≡ₚ replicate (8 * j) red ++ replicate (2 * j) blue ->
  exists first second,
    detectColors fuel pixels 2 = Some [first; second] /\
    rgb first = red /\
    name first = Some name_do /\
    confidence first == 1 # 2 /\
    confidence second == 1 # 2.
Proof.
  intros Hfuel Hj Hsample. unfold detectColors.
  rewrite (sample_medianCut j pixels Hj Hsample fuel Hfuel).
  rewrite (sample_length j pixels Hj Hsample).
  eexists _, _. split; [reflexivity |].
  cbn [rgb name confidence color_rgb color_count].
  split; [reflexivity |]. split; [vm_compute; reflexivity |].
  split; by apply confidence_half.
Qed.

Lemma detectColors_red_blue_witness :
  (0 < 3)%nat /\ (0 < 1)%nat /\
  [red; blue; red; red; red; red; blue; red; red; red]
  ≡ₚ replicate (8 * 1) red ++ replicate (2 * 1) blue /\
  exists first second,
    detectColors 3 [red; blue; red; red; red; red; blue; red; red; red] 2
    = Some [first; second] /\
    rgb first = red /\
    name first = Some name_do /\
    confidence first == 1 # 2 /\
    confidence second == 1 # 2.
Proof.
  assert ([red; blue; red; red; red; red; blue; red; red; red]
          ≡ₚ replicate (8 * 1) red ++ replicate (2 * 1) blue) as Hperm.
  { simpl.
    apply perm_skip.
    apply (Permutation_cons_app [red; red; red; red; red; red; red] [blue] blue).
    do 4 apply perm_skip.
    apply (Permutation_cons_app [red; red; red] [] blue).
    reflexivity. }
  split; [lia |]. split; [lia |]. split; [exact Hperm |].
  apply (detectColors_red_blue 3 1 _); [lia | lia | exact Hperm].
Defined.

(** On ten pixels, eight red and two blue, the first entry of the palette
    is red with confidence one half: the confidence is not near 0.8. *)
Lemma red_blue_confidence_is_half :
  exists first second,
    detectColors 3 (replicate 8 red ++ replicate 2 blue) 2 = Some [first; second] /\
    name first = Some name_do /\
    confidence first == 1 # 2 /\
    ~ (7 # 10 <= confidence first)%Q.
Proof.
  eexists _, _. split; [vm_compute; reflexivity |].
  cbn [name confidence]. split; [reflexivity |].
  split; [reflexivity |]. unfold Qle. simpl. lia.
Qed.

(** What the palette is for other sizes of the sample: with fifteen
    pixels the heavier box is the mixed one, and the first entry is not
    red. *)
Example detectColors_fifteen :
  (fun res => (name res, rgb res)) <$>
    default [] (detectColors 3 (replicate 12 red ++ replicate 3 blue) 2)
  = [(Some [116; 237; 109]%N, mkPixel 159 0 96); (Some name_do, red)].
Proof. vm_compute. reflexivity. Qed.

(** ** Thumbnails *)

Lemma filter_fmap_snd {A B : Type} (P : B -> Prop) `{!forall x, Decision (P x)}
    (l : list (A * B)) :
  filter P l.*2 = (filter (fun e => P e.2) l).*2.
Proof.
  induction l as [| [a b] l IH]; [done |].
  csimpl. rewrite !filter_cons. simpl.
  destruct (decide (P b)); csimpl; by rewrite IH.
Qed.

Lemma NoDup_fmap_eq {A B : Type} (f : A -> B) (l : list A) x y :
  NoDup (f <$> l) -> x ∈ l -> y ∈ l -> f x = f y -> x = y.
Proof.
  induction l as [| z l IH]; csimpl; intros Hnd Hx Hy Hf.
  - by apply elem_of_nil in Hx.
  - apply NoDup_cons in Hnd as [Hz Hnd].
    apply elem_of_cons in Hx as [-> | Hx]; apply elem_of_cons in Hy as [-> | Hy].
    + done.
    + exfalso. apply Hz. rewrite Hf. by apply list_elem_of_fmap_2.
    + exfalso. apply Hz. rewrite <- Hf. by apply list_elem_of_fmap_2.
    + by apply IH.
Qed.

Lemma thumbsOfVideo_perm (videoId : jsstring) (m : gmap jsstring Thumb) :
  thumbsOfVideo videoId m ≡ₚ (map_to_list (thumbs_of videoId m)).*2.
Proof.
  unfold thumbsOfVideo, thumbs_of. rewrite filter_fmap_snd.
  apply fmap_Permutation. apply NoDup_Permutation.
  - apply NoDup_filter. rewrite entries_perm. apply NoDup_map_to_list.
  - apply NoDup_map_to_list.
  - intros [k t]. rewrite list_elem_of_filter, elem_of_entries, elem_of_map_to_list.
    rewrite map_lookup_filter_Some. simpl. tauto.
Qed.

Lemma getThumbnailsForVideo_perm videoId db :
  getThumbnailsForVideo videoId db
  ≡ₚ (map_to_list (thumbs_of videoId (thumbnails db))).*2.
Proof.
  unfold getThumbnailsForVideo. by rewrite js_sort_perm, thumbsOfVideo_perm.
Qed.

Lemma thumbs_of_empty (videoId : jsstring) (m : gmap jsstring Thumb) :
  thumbsOfVideo videoId m = [] -> thumbs_of videoId m = ∅.
Proof.
  intros He. pose proof (thumbsOfVideo_perm videoId m) as Hp. rewrite He in Hp.
  apply Permutation_nil_l in Hp. symmetry in Hp. apply fmap_nil_inv in Hp.
  by apply map_to_list_empty_iff.
Qed.

Section ThumbMap.
Variable l : list Thumb.
Hypothesis keys_nodup : NoDup (thumb_key <$> l).

Lemma thumb_map_keys : ((fun t => (thumb_key t, t)) <$> l).*1 = thumb_key <$> l.
Proof. rewrite <- list_fmap_compose. done. Qed.

Lemma thumb_map_lookup k t :
  thumb_map l !! k = Some t <-> t ∈ l /\ thumb_key t = k.
Proof.
  unfold thumb_map. rewrite <- elem_of_list_to_map by (by rewrite thumb_map_keys).
  rewrite list_elem_of_fmap. split.
  - intros (t' & Heq & Hin). injection Heq as -> ->. done.
  - intros [Hin <-]. by exists t.
Qed.

Lemma thumb_map_records : (map_to_list (thumb_map l)).*2 ≡ₚ l.
Proof.
  unfold thumb_map. rewrite map_to_list_to_map by (by rewrite thumb_map_keys).
  rewrite <- list_fmap_compose. simpl. by rewrite list_fmap_id.
Qed.

Lemma thumb_map_size : size (thumb_map l) = length l.
Proof.
  rewrite <- length_map_to_list, <- (length_fmap snd), thumb_map_records. done.
Qed.
End ThumbMap.

Lemma MAX_THUMBS_PER_VIDEO_pos : (0 < MAX_THUMBS_PER_VIDEO)%nat.
Proof. unfold MAX_THUMBS_PER_VIDEO. lia. Qed.

Section SaveThumbnailSteps.
Variable thumbData : Thumb.
Variable db : DB.
Variable l : list Thumb.
Hypothesis stored :
  thumbs_of (thumb_videoId thumbData) (thumbnails db) = thumb_map l.
Hypothesis keys_nodup : NoDup (thumb_key <$> l).

Lemma existing_perm :
  thumbsOfVideo (thumb_videoId thumbData) (thumbnails db) ≡ₚ l.
Proof. by rewrite thumbsOfVideo_perm, stored, thumb_map_records. Qed.

(** Below the limit the thumbnail is added and nothing is deleted. *)
Lemma saveThumbnail_below_cap :
  (length l < MAX_THUMBS_PER_VIDEO)%nat ->
  thumbs_of (thumb_videoId thumbData) (thumbnails (saveThumbnail thumbData db))
  = thumb_map (thumbData :: l).
Proof.
  intros Hlen. unfold saveThumbnail.
  rewrite (proj2 (Nat.leb_gt _ _)) by (by rewrite existing_perm).
  cbn [thumbnails set_thumbnails]. unfold thumbs_of.
  rewrite map_filter_insert_True by done.
  fold (thumbs_of (thumb_videoId thumbData) (thumbnails db)). by rewrite stored.
Qed.

(** At the limit the oldest thumbnail of the video goes, then the new
    one is added. *)
Lemma saveThumbnail_at_cap :
  length l = MAX_THUMBS_PER_VIDEO ->
  exists oldest,
    oldest ∈ l /\
    (forall x, x ∈ l -> thumb_ts oldest <= thumb_ts x) /\
    thumbs_of (thumb_videoId thumbData) (thumbnails (saveThumbnail thumbData db))
    = <[thumb_key thumbData := thumbData]> (delete (thumb_key oldest) (thumb_map l)).
Proof.
  intros Hlen. unfold saveThumbnail.
  set (existing := thumbsOfVideo (thumb_videoId thumbData) (thumbnails db)).
  assert (length existing = MAX_THUMBS_PER_VIDEO) as Hex
    by (unfold existing; by rewrite existing_perm).
  rewrite Hex, Nat.leb_refl, Nat.sub_diag.
  assert (js_sort (by_key thumb_ts) existing ≡ₚ l) as Hperm
    by (rewrite js_sort_perm; apply existing_perm).
  pose proof (js_sort_sorted (by_key thumb_ts) thumb_ts) as Hsorted.
  specialize (Hsorted ltac:(intros a b; unfold by_key; lia) existing).
  destruct (js_sort (by_key thumb_ts) existing) as [| oldest rest].
  { apply Permutation_length in Hperm. simpl in Hperm.
    pose proof MAX_THUMBS_PER_VIDEO_pos. lia. }
  exists oldest. split; [| split].
  - rewrite <- Hperm. apply list_elem_of_here.
  - intros x Hx. rewrite <- Hperm in Hx.
    apply elem_of_cons in Hx as [-> | Hx]; [lia |].
    apply Hsorted. by apply before_here.
  - replace (take (0 + 1) (oldest :: rest)) with [oldest] by done.
    cbn [fmap list_fmap delete_keys fold_left thumbnails set_thumbnails].
    unfold thumbs_of.
    rewrite map_filter_insert_True by done. rewrite map_filter_delete.
    fold (thumbs_of (thumb_videoId thumbData) (thumbnails db)). by rewrite stored.
Qed.
End SaveThumbnailSteps.

(** The first thumbnails of a video, up to the limit, are all kept. *)
Lemma saveThumbnails_below_cap (videoId : jsstring) (thumbs : list Thumb) (db : DB) :
  thumbs_of videoId (thumbnails db) = ∅ ->
  (length thumbs <= MAX_THUMBS_PER_VIDEO)%nat ->
  Forall (fun t => thumb_videoId t = videoId) thumbs ->
  NoDup (thumb_key <$> thumbs) ->
  thumbs_of videoId (thumbnails (saveThumbnails thumbs db)) = thumb_map (reverse thumbs).
Proof.
  intros Hempty. induction thumbs as [| t thumbs IH] using rev_ind;
    intros Hlen Hvideo Hkeys.
  - done.
  - rewrite length_app in Hlen. simpl in Hlen.
    apply Forall_app in Hvideo as [Hvideo Ht].
    rewrite Forall_singleton in Ht.
    rewrite fmap_app in Hkeys. apply NoDup_app in Hkeys as (Hkeys & _ & _).
    unfold saveThumbnails. rewrite fold_left_app. cbn [fold_left].
    fold (saveThumbnails thumbs db). rewrite reverse_snoc, <- Ht.
    apply saveThumbnail_below_cap.
    + rewrite Ht. apply IH; [lia | done | done].
    + by rewrite fmap_reverse, reverse_Permutation.
    + rewrite length_reverse. lia.
Qed.

(** What is stored for a video that had no thumbnail after
    [MAX_THUMBS_PER_VIDEO] thumbnails and one more were saved: the last
    one, and the earlier ones but the oldest of them. *)
Lemma saveThumbnail_cap_stores (videoId : jsstring) (thumbs : list Thumb)
    (latest : Thumb) (db : DB) :
  thumbsOfVideo videoId (thumbnails db) = [] ->
  length thumbs = MAX_THUMBS_PER_VIDEO ->
  Forall (fun t => thumb_videoId t = videoId) (thumbs ++ [latest]) ->
  NoDup (thumb_key <$> thumbs ++ [latest]) ->
  let remaining :=
    getThumbnailsForVideo videoId (saveThumbnails (thumbs ++ [latest]) db) in
  exists oldest,
    oldest ∈ thumbs /\
    (forall x, x ∈ thumbs -> thumb_ts oldest <= thumb_ts x) /\
    length remaining = 500%nat /\
    (forall x, x ∈ remaining <->
               x = latest \/ (x ∈ thumbs /\ thumb_key x <> thumb_key oldest)).
Proof.
  intros Hnone Hlen Hvideo Hkeys remaining.
  apply Forall_app in Hvideo as [Hvideo1 Hlatest].
  rewrite Forall_singleton in Hlatest.
  rewrite fmap_app in Hkeys.
  apply NoDup_app in Hkeys as (Hkeys1 & Hfresh & _).
  assert (NoDup (thumb_key <$> reverse thumbs)) as Hkeysr
    by (by rewrite fmap_reverse, reverse_Permutation).
  (* the store of the video after the first 500 and after the last one *)
  pose proof (saveThumbnails_below_cap videoId thumbs db
                (thumbs_of_empty _ _ Hnone) ltac:(lia) Hvideo1 Hkeys1) as Hfirst.
  rewrite <- Hlatest in Hfirst.
  destruct (saveThumbnail_at_cap latest (saveThumbnails thumbs db) (reverse thumbs)
              Hfirst Hkeysr ltac:(by rewrite length_reverse))
    as (oldest & Hold & Hmin & Hstore).
  rewrite Hlatest in Hstore.
  assert (saveThumbnail latest (saveThumbnails thumbs db)
          = saveThumbnails (thumbs ++ [latest]) db) as Hfold
    by (unfold saveThumbnails; by rewrite fold_left_app).
  rewrite Hfold in Hstore.
  rewrite elem_of_reverse in Hold.
  assert (forall x, x ∈ thumbs -> thumb_key x <> thumb_key latest) as Hfresh'.
  { intros x Hx Heq. apply (Hfresh (thumb_key x)).
    - by apply list_elem_of_fmap_2.
    - rewrite Heq. apply list_elem_of_here. }
  exists oldest. split; [done |]. split.
  { intros x Hx. apply Hmin. by rewrite elem_of_reverse. }
  split.
  - unfold remaining.
    rewrite getThumbnailsForVideo_perm, length_fmap, length_map_to_list, Hstore.
    rewrite map_size_insert_None.
    + assert (thumb_map (reverse thumbs) !! thumb_key oldest = Some oldest) as Hlook.
      { apply thumb_map_lookup; [done |]. split; [by rewrite elem_of_reverse | done]. }
      rewrite map_size_delete, Hlook, thumb_map_size by done.
      rewrite length_reverse, Hlen. reflexivity.
    + destruct (decide (thumb_key latest = thumb_key oldest)) as [Heq | Hne].
      * rewrite Heq. apply lookup_delete_eq.
      * rewrite lookup_delete_ne by (by apply not_eq_sym).
        destruct (thumb_map (reverse thumbs) !! thumb_key latest) as [t |] eqn:Ht;
          [| done].
        apply thumb_map_lookup in Ht as [Ht Hk]; [| done].
        rewrite elem_of_reverse in Ht. by destruct (Hfresh' t Ht).
  - intros x. unfold remaining. rewrite getThumbnailsForVideo_perm, Hstore.
    rewrite list_elem_of_fmap. split.
    + intros ([k t] & -> & Hin). simpl. apply elem_of_map_to_list in Hin.
      destruct (decide (k = thumb_key latest)) as [-> | Hne].
      * rewrite lookup_insert_eq in Hin. left. by injection Hin.
      * rewrite lookup_insert_ne in Hin by done.
        destruct (decide (k = thumb_key oldest)) as [-> | Hne'].
        -- by rewrite lookup_delete_eq in Hin.
        -- rewrite lookup_delete_ne in Hin by done.
           apply thumb_map_lookup in Hin as [Hin <-]; [| done].
           right. split; [by rewrite elem_of_reverse in Hin | done].
    + intros [-> | [Hx Hne]].
      * exists (thumb_key latest, latest). split; [done |].
        apply elem_of_map_to_list, lookup_insert_eq.
      * exists (thumb_key x, x). split; [done |].
        apply elem_of_map_to_list.
        rewrite lookup_insert_ne by (apply not_eq_sym; by apply Hfresh').
        rewrite lookup_delete_ne by (by apply not_eq_sym).
        apply thumb_map_lookup; [done |]. split; [by rewrite elem_of_reverse | done].
Qed.

(** C6, as amended. A video has no thumbnail; [MAX_THUMBS_PER_VIDEO]
    (500) thumbnails are saved for it and then one more, with keys and
    timestamps that differ from one another, and the one saved last is
    not the oldest of them. Then 500 thumbnails of the video are stored,
    all of them from the 501 saved, and the one that was dropped is older
    than every one that was kept. *)
Theorem saveThumbnail_cap (videoId : jsstring) (thumbs : list Thumb)
    (latest : Thumb) (db : DB) :
  thumbsOfVideo videoId (thumbnails db) = [] ->
  length thumbs = MAX_THUMBS_PER_VIDEO ->
  Forall (fun t => thumb_videoId t = videoId) (thumbs ++ [latest]) ->
  NoDup (thumb_key <$> thumbs ++ [latest]) ->
  NoDup (thumb_ts <$> thumbs ++ [latest]) ->
  Exists (fun t => thumb_ts t < thumb_ts latest) thumbs ->
  let remaining :=
    getThumbnailsForVideo videoId (saveThumbnails (thumbs ++ [latest]) db) in
  length remaining = 500%nat /\
  (forall x, x ∈ remaining -> x ∈ thumbs ++ [latest]) /\
  (forall x y,
      x ∈ thumbs ++ [latest] -> x ∉ remaining -> y ∈ remaining ->
      thumb_ts x < thumb_ts y).
Proof.
  intros Hnone Hlen Hvideo Hkeys Hts Hnewer remaining.
  destruct (saveThumbnail_cap_stores videoId thumbs latest db Hnone Hlen Hvideo Hkeys)
    as (oldest & Hold & Hmin & Hsize & Hmem).
  fold remaining in Hsize, Hmem.
  rewrite fmap_app in Hkeys. apply NoDup_app in Hkeys as (Hkeys1 & _ & _).
  split; [done |]. split.
  - intros x Hx. apply Hmem in Hx as [-> | [Hx _]]; apply elem_of_app.
    + right. apply list_elem_of_here.
    + by left.
  - intros x y Hx Hdropped Hy.
    assert (x = oldest) as ->.
    { apply elem_of_app in Hx as [Hx | Hx].
      - destruct (decide (thumb_key x = thumb_key oldest)) as [Heq | Hne].
        + by apply (NoDup_fmap_eq thumb_key thumbs).
        + destruct Hdropped. apply Hmem. right. done.
      - apply list_elem_of_singleton in Hx. subst x.
        destruct Hdropped. apply Hmem. by left. }
    apply Hmem in Hy as [-> | [Hy Hne]].
    + apply Exists_exists in Hnewer as (t & Ht & Hlt).
      specialize (Hmin t Ht). lia.
    + specialize (Hmin y Hy).
      assert (thumb_ts oldest <> thumb_ts y); [| lia].
      intros Heq. apply Hne. f_equal. symmetry.
      apply (NoDup_fmap_eq thumb_ts (thumbs ++ [latest]));
        [done | apply elem_of_app; by left | apply elem_of_app; by left | done].
Qed.

(** ** The thumbnails of the examples *)

Lemma js_inj s1 s2 : js s1 = js s2 -> s1 = s2.
Proof.
  revert s2. induction s1 as [| c1 s1 IH]; intros [| c2 s2] H;
    try discriminate H; [reflexivity |].
  cbn [js] in H. injection H as Hc Hs.
  f_equal; [| exact (IH _ Hs)].
  rewrite <- (ascii_N_embedding c1), <- (ascii_N_embedding c2). by rewrite Hc.
Qed.

Lemma append_inj (prefix s1 s2 : string) :
  String.append prefix s1 = String.append prefix s2 -> s1 = s2.
Proof.
  induction prefix as [| c prefix IH]; cbn [String.append]; intros H; [exact H |].
  injection H as H. exact (IH H).
Qed.

Lemma thumbNo_key_inj z1 z2 :
  0 <= z1 -> 0 <= z2 ->
  thumb_key (Demo.thumbNo z1) = thumb_key (Demo.thumbNo z2) -> z1 = z2.
Proof.
  intros H1 H2 Hkey. unfold Demo.thumbNo, Demo.thumbAt in Hkey.
  cbn [thumb_key] in Hkey.
  apply js_inj, append_inj, pretty_N_inj in Hkey. lia.
Qed.

Lemma thumbNo_keys_NoDup (zs : list Z) :
  NoDup zs -> Forall (fun z => 0 <= z) zs -> NoDup (thumb_key <$> (Demo.thumbNo <$> zs)).
Proof.
  intros Hnd Hpos. rewrite <- list_fmap_compose.
  apply NoDup_fmap_2_strong; [| exact Hnd].
  intros z1 z2 Hz1 Hz2 Hkey. rewrite Forall_forall in Hpos.
  exact (thumbNo_key_inj z1 z2 (Hpos z1 Hz1) (Hpos z2 Hz2) Hkey).
Qed.

Lemma thumbNo_ts (zs : list Z) : thumb_ts <$> (Demo.thumbNo <$> zs) = zs.
Proof.
  rewrite <- list_fmap_compose. rewrite <- (list_fmap_id zs) at 2.
  apply list_fmap_ext. intros i z _. reflexivity.
Qed.

Lemma thumbNo_video (zs : list Z) :
  Forall (fun t => thumb_videoId t = js "A") (Demo.thumbNo <$> zs).
Proof. apply Forall_fmap, Forall_forall. intros z _. reflexivity. Qed.

Lemma first500_length : length Demo.first500 = MAX_THUMBS_PER_VIDEO.
Proof. unfold Demo.first500. rewrite length_fmap, length_seqZ. reflexivity. Qed.

(** The timestamps of the 500 thumbnails followed by one more. *)
Lemma first500_and (z : Z) :
  Demo.first500 ++ [Demo.thumbNo z]
  = Demo.thumbNo <$> (seqZ 1700000000001 500 ++ [z]).
Proof. unfold Demo.first500. rewrite fmap_app. reflexivity. Qed.

Lemma first500_and_NoDup (z : Z) :
  z < 1700000000001 \/ 1700000000500 < z ->
  NoDup (seqZ 1700000000001 500 ++ [z]).
Proof.
  intros Hz. apply NoDup_app. split; [apply NoDup_seqZ |].
  split; [| apply NoDup_singleton].
  intros x Hx Hx'. apply list_elem_of_singleton in Hx'. subst x.
  apply elem_of_seqZ in Hx. lia.
Qed.

Lemma first500_and_pos (z : Z) :
  0 <= z -> Forall (fun z => 0 <= z) (seqZ 1700000000001 500 ++ [z]).
Proof.
  intros Hz. apply Forall_app. split.
  - apply Forall_forall. intros x Hx. apply elem_of_seqZ in Hx. lia.
  - apply Forall_singleton. exact Hz.
Qed.

Lemma saveThumbnail_cap_witness :
  thumbsOfVideo (js "A") (thumbnails Demo.db) = [] /\
  length Demo.first500 = MAX_THUMBS_PER_VIDEO /\
  Forall (fun t => thumb_videoId t = js "A") (Demo.first500 ++ [Demo.newest]) /\
  NoDup (thumb_key <$> Demo.first500 ++ [Demo.newest]) /\
  NoDup (thumb_ts <$> Demo.first500 ++ [Demo.newest]) /\
  Exists (fun t => thumb_ts t < thumb_ts Demo.newest) Demo.first500 /\
  let remaining :=
    getThumbnailsForVideo (js "A")
      (saveThumbnails (Demo.first500 ++ [Demo.newest]) Demo.db) in
  length remaining = 500%nat /\
  (forall x, x ∈ remaining -> x ∈ Demo.first500 ++ [Demo.newest]) /\
  (forall x y,
      x ∈ Demo.first500 ++ [Demo.newest] -> x ∉ remaining -> y ∈ remaining ->
      thumb_ts x < thumb_ts y).
Proof.
  assert (thumbsOfVideo (js "A") (thumbnails Demo.db) = []) as H1
    by (vm_compute; reflexivity).
  pose proof first500_length as H2.
  assert (Forall (fun t => thumb_videoId t = js "A") (Demo.first500 ++ [Demo.newest]))
    as H3.
  { unfold Demo.newest. rewrite first500_and. apply thumbNo_video. }
  assert (NoDup (thumb_key <$> Demo.first500 ++ [Demo.newest])) as H4.
  { unfold Demo.newest. rewrite first500_and. apply thumbNo_keys_NoDup.
    - apply first500_and_NoDup. lia.
    - apply first500_and_pos. lia. }
  assert (NoDup (thumb_ts <$> Demo.first500 ++ [Demo.newest])) as H5.
  { unfold Demo.newest. rewrite first500_and, thumbNo_ts.
    apply first500_and_NoDup. lia. }
  assert (Exists (fun t => thumb_ts t < thumb_ts Demo.newest) Demo.first500) as H6.
  { apply Exists_exists. exists (Demo.thumbNo 1700000000001). split.
    - unfold Demo.first500. apply list_elem_of_fmap_2, elem_of_seqZ. lia.
    - reflexivity. }
  split; [exact H1 |]. split; [exact H2 |]. split; [exact H3 |].
  split; [exact H4 |]. split; [exact H5 |]. split; [exact H6 |].
  exact (saveThumbnail_cap (js "A") Demo.first500 Demo.newest Demo.db
           H1 H2 H3 H4 H5 H6).
Defined.

(** 500 thumbnails are saved and then one that is older than all of them.
    The 500 that remain include the one saved last, the oldest of the 501,
    and not the oldest of the first 500, which is more recent. *)
Lemma cap_keeps_stale_thumbnail :
  length (Demo.first500 ++ [Demo.stale]) = 501%nat /\
  Forall (fun t => thumb_videoId t = js "A") (Demo.first500 ++ [Demo.stale]) /\
  NoDup (thumb_key <$> Demo.first500 ++ [Demo.stale]) /\
  NoDup (thumb_ts <$> Demo.first500 ++ [Demo.stale]) /\
  let remaining :=
    getThumbnailsForVideo (js "A")
      (saveThumbnails (Demo.first500 ++ [Demo.stale]) emptyDB) in
  length remaining = 500%nat /\
  Demo.stale ∈ remaining /\
  Demo.thumbNo 1700000000001 ∈ Demo.first500 ++ [Demo.stale] /\
  (Demo.thumbNo 1700000000001 ∉ remaining) /\
  thumb_ts Demo.stale < thumb_ts (Demo.thumbNo 1700000000001).
Proof.
  assert (thumbsOfVideo (js "A") (thumbnails emptyDB) = []) as H1
    by (vm_compute; reflexivity).
  pose proof first500_length as H2.
  assert (Forall (fun t => thumb_videoId t = js "A") (Demo.first500 ++ [Demo.stale]))
    as H3.
  { unfold Demo.stale. rewrite first500_and. apply thumbNo_video. }
  assert (NoDup (thumb_key <$> Demo.first500 ++ [Demo.stale])) as H4.
  { unfold Demo.stale. rewrite first500_and. apply thumbNo_keys_NoDup.
    - apply first500_and_NoDup. lia.
    - apply first500_and_pos. lia. }
  assert (NoDup (thumb_ts <$> Demo.first500 ++ [Demo.stale])) as H5.
  { unfold Demo.stale. rewrite first500_and, thumbNo_ts.
    apply first500_and_NoDup. lia. }
  assert (Demo.thumbNo 1700000000001 ∈ Demo.first500) as Hin.
  { unfold Demo.first500. apply list_elem_of_fmap_2, elem_of_seqZ. lia. }
  split; [rewrite length_app, H2; reflexivity |].
  split; [exact H3 |]. split; [exact H4 |]. split; [exact H5 |].
  intros remaining.
  destruct (saveThumbnail_cap_stores (js "A") Demo.first500 Demo.stale emptyDB
              H1 H2 H3 H4) as (oldest & Hold & Hmin & Hsize & Hmem).
  fold remaining in Hsize, Hmem.
  assert (oldest = Demo.thumbNo 1700000000001) as ->.
  { specialize (Hmin _ Hin). unfold Demo.first500 in Hold.
    apply list_elem_of_fmap in Hold as (z & -> & Hz). apply elem_of_seqZ in Hz.
    change (thumb_ts (Demo.thumbNo z)) with z in Hmin.
    change (thumb_ts (Demo.thumbNo 1700000000001)) with 1700000000001 in Hmin.
    f_equal. lia. }
  split; [exact Hsize |].
  split; [apply Hmem; left; reflexivity |].
  split; [apply elem_of_app; left; exact Hin |].
  split; [| reflexivity].
  intros Hkept. apply Hmem in Hkept as [Heq | [_ Hne]].
  - apply (f_equal thumb_ts) in Heq. discriminate Heq.
  - apply Hne. reflexivity.
Qed.

(** ** Further properties of the code *)

(** ** Tokens *)

Lemma elem_of_rev {A : Type} (x : A) (l : list A) : x ∈ rev l <-> x ∈ l.
Proof. rewrite !list_elem_of_In. symmetry. apply in_rev. Qed.

Lemma split_ws_go_pieces (R : N -> Prop) in_ws acc s piece :
  (forall c, c ∈ acc -> R c) ->
  (forall c, c ∈ s -> is_js_whitespace c = false -> R c) ->
  piece ∈ split_ws_go in_ws acc s ->
  forall c, c ∈ piece -> R c.
Proof.
  revert in_ws acc. induction s as [| d s IH]; intros in_ws acc Hacc Hs Hpiece c Hc.
  - cbn [split_ws_go] in Hpiece. apply list_elem_of_singleton in Hpiece. subst piece.
    apply Hacc. by apply elem_of_rev.
  - cbn [split_ws_go] in Hpiece.
    assert (forall c, c ∈ s -> is_js_whitespace c = false -> R c) as Hs'
      by (intros c' Hc'; apply Hs; by apply list_elem_of_further).
    destruct (is_js_whitespace d) eqn:Hd.
    + destruct in_ws.
      * by apply (IH true acc Hacc Hs' Hpiece).
      * apply elem_of_cons in Hpiece as [-> | Hpiece].
        -- apply Hacc. by apply elem_of_rev.
        -- apply (IH true [] ltac:(intros c' Hc'; by apply elem_of_nil in Hc') Hs' Hpiece c Hc).
    + apply (IH false (d :: acc)); [| done | done | done].
      intros c' Hc'. apply elem_of_cons in Hc' as [-> | Hc'].
      * apply Hs; [apply list_elem_of_here | done].
      * by apply Hacc.
Qed.

Lemma elem_of_token_fold (l acc : list jsstring) t :
  t ∈ fold_left
        (fun tokens token =>
           if (2 <=? length token)%nat then set_add tokens token else tokens) l acc ->
  t ∈ acc \/ (t ∈ l /\ (2 <= length t)%nat).
Proof.
  revert acc. induction l as [| tok l IH]; intros acc; cbn [fold_left]; [by left |].
  intros H. apply IH in H as [H | [H Hlen]].
  - destruct (2 <=? length tok)%nat eqn:Hl; [| by left].
    apply elem_of_set_add in H as [H | ->]; [by left |].
    right. split; [apply list_elem_of_here | by apply Nat.leb_le].
  - right. split; [by apply list_elem_of_further | done].
Qed.

Lemma token_fold_elem (l acc : list jsstring) t :
  t ∈ acc \/ (t ∈ l /\ (2 <= length t)%nat) ->
  t ∈ fold_left
        (fun tokens token =>
           if (2 <=? length token)%nat then set_add tokens token else tokens) l acc.
Proof.
  revert acc. induction l as [| tok l IH]; intros acc; cbn [fold_left].
  - intros [H | [H _]]; [done | by apply elem_of_nil in H].
  - intros [H | [H Hlen]]; apply IH.
    + left. destruct (2 <=? length tok)%nat; [| done].
      apply elem_of_set_add. by left.
    + apply elem_of_cons in H as [-> | H].
      * left. rewrite (proj2 (Nat.leb_le _ _) Hlen). apply elem_of_set_add. by right.
      * right. done.
Qed.

Section TokenShape.
Variable toLowerCase : jsstring -> jsstring.
Variable normalizeNFD : jsstring -> jsstring.

Local Abbreviation tokensOf := (extractTokens toLowerCase normalizeNFD).

(** The tokens of a text are the pieces of [normalizeText] with two code
    units or more. *)
Lemma elem_of_extractTokens text token :
  token ∈ tokensOf text <->
  token ∈ normalizeText toLowerCase normalizeNFD text /\ (2 <= length token)%nat.
Proof.
  unfold extractTokens. split.
  - intros H. apply elem_of_token_fold in H as [H | H]; [by apply elem_of_nil in H | done].
  - intros H. apply token_fold_elem. by right.
Qed.

(** X1. A token has two code units or more, and none of them is white
    space or a combining mark, whatever the platform functions do. *)
Theorem extractTokens_shape text token :
  token ∈ tokensOf text ->
  (2 <= length token)%nat /\
  forall c, c ∈ token -> is_js_whitespace c = false /\ is_combining_mark c = false.
Proof.
  intros H. apply elem_of_extractTokens in H as [H Hlen]. split; [done |].
  unfold normalizeText in H. destruct text as [| c0 text]; [by apply elem_of_nil in H |].
  apply list_elem_of_In, filter_In in H as [H _]. apply list_elem_of_In in H.
  unfold split_ws in H. intros c Hc. split.
  - revert c Hc.
    eapply (split_ws_go_pieces (fun c => is_js_whitespace c = false)); [| | exact H].
    + intros c Hc. by apply elem_of_nil in Hc.
    + done.
  - revert c Hc.
    eapply (split_ws_go_pieces (fun c => is_combining_mark c = false)); [| | exact H].
    + intros c Hc. by apply elem_of_nil in Hc.
    + intros c Hc _. apply list_elem_of_In, filter_In in Hc as [_ Hc].
      by apply negb_true_iff in Hc.
Qed.
End TokenShape.

Lemma extractTokens_shape_witness :
  js "mau" ∈ extractTokens Demo.lower Demo.nfd Demo.accented /\
  (2 <= length (js "mau"))%nat /\
  forall c, c ∈ js "mau" -> is_js_whitespace c = false /\ is_combining_mark c = false.
Proof.
  assert (js "mau" ∈ extractTokens Demo.lower Demo.nfd Demo.accented) as H
    by (refine (bool_decide_unpack _ _); vm_compute; exact I).
  split; [exact H |].
  exact (extractTokens_shape Demo.lower Demo.nfd Demo.accented (js "mau") H).
Defined.

(** ** Posting lists under [updateInvertedIndex] *)

Lemma index_token_lookup (videoId token t : jsstring)
    (index : gmap jsstring (list jsstring)) :
  default [] (index_token videoId index token !! t)
  = if decide (t = token /\ videoId ∉ default [] (index !! t))
    then default [] (index !! t) ++ [videoId]
    else default [] (index !! t).
Proof.
  unfold index_token.
  destruct (decide (t = token)) as [-> | Hne].
  - destruct (index !! token) as [ids |] eqn:He; simpl.
    + destruct (decide (videoId ∈ ids)) as [Hin | Hnin].
      * rewrite He. simpl. rewrite decide_False by (intros [_ ?]; done). done.
      * rewrite lookup_insert_eq. simpl. by rewrite decide_True.
    + rewrite lookup_insert_eq. simpl.
      rewrite decide_True; [done |]. split; [done | apply not_elem_of_nil].
  - rewrite decide_False by (intros [? _]; done).
    destruct (index !! token) as [ids |] eqn:He.
    + destruct (decide (videoId ∈ ids)); [done |]. by rewrite lookup_insert_ne.
    + by rewrite lookup_insert_ne.
Qed.

Lemma fold_index_token_lookup (videoId t : jsstring) (tokens : list jsstring)
    (index : gmap jsstring (list jsstring)) :
  default [] (fold_left (index_token videoId) tokens index !! t)
  = if decide (t ∈ tokens /\ videoId ∉ default [] (index !! t))
    then default [] (index !! t) ++ [videoId]
    else default [] (index !! t).
Proof.
  revert index. induction tokens as [| token tokens IH]; intros index; cbn [fold_left].
  - rewrite decide_False; [done |]. intros [H _]. by apply elem_of_nil in H.
  - rewrite IH, index_token_lookup.
    destruct (decide (t = token /\ videoId ∉ default [] (index !! t))) as [[-> Hnin] | Hno].
    + rewrite decide_False.
      * rewrite decide_True; [done |]. split; [apply list_elem_of_here | done].
      * intros [_ H]. apply H, elem_of_app. right. apply list_elem_of_here.
    + destruct (decide (videoId ∈ default [] (index !! t))) as [Hin | Hnin].
      * rewrite !decide_False by (intros [_ ?]; done). done.
      * assert (t <> token) as Hne by (intros ->; by apply Hno).
        destruct (decide (t ∈ tokens)) as [Ht | Ht].
        -- rewrite !decide_True; [done | | done].
           split; [by apply list_elem_of_further | done].
        -- rewrite !decide_False; [done | |].
           ++ intros [H _]. apply elem_of_cons in H as [? | ?]; done.
           ++ intros [? _]. done.
Qed.

(** X2. What [updateInvertedIndex] does to every posting list: the video
    id goes to the end of the list of each of the tokens that does not
    have it yet; every other list stays as it is. No id leaves a list and
    no id is listed twice for the call. *)
Theorem updateInvertedIndex_posting (videoId : jsstring) (tokens : list jsstring)
    (db : DB) (token : jsstring) :
  posting (updateInvertedIndex videoId tokens db) token
  = if decide (token ∈ tokens /\ videoId ∉ posting db token)
    then posting db token ++ [videoId]
    else posting db token.
Proof.
  unfold posting, updateInvertedIndex. cbn [invertedIndex set_invertedIndex].
  apply fold_index_token_lookup.
Qed.

Lemma index_token_noop (videoId token : jsstring)
    (index : gmap jsstring (list jsstring)) ids :
  index !! token = Some ids -> videoId ∈ ids -> index_token videoId index token = index.
Proof. intros He Hin. unfold index_token. rewrite He. by rewrite decide_True. Qed.

Lemma index_token_listed (videoId token t : jsstring)
    (index : gmap jsstring (list jsstring)) :
  (t = token \/ exists ids, index !! t = Some ids /\ videoId ∈ ids) ->
  exists ids, index_token videoId index token !! t = Some ids /\ videoId ∈ ids.
Proof.
  unfold index_token. intros [-> | (ids & He & Hin)].
  - destruct (index !! token) as [ids |] eqn:He.
    + destruct (decide (videoId ∈ ids)) as [Hin | Hnin]; [by exists ids |].
      exists (ids ++ [videoId]). rewrite lookup_insert_eq. split; [done |].
      apply elem_of_app. right. apply list_elem_of_here.
    + exists [videoId]. rewrite lookup_insert_eq. split; [done | apply list_elem_of_here].
  - destruct (decide (t = token)) as [-> | Hne].
    + rewrite He. rewrite decide_True by done. by exists ids.
    + destruct (index !! token) as [ids' |].
      * destruct (decide (videoId ∈ ids')); [by exists ids |].
        rewrite lookup_insert_ne by done. by exists ids.
      * rewrite lookup_insert_ne by done. by exists ids.
Qed.

Lemma fold_index_token_listed (videoId t : jsstring) (tokens : list jsstring)
    (index : gmap jsstring (list jsstring)) :
  (t ∈ tokens \/ exists ids, index !! t = Some ids /\ videoId ∈ ids) ->
  exists ids,
    fold_left (index_token videoId) tokens index !! t = Some ids /\ videoId ∈ ids.
Proof.
  revert index. induction tokens as [| token tokens IH]; intros index H; cbn [fold_left].
  - destruct H as [H | H]; [by apply elem_of_nil in H | done].
  - apply IH. destruct H as [H | H].
    + apply elem_of_cons in H as [-> | H]; [| by left].
      right. apply index_token_listed. by left.
    + right. apply index_token_listed. by right.
Qed.

Lemma fold_index_token_noop (videoId : jsstring) (tokens : list jsstring)
    (index : gmap jsstring (list jsstring)) :
  (forall t, t ∈ tokens -> exists ids, index !! t = Some ids /\ videoId ∈ ids) ->
  fold_left (index_token videoId) tokens index = index.
Proof.
  induction tokens as [| token tokens IH]; intros H; cbn [fold_left]; [done |].
  destruct (H token (list_elem_of_here _ _)) as (ids & He & Hin).
  rewrite (index_token_noop _ _ _ ids He Hin). apply IH.
  intros t Ht. apply H. by apply list_elem_of_further.
Qed.

(** X3. Indexing the same tokens for the same video a second time
    changes nothing: the database after the second call is the database
    after the first, whatever it held before. *)
Theorem updateInvertedIndex_idempotent (videoId : jsstring) (tokens : list jsstring)
    (db : DB) :
  updateInvertedIndex videoId tokens (updateInvertedIndex videoId tokens db)
  = updateInvertedIndex videoId tokens db.
Proof.
  unfold updateInvertedIndex. cbn [invertedIndex set_invertedIndex videos frames thumbnails].
  f_equal. apply fold_index_token_noop.
  intros t Ht. apply fold_index_token_listed. by left.
Qed.

(** ** [saveVideo] and [searchVideos] together *)

Section SaveAndSearch.
Variable toLowerCase : jsstring -> jsstring.
Variable normalizeNFD : jsstring -> jsstring.

Local Abbreviation tokensOf := (extractTokens toLowerCase normalizeNFD).
Local Abbreviation save := (saveVideo toLowerCase normalizeNFD).
Local Abbreviation search := (searchVideos toLowerCase normalizeNFD).

(** X4. A video saved under a new id is found by every query that shares
    a token with its text (caption, hashtags and author joined by
    spaces). *)
Theorem saveVideo_then_search (videoData : Video) (db : DB) (query token : jsstring) :
  videos_wf db ->
  videos db !! video_id videoData = None ->
  token ∈ tokensOf (allText videoData) ->
  token ∈ tokensOf query ->
  videoData ∈ search (save videoData db).2 query.
Proof.
  intros Hwf Hnew Htext Hquery.
  apply elem_of_searchVideos; [by apply saveVideo_videos_wf |].
  rewrite saveVideo_first_write by done. cbn [snd]. split.
  - cbn [videos updateInvertedIndex set_invertedIndex set_videos].
    apply lookup_insert_eq.
  - exists token. split; [done |].
    unfold posting, updateInvertedIndex. cbn [invertedIndex set_invertedIndex set_videos].
    destruct (fold_index_token_listed (video_id videoData) token
                (tokensOf (allText videoData)) (invertedIndex db) (or_introl Htext))
      as (ids & -> & Hin).
    done.
Qed.

(** X5. A query none of whose tokens has an id on its posting list, a
    query without tokens among them, finds nothing; a token without an
    entry in the index is not an error. *)
Theorem searchVideos_no_posting (db : DB) (query : jsstring) :
  (forall token, token ∈ tokensOf query -> posting db token = []) ->
  search db query = [].
Proof.
  intros Hnone. rewrite searchVideos_unfold.
  assert (encounters db (tokensOf query) = []) as Henc.
  { unfold encounters. induction (tokensOf query) as [| t ts IH]; [done |].
    change ((t :: ts) ≫= posting db) with (posting db t ++ (ts ≫= posting db)).
    rewrite (Hnone t) by apply list_elem_of_here. cbn [app]. apply IH.
    intros t' Ht'. apply Hnone. by apply list_elem_of_further. }
  unfold videoIdScores. rewrite videoIdScores_stream.
  fold (encounters db (tokensOf query)). rewrite Henc. reflexivity.
Qed.

(** X6. [saveVideo] never changes what is stored: a video that is in the
    store stays as it is under its key, the frames and the thumbnails are
    untouched, and every id on a posting list stays on it. *)
Theorem saveVideo_keeps_stored (videoData : Video) (db : DB) :
  (forall id old, videos db !! id = Some old ->
                  videos (save videoData db).2 !! id = Some old) /\
  frames (save videoData db).2 = frames db /\
  thumbnails (save videoData db).2 = thumbnails db /\
  (forall token id, id ∈ posting db token ->
                    id ∈ posting (save videoData db).2 token).
Proof.
  unfold saveVideo.
  destruct (videos db !! video_id videoData) as [existing |] eqn:He; cbn [snd].
  - done.
  - split; [| split; [done | split; [done |]]].
    + intros id old Hold.
      cbn [videos updateInvertedIndex set_invertedIndex set_videos].
      rewrite lookup_insert_ne; [done |]. intros <-. congruence.
    + intros token id Hid. unfold posting, updateInvertedIndex in *.
      cbn [invertedIndex set_invertedIndex set_videos].
      rewrite fold_index_token_lookup.
      destruct (decide _); [| done]. apply elem_of_app. by left.
Qed.
End SaveAndSearch.

Lemma saveVideo_then_search_witness :
  videos_wf Demo.db /\
  videos Demo.db !! video_id Demo.videoC = None /\
  js "carol" ∈ extractTokens Demo.lower Demo.nfd (allText Demo.videoC) /\
  js "carol" ∈ extractTokens Demo.lower Demo.nfd (js "Carol ao") /\
  Demo.videoC
  ∈ searchVideos Demo.lower Demo.nfd
      (saveVideo Demo.lower Demo.nfd Demo.videoC Demo.db).2 (js "Carol ao").
Proof.
  assert (videos_wf Demo.db) as H1 by (refine (bool_decide_unpack _ _); vm_compute; exact I).
  assert (videos Demo.db !! video_id Demo.videoC = None) as H2
    by (vm_compute; reflexivity).
  assert (js "carol" ∈ extractTokens Demo.lower Demo.nfd (allText Demo.videoC)) as H3
    by (refine (bool_decide_unpack _ _); vm_compute; exact I).
  assert (js "carol" ∈ extractTokens Demo.lower Demo.nfd (js "Carol ao")) as H4
    by (refine (bool_decide_unpack _ _); vm_compute; exact I).
  split; [exact H1 |]. split; [exact H2 |]. split; [exact H3 |]. split; [exact H4 |].
  exact (saveVideo_then_search Demo.lower Demo.nfd Demo.videoC Demo.db (js "Carol ao")
           (js "carol") H1 H2 H3 H4).
Defined.

Lemma searchVideos_no_posting_witness :
  (forall token, token ∈ extractTokens Demo.lower Demo.nfd (js "xyz a") ->
                 posting Demo.db token = []) /\
  searchVideos Demo.lower Demo.nfd Demo.db (js "xyz a") = [].
Proof.
  assert (forall token, token ∈ extractTokens Demo.lower Demo.nfd (js "xyz a") ->
                        posting Demo.db token = []) as H.
  { assert (extractTokens Demo.lower Demo.nfd (js "xyz a") = [js "xyz"]) as ->
      by (vm_compute; reflexivity).
    intros token Ht. apply list_elem_of_singleton in Ht. subst token.
    vm_compute. reflexivity. }
  split; [exact H |].
  exact (searchVideos_no_posting Demo.lower Demo.nfd Demo.db (js "xyz a") H).
Defined.

(** ** Retention, run after run *)

Lemma cleanupOldFrames_eq now db :
  cleanupOldFrames now db
  = mkDB (videos db)
         (filter (fun e => now - thirtyDays < frame_ts e.2) (frames db))
         (filter (fun e => now - thirtyDays < thumb_ts e.2) (thumbnails db))
         (invertedIndex db).
Proof.
  unfold cleanupOldFrames.
  cbn [set_frames set_thumbnails videos frames thumbnails invertedIndex].
  by rewrite !delete_cursor_upperBound.
Qed.

Lemma filter_after_twice {R : Type} (ts : R -> Z) (bound1 bound2 : Z)
    (m : gmap jsstring R) :
  filter (fun e => bound2 < ts e.2) (filter (fun e => bound1 < ts e.2) m)
  = filter (fun e => Z.max bound1 bound2 < ts e.2) m.
Proof.
  apply map_eq. intros k. rewrite !map_lookup_filter.
  destruct (m !! k) as [rec |]; simpl; [| done].
  destruct (decide (bound1 < ts rec)) as [H1 | H1].
  - rewrite option_guard_True by done. simpl.
    destruct (decide (bound2 < ts rec)) as [H2 | H2].
    + rewrite !option_guard_True by (simpl; lia). done.
    + rewrite !option_guard_False by (simpl; lia). done.
  - rewrite option_guard_False by done. simpl.
    rewrite option_guard_False by (simpl; lia). done.
Qed.

(** X7. Two cleanups in a row come to one cleanup at the later of the
    two times; a cleanup repeated at the same time changes nothing. *)
Theorem cleanupOldFrames_twice (now1 now2 : Z) (db : DB) :
  cleanupOldFrames now2 (cleanupOldFrames now1 db)
  = cleanupOldFrames (Z.max now1 now2) db.
Proof.
  rewrite !cleanupOldFrames_eq.
  cbn [videos frames thumbnails invertedIndex].
  rewrite !filter_after_twice.
  replace (Z.max (now1 - thirtyDays) (now2 - thirtyDays))
    with (Z.max now1 now2 - thirtyDays) by lia.
  reflexivity.
Qed.

(** X8. The retention round evicts by age only: a frame or a thumbnail
    that is younger than thirty days at both readings of the clock is
    still stored after the round, however many frames there are, so the
    size check does not bring the count down to [MAX_FRAMES]. *)
Theorem retention_keeps_recent (now1 now2 : Z) (db : DB) :
  (forall k frame,
      frames db !! k = Some frame ->
      now1 - thirtyDays < frame_ts frame -> now2 - thirtyDays < frame_ts frame ->
      frames (retentionCycle now1 now2 db) !! k = Some frame) /\
  (forall k thumb,
      thumbnails db !! k = Some thumb ->
      now1 - thirtyDays < thumb_ts thumb -> now2 - thirtyDays < thumb_ts thumb ->
      thumbnails (retentionCycle now1 now2 db) !! k = Some thumb).
Proof.
  unfold retentionCycle, checkDBSize.
  destruct (MAX_FRAMES <? _).
  - rewrite !cleanupOldFrames_eq. cbn [frames thumbnails].
    rewrite !filter_after_twice.
    split; intros k rec Hk H1 H2; rewrite map_lookup_filter, Hk; simpl;
      rewrite option_guard_True by (simpl; lia); done.
  - rewrite cleanupOldFrames_eq. cbn [frames thumbnails].
    split; intros k rec Hk H1 H2; rewrite map_lookup_filter, Hk; simpl;
      rewrite option_guard_True by (simpl; lia); done.
Qed.

(** ** Thumbnails, whatever the store holds *)

Lemma thumbs_of_delete_keys (videoId : jsstring) (keys : list jsstring)
    (m : gmap jsstring Thumb) :
  thumbs_of videoId (delete_keys keys m) = delete_keys keys (thumbs_of videoId m).
Proof.
  unfold delete_keys, thumbs_of. revert m.
  induction keys as [| k keys IH]; intros m; cbn [fold_left]; [done |].
  by rewrite IH, map_filter_delete.
Qed.

Lemma size_delete_keys {R : Type} (keys : list jsstring) (m : gmap jsstring R) :
  NoDup keys -> (forall k, k ∈ keys -> is_Some (m !! k)) ->
  size (delete_keys keys m) = (size m - length keys)%nat.
Proof.
  unfold delete_keys. revert m.
  induction keys as [| k keys IH]; intros m Hnd Hin; cbn [fold_left length].
  - lia.
  - apply NoDup_cons in Hnd as [Hk Hnd].
    rewrite IH; [| done |].
    + destruct (Hin k (list_elem_of_here _ _)) as [x Hx].
      rewrite map_size_delete, Hx.
      assert (size m <> 0%nat) by (apply map_size_ne_0_lookup; eauto).
      cbn [Nat.pred]. lia.
    + intros k' Hk'. rewrite lookup_delete_ne by (intros ->; done).
      apply Hin. by apply list_elem_of_further.
Qed.

Lemma thumbs_of_wf (videoId : jsstring) (m : gmap jsstring Thumb) :
  map_Forall (fun k t => thumb_key t = k) m ->
  map_Forall (fun k t => thumb_key t = k) (thumbs_of videoId m).
Proof.
  intros Hwf k t Hk. apply map_lookup_filter_Some in Hk as [Hk _]. by apply Hwf.
Qed.

(** In a store that keeps each record under its own key, the keys of the
    records are the keys of the store. *)
Lemma wf_record_keys (m : gmap jsstring Thumb) :
  map_Forall (fun k t => thumb_key t = k) m ->
  thumb_key <$> (map_to_list m).*2 = (map_to_list m).*1.
Proof.
  intros Hwf. rewrite <- list_fmap_compose. apply list_fmap_ext.
  intros i [k t] Hi. simpl. apply Hwf.
  apply elem_of_map_to_list. by eapply list_elem_of_lookup_2.
Qed.

Lemma thumbsOfVideo_length (videoId : jsstring) (m : gmap jsstring Thumb) :
  length (thumbsOfVideo videoId m) = size (thumbs_of videoId m).
Proof. by rewrite thumbsOfVideo_perm, length_fmap, length_map_to_list. Qed.

Lemma elem_of_thumbsOfVideo (videoId : jsstring) (m : gmap jsstring Thumb) t :
  t ∈ thumbsOfVideo videoId m <->
  exists k, m !! k = Some t /\ thumb_videoId t = videoId.
Proof.
  rewrite thumbsOfVideo_perm, list_elem_of_fmap. unfold thumbs_of. split.
  - intros ([k t'] & -> & Hin). apply elem_of_map_to_list in Hin.
    apply map_lookup_filter_Some in Hin as [Hk Hv]. by exists k.
  - intros (k & Hk & Hv). exists (k, t). split; [done |].
    apply elem_of_map_to_list, map_lookup_filter_Some. done.
Qed.

Lemma saveThumbnail_wf thumbData db :
  thumbs_wf db -> thumbs_wf (saveThumbnail thumbData db).
Proof.
  intros Hwf. unfold thumbs_wf, saveThumbnail. cbn [thumbnails set_thumbnails].
  apply map_Forall_insert_2; [done |].
  destruct (_ <=? _)%nat; [| done].
  unfold delete_keys.
  generalize (thumb_key <$>
                take (length (thumbsOfVideo (thumb_videoId thumbData) (thumbnails db))
                      - MAX_THUMBS_PER_VIDEO + 1)
                  (js_sort (by_key thumb_ts)
                     (thumbsOfVideo (thumb_videoId thumbData) (thumbnails db)))).
  intros keys. revert Hwf. unfold thumbs_wf. generalize (thumbnails db).
  induction keys as [| k keys IH]; intros m Hm; cbn [fold_left]; [done |].
  apply IH. by apply map_Forall_delete.
Qed.

(** X9. After [saveThumbnail] the video of the thumbnail has at most
    [MAX_THUMBS_PER_VIDEO] thumbnails, however many it had before. *)
Theorem saveThumbnail_bound (thumbData : Thumb) (db : DB) :
  thumbs_wf db ->
  (length (thumbsOfVideo (thumb_videoId thumbData)
             (thumbnails (saveThumbnail thumbData db)))
   <= MAX_THUMBS_PER_VIDEO)%nat.
Proof.
  intros Hwf. rewrite thumbsOfVideo_length. unfold saveThumbnail.
  set (videoId := thumb_videoId thumbData).
  set (existing := thumbsOfVideo videoId (thumbnails db)).
  pose proof (thumbsOfVideo_length videoId (thumbnails db)) as Hn. fold existing in Hn.
  cbn [thumbnails set_thumbnails]. unfold thumbs_of.
  rewrite map_filter_insert_True by done.
  fold (thumbs_of videoId
          (if (MAX_THUMBS_PER_VIDEO <=? length existing)%nat
           then delete_keys
                  (thumb_key <$>
                     take (length existing - MAX_THUMBS_PER_VIDEO + 1)
                       (js_sort (by_key thumb_ts) existing)) (thumbnails db)
           else thumbnails db)).
  rewrite map_size_insert.
  destruct (Nat.leb_spec MAX_THUMBS_PER_VIDEO (length existing)) as [Hfull | Hroom].
  - set (toRemove := take (length existing - MAX_THUMBS_PER_VIDEO + 1)
                       (js_sort (by_key thumb_ts) existing)).
    rewrite thumbs_of_delete_keys.
    assert (size (delete_keys (thumb_key <$> toRemove) (thumbs_of videoId (thumbnails db)))
            = (MAX_THUMBS_PER_VIDEO - 1)%nat) as Hsize.
    { pose proof MAX_THUMBS_PER_VIDEO_pos as Hpos.
      assert (js_sort (by_key thumb_ts) existing
              ≡ₚ (map_to_list (thumbs_of videoId (thumbnails db))).*2) as Hperm
        by (rewrite js_sort_perm; apply thumbsOfVideo_perm).
      rewrite size_delete_keys.
      - rewrite length_fmap. unfold toRemove.
        rewrite length_take, js_sort_length. lia.
      - apply (sublist_NoDup _ (thumb_key <$> js_sort (by_key thumb_ts) existing)).
        + rewrite Hperm, wf_record_keys by (by apply thumbs_of_wf).
          apply NoDup_fst_map_to_list.
        + unfold toRemove. rewrite fmap_take. apply sublist_take.
      - intros k Hk. apply list_elem_of_fmap in Hk as (t & -> & Ht).
        assert (t ∈ js_sort (by_key thumb_ts) existing) as Ht'
          by (eapply elem_of_sublist; [exact Ht | apply sublist_take]).
        rewrite Hperm in Ht'. apply list_elem_of_fmap in Ht' as ([k t'] & -> & Hin).
        apply elem_of_map_to_list in Hin. simpl.
        rewrite (thumbs_of_wf videoId _ Hwf k t' Hin). eauto. }
    rewrite Hsize.
    destruct (delete_keys _ _ !! thumb_key thumbData); unfold id;
      pose proof MAX_THUMBS_PER_VIDEO_pos; lia.
  - destruct (thumbs_of videoId (thumbnails db) !! thumb_key thumbData); unfold id; lia.
Qed.

(** X10. A thumbnail that was saved is among the thumbnails that
    [getThumbnailsForVideo] returns for its video. *)
Theorem saveThumbnail_returned (thumbData : Thumb) (db : DB) :
  thumbData ∈ getThumbnailsForVideo (thumb_videoId thumbData)
                (saveThumbnail thumbData db).
Proof.
  unfold getThumbnailsForVideo. apply js_sort_elem, elem_of_thumbsOfVideo.
  exists (thumb_key thumbData). split; [| done].
  unfold saveThumbnail. cbn [thumbnails set_thumbnails]. apply lookup_insert_eq.
Qed.

(** X11. [saveThumbnail] leaves the thumbnails of the other videos alone:
    a thumbnail of another video stays stored under its key, unless the
    new thumbnail takes that very key. *)
Theorem saveThumbnail_other_videos (thumbData : Thumb) (db : DB) k other :
  thumbs_wf db ->
  thumbnails db !! k = Some other ->
  thumb_videoId other <> thumb_videoId thumbData ->
  k <> thumb_key thumbData ->
  thumbnails (saveThumbnail thumbData db) !! k = Some other.
Proof.
  intros Hwf Hk Hvideo Hkey. unfold saveThumbnail. cbn [thumbnails set_thumbnails].
  rewrite lookup_insert_ne by done.
  destruct (_ <=? _)%nat; [| done].
  rewrite lookup_delete_keys, decide_False; [done |].
  intros Hin. apply list_elem_of_fmap in Hin as (t & -> & Ht).
  assert (t ∈ thumbsOfVideo (thumb_videoId thumbData) (thumbnails db)) as Ht'.
  { eapply (proj1 (js_sort_elem (by_key thumb_ts) _ _)).
    eapply elem_of_sublist; [exact Ht | apply sublist_take]. }
  apply elem_of_thumbsOfVideo in Ht' as (k' & Hk' & Hv).
  assert (k' = thumb_key t) as -> by (symmetry; by apply Hwf).
  rewrite Hk in Hk'. injection Hk' as ->. done.
Qed.

(** X12. [getThumbnailsForVideo] returns the stored thumbnails of the
    video and no others, the newest first. *)
Theorem getThumbnailsForVideo_newest_first (videoId : jsstring) (db : DB) :
  (forall t, t ∈ getThumbnailsForVideo videoId db <->
             exists k, thumbnails db !! k = Some t /\ thumb_videoId t = videoId) /\
  (forall i j ti tj,
      (i < j)%nat ->
      getThumbnailsForVideo videoId db !! i = Some ti ->
      getThumbnailsForVideo videoId db !! j = Some tj ->
      thumb_ts tj <= thumb_ts ti).
Proof.
  split.
  - intros t. unfold getThumbnailsForVideo.
    rewrite js_sort_elem. apply elem_of_thumbsOfVideo.
  - intros i j ti tj Hij Hi Hj.
    pose proof (before_lookup i j ti tj _ Hij Hi Hj) as Hb.
    unfold getThumbnailsForVideo in Hb.
    pose proof (js_sort_sorted (fun a b => thumb_ts b - thumb_ts a)
                  (fun t => - thumb_ts t)) as Hs.
    specialize (Hs ltac:(intros a b; lia) _ _ _ Hb). simpl in Hs. lia.
Qed.

Lemma saveThumbnail_bound_witness :
  thumbs_wf Demo.retention_db /\
  (length (thumbsOfVideo (thumb_videoId Demo.newest)
             (thumbnails (saveThumbnail Demo.newest Demo.retention_db)))
   <= MAX_THUMBS_PER_VIDEO)%nat.
Proof.
  assert (thumbs_wf Demo.retention_db) as H
    by (refine (bool_decide_unpack _ _); vm_compute; exact I).
  split; [exact H |].
  exact (saveThumbnail_bound Demo.newest Demo.retention_db H).
Defined.

(** ** Reading the stores *)

Lemma before_app_l {A : Type} (a b : A) (l l' : list A) :
  before a b l -> before a b (l ++ l').
Proof.
  induction 1 as [l Hb | x l _ IH]; simpl.
  - apply before_here, elem_of_app; auto.
  - by apply before_later.
Qed.

Lemma before_app_cross {A : Type} (a b : A) (l l' : list A) :
  a ∈ l -> b ∈ l' -> before a b (l ++ l').
Proof.
  induction 1 as [a l | a x l _ IH]; intros Hb; simpl.
  - apply before_here, elem_of_app; auto.
  - apply before_later; auto.
Qed.

Lemma before_app_inv {A : Type} (a b : A) (l l' : list A) :
  before a b (l ++ l') -> before a b l \/ (a ∈ l /\ b ∈ l') \/ before a b l'.
Proof.
  induction l as [| x l IH]; simpl; intros H; [auto |].
  apply before_cons_inv in H as [[-> Hb] | H].
  - apply elem_of_app in Hb as [Hb | Hb].
    + left. by apply before_here.
    + right; left. split; [apply list_elem_of_here | done].
  - destruct (IH H) as [H' | [[Ha Hb] | H']].
    + left. by apply before_later.
    + right; left. split; [by apply list_elem_of_further | done].
    + by right; right.
Qed.

Lemma before_reverse {A : Type} (a b : A) (l : list A) :
  before a b (reverse l) -> before b a l.
Proof.
  induction l as [| x l IH]; [inversion 1 |].
  rewrite reverse_cons. intros H.
  apply before_snoc_inv in H as [H | [Ha ->]].
  - apply before_later. by apply IH.
  - apply before_here. by apply elem_of_reverse.
Qed.

(** The records that an index lists for one value of a field. *)
Lemma index_getAll_perm {R : Type} (P : R -> Prop) `{!forall x, Decision (P x)}
    (m : gmap jsstring R) :
  filter P (entries m).*2 ≡ₚ (map_to_list (filter (fun e => P e.2) m)).*2.
Proof.
  rewrite filter_fmap_snd.
  apply fmap_Permutation. apply NoDup_Permutation.
  - apply NoDup_filter. rewrite entries_perm. apply NoDup_map_to_list.
  - apply NoDup_map_to_list.
  - intros [k t]. rewrite list_elem_of_filter, elem_of_entries, elem_of_map_to_list.
    rewrite map_lookup_filter_Some. simpl. tauto.
Qed.

Lemma getFrameCount_size (videoId : jsstring) (db : DB) :
  getFrameCount videoId db
  = size (filter (fun e : jsstring * Frame => frame_videoId e.2 = videoId) (frames db)).
Proof.
  unfold getFrameCount, framesOfVideo.
  by rewrite index_getAll_perm, length_fmap, length_map_to_list.
Qed.

Section SaveFrameReads.
Variable toLowerCase : jsstring -> jsstring.
Variable normalizeNFD : jsstring -> jsstring.

Local Abbreviation save := (saveFrame toLowerCase normalizeNFD).

Lemma saveFrame_frames w frameData db blobData :
  convertBlob (fd_blob frameData) = inr blobData ->
  framePut w = None ->
  frames (save w frameData db).2
  = <[fd_key frameData :=
        mkFrame (fd_key frameData) (fd_videoId frameData) (fd_ts frameData) blobData
          (analyzeForFrame toLowerCase normalizeNFD w frameData blobData db).1]>
      (frames db).
Proof.
  intros Hblob Hput. unfold saveFrame. rewrite Hblob.
  assert (frames (analyzeForFrame toLowerCase normalizeNFD w frameData blobData db).2
          = frames db) as Hframes.
  { unfold analyzeForFrame. destruct (settingsRead w) as [s |]; [| done].
    destruct (analysisEnabled s blobData); [| done].
    destruct (analyzeImageWithCloudVision (vision w)); done. }
  destruct (analyzeForFrame toLowerCase normalizeNFD w frameData blobData db)
    as [analysis db1].
  rewrite Hput. cbn [fst snd frames set_frames] in *. by rewrite Hframes.
Qed.

(** X13. The image data of a frame comes back from [getFrameData] as it
    went into [saveFrame]: the bytes of the converted payload, and for an
    array of byte values (what the content script sends) the very
    numbers. *)
Theorem saveFrame_getFrameData (w : World) (frameData : FrameData) (db : DB)
    (data : BlobData) :
  convertBlob (fd_blob frameData) = inr (Some data) ->
  framePut w = None ->
  (exists analysis,
      getFrameData (fd_key frameData) (save w frameData db).2
      = Some (bytesOf data, analysis)) /\
  (forall values,
      fd_blob frameData = BlobArray values ->
      Forall (fun v => 0 <= v < 256) values ->
      Z.of_N <$> bytesOf data = values).
Proof.
  intros Hblob Hput. split.
  - eexists. unfold getFrameData.
    rewrite (saveFrame_frames w frameData db (Some data) Hblob Hput).
    rewrite lookup_insert_eq. reflexivity.
  - intros values Hvalues Hrange. rewrite Hvalues in Hblob.
    cbn [convertBlob] in Hblob. injection Hblob as <-. cbn [bytesOf].
    clear Hvalues. induction Hrange as [| v values Hv _ IH]; [done |].
    csimpl. rewrite IH. f_equal. unfold toUint8.
    rewrite Z.mod_small by lia. lia.
Qed.

(** X14. A frame saved under a key that was free adds one to the frame
    count of its video and leaves the counts of the other videos. *)
Theorem saveFrame_getFrameCount (w : World) (frameData : FrameData) (db : DB)
    (blobData : option BlobData) (videoId : jsstring) :
  convertBlob (fd_blob frameData) = inr blobData ->
  framePut w = None ->
  frames db !! fd_key frameData = None ->
  getFrameCount videoId (save w frameData db).2
  = if decide (fd_videoId frameData = videoId)
    then S (getFrameCount videoId db)
    else getFrameCount videoId db.
Proof.
  intros Hblob Hput Hfree. rewrite !getFrameCount_size.
  rewrite (saveFrame_frames w frameData db blobData Hblob Hput).
  destruct (decide (fd_videoId frameData = videoId)) as [Hv | Hv].
  - rewrite map_filter_insert_True by done.
    rewrite map_size_insert_None; [done |].
    apply map_lookup_filter_None. by left.
  - rewrite map_filter_insert_False by done.
    by rewrite delete_id.
Qed.
End SaveFrameReads.

(** X15. [getAllVideos] returns stored videos, as many as there are up
    to [limit], the newest first; no video that is left out was viewed
    later than one that is returned. *)
Theorem getAllVideos_newest (limit : Z) (db : DB) :
  length (getAllVideos limit db) = Nat.min (Z.to_nat limit) (size (videos db)) /\
  (forall v, v ∈ getAllVideos limit db -> exists k, videos db !! k = Some v) /\
  (forall i j vi vj,
      (i < j)%nat ->
      getAllVideos limit db !! i = Some vi -> getAllVideos limit db !! j = Some vj ->
      video_viewedAt vj <= video_viewedAt vi) /\
  (forall v k u,
      v ∈ getAllVideos limit db -> videos db !! k = Some u ->
      u ∉ getAllVideos limit db ->
      video_viewedAt u <= video_viewedAt v).
Proof.
  unfold getAllVideos.
  set (sorted := js_sort (by_key (fun e : jsstring * Video => video_viewedAt e.2))
                   (entries (videos db))).
  set (all := (reverse sorted).*2).
  assert (forall v, v ∈ all <-> exists k, videos db !! k = Some v) as Hall.
  { intros v. unfold all, sorted. rewrite list_elem_of_fmap. split.
    - intros ([k v'] & -> & Hin). rewrite elem_of_reverse, js_sort_elem in Hin.
      apply elem_of_entries in Hin. by exists k.
    - intros [k Hk]. exists (k, v). split; [done |].
      rewrite elem_of_reverse, js_sort_elem. by apply elem_of_entries. }
  assert (forall a b, before a b all -> video_viewedAt b <= video_viewedAt a) as Hsorted.
  { intros a b Hb. unfold all in Hb.
    apply before_fmap_inv in Hb as ([ka a'] & [kb b'] & -> & -> & Hb).
    apply before_reverse in Hb. unfold sorted in Hb.
    pose proof (js_sort_sorted (by_key (fun e : jsstring * Video => video_viewedAt e.2))
                  (fun e => video_viewedAt e.2)) as Hs.
    exact (Hs ltac:(intros x y; unfold by_key; lia) _ _ _ Hb). }
  split; [| split; [| split]].
  - rewrite length_take. unfold all, sorted.
    rewrite length_fmap, length_reverse, js_sort_length, entries_perm, length_map_to_list.
    done.
  - intros v Hv. apply Hall. eapply elem_of_sublist; [exact Hv | apply sublist_take].
  - intros i j vi vj Hij Hi Hj. apply Hsorted.
    rewrite <- (take_drop (Z.to_nat limit) all). apply before_app_l.
    by apply (before_lookup i j).
  - intros v k u Hv Hk Hu. apply Hsorted.
    rewrite <- (take_drop (Z.to_nat limit) all). apply before_app_cross; [done |].
    assert (u ∈ all) as Hin by (apply Hall; eauto).
    rewrite <- (take_drop (Z.to_nat limit) all) in Hin.
    apply elem_of_app in Hin as [Hin | Hin]; done.
Qed.

(** ** Colours *)

Lemma hex_round_trip_bytes : forallb hex_round_trip (seqZ 0 256) = true.
Proof. vm_compute. reflexivity. Qed.

Lemma pad2_toString16 (x : Z) :
  0 <= x <= 255 ->
  exists hi lo, pad2 (toString16 x) = [hi; lo] /\ hex_pair hi lo = Some x.
Proof.
  intros Hx. pose proof hex_round_trip_bytes as Hall.
  rewrite forallb_forall in Hall.
  assert (hex_round_trip x = true) as H.
  { apply Hall, list_elem_of_In, elem_of_seqZ. lia. }
  unfold hex_round_trip in H.
  destruct (pad2 (toString16 x)) as [| hi [| lo [| ? ?]]]; try discriminate H.
  exists hi, lo. split; [reflexivity |]. by apply bool_decide_eq_true in H.
Qed.

(** X16. A colour with channels from 0 to 255 written by [rgbToHex] is
    read back by [hexToRgb]. *)
Theorem hexToRgb_rgbToHex (r g b : Z) :
  0 <= r <= 255 -> 0 <= g <= 255 -> 0 <= b <= 255 ->
  hexToRgb (rgbToHex r g b) = Some (mkPixel r g b).
Proof.
  intros Hr Hg Hb. unfold rgbToHex.
  destruct (pad2_toString16 r Hr) as (r1 & r2 & -> & Hr').
  destruct (pad2_toString16 g Hg) as (g1 & g2 & -> & Hg').
  destruct (pad2_toString16 b Hb) as (b1 & b2 & -> & Hb').
  cbn [app hexToRgb]. by rewrite Hr', Hg', Hb'.
Qed.

(** *** The nearest name *)

Lemma nearest_fold_flat rgb (names : list (jsstring * list jsstring))
    (st : option Z * option jsstring) :
  fold_left (fun st entry => fold_left (nearest_step rgb (fst entry)) (snd entry) st)
    names st
  = fold_left (fun st e => nearest_step rgb e.1 st e.2)
      (names ≫= (fun entry => (fun hex => (entry.1, hex)) <$> entry.2)) st.
Proof.
  revert st. induction names as [| entry names IH]; intros st; [reflexivity |].
  rewrite bind_cons, fold_left_app. cbn [fold_left]. rewrite <- IH. f_equal.
  generalize st. clear.
  induction (snd entry) as [| hex hexes IH]; intros st; [reflexivity |].
  csimpl. apply IH.
Qed.

Lemma findNearestColorName_flat rgb :
  findNearestColorName rgb
  = snd (fold_left (fun st e => nearest_step rgb e.1 st e.2) references (None, None)).
Proof.
  unfold findNearestColorName, references. rewrite nearest_fold_flat. reflexivity.
Qed.

Lemma nearest_so_far_step rgb seen st name hex :
  nearest_so_far rgb seen st ->
  nearest_so_far rgb (seen ++ [(name, hex)]) (nearest_step rgb name st hex).
Proof.
  intros Hst. unfold nearest_step.
  destruct (hexToRgb hex) as [colorRgb |] eqn:Hhex.
  - destruct Hst as [[-> Hnone] | (i & n0 & h0 & ref & Hi & Href & -> & Hmin)].
    + (* the first reference that can be read *)
      right. exists (length seen), name, hex, colorRgb. cbn [fst].
      split; [by rewrite lookup_app_r, Nat.sub_diag by lia |].
      split; [done |]. split; [done |].
      intros j n' h' r' Hj Hr'.
      destruct (decide (j < length seen)%nat) as [Hlt | Hge].
      * rewrite lookup_app_l in Hj by done.
        apply list_elem_of_lookup_2 in Hj. specialize (Hnone _ Hj). simpl in Hnone.
        congruence.
      * rewrite lookup_app_r in Hj by lia.
        destruct (j - length seen)%nat eqn:Hd; [| by destruct n].
        injection Hj as <- <-. rewrite Hhex in Hr'. injection Hr' as <-.
        split; [lia | lia].
    + cbn [fst].
      pose proof (lookup_lt_Some _ _ _ Hi) as Hilt.
      destruct (colorDistance2 rgb colorRgb <? colorDistance2 rgb ref) eqn:Hcmp.
      * (* strictly nearer: the new reference takes over *)
        apply Z.ltb_lt in Hcmp.
        right. exists (length seen), name, hex, colorRgb.
        split; [by rewrite lookup_app_r, Nat.sub_diag by lia |].
        split; [done |]. split; [done |].
        intros j n' h' r' Hj Hr'.
        destruct (decide (j < length seen)%nat) as [Hlt | Hge].
        -- rewrite lookup_app_l in Hj by done.
           destruct (Hmin j n' h' r' Hj Hr') as [Hle _]. split; lia.
        -- rewrite lookup_app_r in Hj by lia.
           destruct (j - length seen)%nat eqn:Hd; [| by destruct n].
           injection Hj as <- <-. rewrite Hhex in Hr'. injection Hr' as <-.
           split; lia.
      * (* not nearer: the earlier reference stays *)
        apply Z.ltb_ge in Hcmp.
        right. exists i, n0, h0, ref.
        split; [by rewrite lookup_app_l by done |].
        split; [done |]. split; [done |].
        intros j n' h' r' Hj Hr'.
        destruct (decide (j < length seen)%nat) as [Hlt | Hge].
        -- rewrite lookup_app_l in Hj by done. by apply (Hmin j n' h').
        -- rewrite lookup_app_r in Hj by lia.
           destruct (j - length seen)%nat eqn:Hd; [| by destruct n].
           injection Hj as <- <-. rewrite Hhex in Hr'. injection Hr' as <-.
           split; lia.
  - destruct Hst as [[-> Hnone] | (i & n0 & h0 & ref & Hi & Href & -> & Hmin)].
    + left. split; [done |]. intros e He.
      apply elem_of_app in He as [He | He]; [by apply Hnone |].
      apply list_elem_of_singleton in He. by subst e.
    + pose proof (lookup_lt_Some _ _ _ Hi) as Hilt.
      right. exists i, n0, h0, ref.
      split; [by rewrite lookup_app_l by done |].
      split; [done |]. split; [done |].
      intros j n' h' r' Hj Hr'.
      destruct (decide (j < length seen)%nat) as [Hlt | Hge].
      * rewrite lookup_app_l in Hj by done. by apply (Hmin j n' h').
      * rewrite lookup_app_r in Hj by lia.
        destruct (j - length seen)%nat eqn:Hd; [| by destruct n].
        injection Hj as <- <-. congruence.
Qed.

Lemma nearest_so_far_fold rgb (refs : list (jsstring * jsstring)) :
  nearest_so_far rgb refs
    (fold_left (fun st e => nearest_step rgb e.1 st e.2) refs (None, None)).
Proof.
  induction refs as [| [name hex] refs IH] using rev_ind.
  - left. split; [done |]. intros e He. by apply elem_of_nil in He.
  - rewrite fold_left_app. cbn [fold_left fst snd]. by apply nearest_so_far_step.
Qed.

Lemma findNearestColorName_found (rgb : Pixel) :
  exists i name hex ref,
    references !! i = Some (name, hex) /\
    hexToRgb hex = Some ref /\
    fold_left (fun st e => nearest_step rgb e.1 st e.2) references (None, None)
    = (Some (colorDistance2 rgb ref), Some name) /\
    forall j name' hex' ref',
      references !! j = Some (name', hex') -> hexToRgb hex' = Some ref' ->
      colorDistance2 rgb ref <= colorDistance2 rgb ref' /\
      ((j < i)%nat -> colorDistance2 rgb ref < colorDistance2 rgb ref').
Proof.
  destruct (nearest_so_far_fold rgb references)
    as [[_ Hnone] | (i & name & hex & ref & Hi & Href & Hst & Hmin)].
  - assert ((name_do, js "#FF0000") ∈ references) as Hfirst
      by (vm_compute; apply list_elem_of_here).
    specialize (Hnone _ Hfirst). vm_compute in Hnone. discriminate Hnone.
  - exists i, name, hex, ref.
    split; [exact Hi |]. split; [exact Href |]. split; [exact Hst | exact Hmin].
Qed.


(** *** What [hexToRgb] reads *)

Lemma hex_digit_range (c : N) (d : Z) : hex_digit c = Some d -> 0 <= d <= 15.
Proof.
  unfold hex_digit. intros H.
  destruct ((48 <=? c)%N && (c <=? 57)%N) eqn:H1.
  { injection H as <-. apply andb_true_iff in H1 as [Ha Hb].
    apply N.leb_le in Ha, Hb. lia. }
  destruct ((65 <=? c)%N && (c <=? 70)%N) eqn:H2.
  { injection H as <-. apply andb_true_iff in H2 as [Ha Hb].
    apply N.leb_le in Ha, Hb. lia. }
  destruct ((97 <=? c)%N && (c <=? 102)%N) eqn:H3; [| discriminate H].
  injection H as <-. apply andb_true_iff in H3 as [Ha Hb].
  apply N.leb_le in Ha, Hb. lia.
Qed.

Lemma hex_pair_range (hi lo : N) (x : Z) : hex_pair hi lo = Some x -> 0 <= x <= 255.
Proof.
  unfold hex_pair. intros H.
  destruct (hex_digit hi) as [h |] eqn:Hh; [| discriminate H].
  destruct (hex_digit lo) as [l |] eqn:Hl; [| discriminate H].
  injection H as <-.
  apply hex_digit_range in Hh, Hl. lia.
Qed.

(** X28. A colour that [hexToRgb] reads has its channels between 0 and
    255, and it is read from six code units, or from seven of which the
    first is [#]; every other string gives [null]. *)
Theorem hexToRgb_in_range (hex : jsstring) (rgb : Pixel) :
  hexToRgb hex = Some rgb ->
  in_range rgb /\
  (length hex = 6%nat \/ (length hex = 7%nat /\ head hex = Some 35%N)).
Proof.
  unfold hexToRgb. cbv zeta.
  set (body := match hex with 35%N :: rest => rest | _ => hex end).
  intros H.
  destruct body as [| r1 [| r2 [| g1 [| g2 [| b1 [| b2 [| extra body']]]]]]] eqn:Hbody;
    try discriminate H.
  destruct (hex_pair r1 r2) as [r |] eqn:Hr; [| discriminate H].
  destruct (hex_pair g1 g2) as [g |] eqn:Hg; [| discriminate H].
  destruct (hex_pair b1 b2) as [b |] eqn:Hb; [| discriminate H].
  injection H as <-. split.
  - unfold in_range. cbn [pixel_r pixel_g pixel_b].
    apply hex_pair_range in Hr, Hg, Hb. done.
  - subst body.
    assert ((hex = [r1; r2; g1; g2; b1; b2]) \/
            (hex = 35%N :: [r1; r2; g1; g2; b1; b2])) as [-> | ->].
    { destruct hex as [| c rest]; [discriminate Hbody |].
      destruct (decide (c = 35%N)) as [-> | Hc].
      - right. by rewrite Hbody.
      - left. rewrite <- Hbody.
        destruct c as [| p]; [done |].
        do 6 (destruct p as [p | p |]; try done). }
    + by left.
    + right. done.
Qed.

(** *** What the loop of [medianCut] keeps *)

Lemma split_loop_invariant (I : list (list Pixel) -> Prop) fuel numColors pixels
    boxes result :
  I boxes ->
  (forall bs, I bs -> keep_splitting numColors pixels bs = true -> I (split_pass bs)) ->
  split_loop fuel numColors pixels boxes = Some result ->
  I result /\ keep_splitting numColors pixels result = false.
Proof.
  intros Hinit Hstep. revert boxes Hinit.
  induction fuel as [| fuel IH]; intros boxes Hinit; cbn [split_loop];
    destruct (keep_splitting numColors pixels boxes) eqn:Hk; intros H.
  - discriminate H.
  - injection H as <-. done.
  - apply (IH (split_pass boxes)); [by apply Hstep | done].
  - injection H as <-. done.
Qed.

Lemma concat_one {A : Type} (l : list A) : concat [l] = l.
Proof. simpl. apply app_nil_r. Qed.

Lemma concat_two {A : Type} (l1 l2 : list A) : concat [l1; l2] = l1 ++ l2.
Proof. simpl. by rewrite app_nil_r. Qed.

(** The pieces of a box hold the pixels of the box. *)
Lemma split_box_concat box : concat (split_box box) ≡ₚ box.
Proof.
  destruct box as [| p box]; [done |].
  change (split_box (p :: box)) with (split_nonempty (p :: box)).
  unfold split_nonempty. destruct (_ =? 0).
  - by rewrite concat_one.
  - rewrite concat_two, take_drop. apply js_sort_perm.
Qed.

Lemma split_box_length box : (length (split_box box) <= 2)%nat.
Proof.
  destruct box as [| p box]; [simpl; lia |].
  change (split_box (p :: box)) with (split_nonempty (p :: box)).
  unfold split_nonempty. destruct (_ =? 0); simpl; lia.
Qed.

Lemma split_pass_concat boxes : concat (split_pass boxes) ≡ₚ concat boxes.
Proof.
  unfold split_pass. induction boxes as [| box boxes IH]; [done |].
  rewrite bind_cons, concat_app. rewrite IH, split_box_concat. reflexivity.
Qed.

Lemma split_pass_length boxes : (length (split_pass boxes) <= 2 * length boxes)%nat.
Proof.
  unfold split_pass. induction boxes as [| box boxes IH]; [simpl; lia |].
  rewrite bind_cons, length_app. pose proof (split_box_length box).
  cbn [length]. lia.
Qed.

Lemma box_colors_counts boxes :
  sum_list_with color_count (omap box_color boxes) = length (concat boxes) /\
  Forall (fun color => (1 <= color_count color)%nat) (omap box_color boxes) /\
  (length (omap box_color boxes) <= length boxes)%nat.
Proof.
  induction boxes as [| box boxes (IH1 & IH2 & IH3)]; [done |].
  destruct box as [| p box].
  - cbn [omap list_omap box_color concat app length]. split; [done |]. split; [done | lia].
  - change (omap box_color ((p :: box) :: boxes))
      with (mean_color (p :: box) :: omap box_color boxes).
    cbn [sum_list_with concat]. rewrite length_app, IH1.
    split; [done |]. split.
    + constructor; [| done]. cbn [mean_color color_count length]. lia.
    + cbn [length]. lia.
Qed.

Lemma medianCut_counts fuel pixels numColors colors :
  medianCut fuel pixels numColors = Some colors ->
  sum_list_with color_count colors = length pixels /\
  Forall (fun color => (1 <= color_count color)%nat) colors.
Proof.
  intros Hcut.
  destruct pixels as [| p pixels]; [injection Hcut as <-; done |].
  unfold medianCut in Hcut.
  destruct (split_loop fuel numColors (p :: pixels) [p :: pixels]) as [boxes |] eqn:Hloop;
    [| discriminate Hcut].
  injection Hcut as <-.
  destruct (split_loop_invariant (fun bs => concat bs ≡ₚ p :: pixels)
              fuel numColors (p :: pixels) [p :: pixels] boxes
              ltac:(cbv beta; by rewrite concat_one)
              ltac:(cbv beta; intros bs Hbs _; by rewrite split_pass_concat) Hloop) as [Hperm _].
  destruct (box_colors_counts boxes) as (H1 & H2 & _).
  split.
  - by rewrite js_sort_perm, H1, Hperm.
  - by rewrite js_sort_perm.
Qed.

Lemma length_le_counts colors :
  Forall (fun color => (1 <= color_count color)%nat) colors ->
  (length colors <= sum_list_with color_count colors)%nat.
Proof.
  induction 1 as [| c cs Hc _ IH]; [simpl; lia |].
  change (sum_list_with color_count (c :: cs))
    with (color_count c + sum_list_with color_count cs)%nat.
  cbn [length]. lia.
Qed.

(** X18. The weights of the palette add up to the number of pixels:
    every pixel is counted in one colour. Every colour has a weight of
    one or more; so a sample that is not empty has a palette that is not
    empty, with no more colours than pixels. *)
Theorem medianCut_weights (fuel : nat) (pixels : list Pixel) (numColors : Z)
    (colors : list Color) :
  medianCut fuel pixels numColors = Some colors ->
  sum_list_with color_count colors = length pixels /\
  Forall (fun color => (1 <= color_count color)%nat) colors /\
  (length colors <= length pixels)%nat /\
  (pixels <> [] -> colors <> []).
Proof.
  intros Hcut. destruct (medianCut_counts _ _ _ _ Hcut) as [Hsum Hpos].
  split; [done |]. split; [done |].
  pose proof (length_le_counts colors Hpos) as Hlen.
  split; [lia |].
  intros Hne ->. simpl in Hsum. destruct pixels; [done | discriminate Hsum].
Qed.

(** X19. The palette comes heaviest colour first, and when [numColors]
    is two or more it has at most [2 * numColors - 2] colours (one colour
    when [numColors] is less): a pass may split every box, so the palette
    can be longer than what was asked for. *)
Theorem medianCut_order_and_size (fuel : nat) (pixels : list Pixel) (numColors : Z)
    (colors : list Color) :
  medianCut fuel pixels numColors = Some colors ->
  (forall i j ci cj,
      (i < j)%nat -> colors !! i = Some ci -> colors !! j = Some cj ->
      (color_count cj <= color_count ci)%nat) /\
  Z.of_nat (length colors) <= Z.max 1 (2 * numColors - 2).
Proof.
  intros Hcut.
  destruct pixels as [| p pixels].
  { injection Hcut as <-. split; [intros i j ci cj _ Hi; done | simpl; lia]. }
  unfold medianCut in Hcut.
  destruct (split_loop fuel numColors (p :: pixels) [p :: pixels]) as [boxes |] eqn:Hloop;
    [| discriminate Hcut].
  injection Hcut as <-. split.
  - intros i j ci cj Hij Hi Hj.
    pose proof (before_lookup i j ci cj _ Hij Hi Hj) as Hb.
    pose proof (js_sort_sorted
                  (fun a b => Z.of_nat (color_count b) - Z.of_nat (color_count a))
                  (fun c => - Z.of_nat (color_count c))) as Hs.
    specialize (Hs ltac:(intros a b; lia) _ _ _ Hb). simpl in Hs. lia.
  - destruct (split_loop_invariant
                (fun bs => Z.of_nat (length bs) <= Z.max 1 (2 * numColors - 2))
                fuel numColors (p :: pixels) [p :: pixels] boxes ltac:(cbv beta; simpl; lia)
                ltac:(cbv beta; intros bs Hbs Hk; unfold keep_splitting in Hk;
                      apply andb_true_iff in Hk as [Hk _]; apply Z.ltb_lt in Hk;
                      pose proof (split_pass_length bs); lia) Hloop) as [Hsize _].
    rewrite js_sort_length.
    destruct (box_colors_counts boxes) as (_ & _ & Hle). lia.
Qed.

(** Five pixels of five shades and three colours asked for: the second
    pass splits both boxes, and the palette has four colours. *)
Example medianCut_four_for_three : medianCut 5 Sample.shades 3 = Some Sample.palette.
Proof. vm_compute. reflexivity. Qed.

(** *** Colours within the range *)

Lemma split_box_elem box piece p :
  piece ∈ split_box box -> p ∈ piece -> p ∈ box.
Proof.
  intros Hpiece Hp. rewrite <- (split_box_concat box).
  apply list_elem_of_In, in_concat. exists piece.
  split; by apply list_elem_of_In.
Qed.

Lemma split_pass_elem boxes piece p :
  piece ∈ split_pass boxes -> p ∈ piece -> exists box, box ∈ boxes /\ p ∈ box.
Proof.
  unfold split_pass. intros Hpiece Hp.
  apply list_elem_of_bind in Hpiece as (box & Hpiece & Hbox).
  exists box. split; [done |]. by eapply split_box_elem.
Qed.

Lemma channel_sum_bounds (ch : Pixel -> Z) box :
  (forall p, p ∈ box -> 0 <= ch p <= 255) ->
  0 <= channel_sum ch box <= 255 * Z.of_nat (length box).
Proof.
  induction box as [| q box IH]; intros Hall.
  - unfold channel_sum. simpl. lia.
  - change (q :: box) with ([q] ++ box) at 1 2.
    rewrite channel_sum_app.
    assert (channel_sum ch [q] = ch q) as -> by (unfold channel_sum; simpl; lia).
    pose proof (Hall q (list_elem_of_here _ _)).
    specialize (IH ltac:(intros p Hp; apply Hall; by apply list_elem_of_further)).
    cbn [length]. lia.
Qed.

Lemma round_div_bounds sum count :
  0 < count -> 0 <= sum <= 255 * count -> 0 <= round_div sum count <= 255.
Proof.
  intros Hc Hs. unfold round_div. split.
  - apply Z.div_pos; lia.
  - assert ((2 * sum + count) / (2 * count) < 256); [| lia].
    apply Z.div_lt_upper_bound; lia.
Qed.

(** X20. When every pixel has its channels between 0 and 255, so has
    every colour of the palette. *)
Theorem medianCut_colors_in_range (fuel : nat) (pixels : list Pixel) (numColors : Z)
    (colors : list Color) :
  Forall (fun p => 0 <= pixel_r p <= 255 /\ 0 <= pixel_g p <= 255 /\
                   0 <= pixel_b p <= 255) pixels ->
  medianCut fuel pixels numColors = Some colors ->
  Forall (fun color =>
            0 <= pixel_r (color_rgb color) <= 255 /\
            0 <= pixel_g (color_rgb color) <= 255 /\
            0 <= pixel_b (color_rgb color) <= 255) colors.
Proof.
  intros Hrange Hcut. rewrite Forall_forall in Hrange.
  destruct pixels as [| p0 pixels]; [injection Hcut as <-; done |].
  unfold medianCut in Hcut.
  destruct (split_loop fuel numColors (p0 :: pixels) [p0 :: pixels]) as [boxes |] eqn:Hloop;
    [| discriminate Hcut].
  injection Hcut as <-.
  destruct (split_loop_invariant
              (fun bs => forall box p, box ∈ bs -> p ∈ box -> p ∈ p0 :: pixels)
              fuel numColors (p0 :: pixels) [p0 :: pixels] boxes
              ltac:(cbv beta; intros box p Hbox Hp; apply list_elem_of_singleton in Hbox;
                    by subst)
              ltac:(cbv beta; intros bs Hbs _ piece p Hpiece Hp;
                    destruct (split_pass_elem bs piece p Hpiece Hp) as (box & Hbox & Hp');
                    by apply (Hbs box)) Hloop) as [Hin _].
  apply Forall_forall. intros color Hcolor.
  apply js_sort_elem, list_elem_of_omap in Hcolor as (box & Hbox & Hcolor).
  destruct box as [| q box]; [discriminate Hcolor |].
  cbn [box_color] in Hcolor. injection Hcolor as <-.
  cbn [mean_color color_rgb pixel_r pixel_g pixel_b].
  assert (0 < Z.of_nat (length (q :: box))) as Hlen by (cbn [length]; lia).
  split; [| split]; (apply round_div_bounds; [done |]);
    apply channel_sum_bounds; intros p Hp; apply (Hrange p (Hin _ _ Hbox Hp)).
Qed.

(** *** The loop ends on pixels that are pairwise different *)

Lemma channel_range_nonneg (ch : Pixel -> Z) box p :
  p ∈ box -> 0 <= channel_range ch box.
Proof.
  intros Hp. unfold channel_range, channel_max, channel_min.
  destruct (fold_max_spec ch box 0) as (_ & H1 & _).
  destruct (fold_min_spec ch box 255) as (_ & H2 & _).
  pose proof (H1 p Hp). pose proof (H2 p Hp). lia.
Qed.

Lemma channel_range_differ (ch : Pixel -> Z) box p q :
  p ∈ box -> q ∈ box -> ch p <> ch q -> 0 < channel_range ch box.
Proof.
  intros Hp Hq Hne. unfold channel_range, channel_max, channel_min.
  destruct (fold_max_spec ch box 0) as (_ & H1 & _).
  destruct (fold_min_spec ch box 255) as (_ & H2 & _).
  pose proof (H1 p Hp). pose proof (H1 q Hq).
  pose proof (H2 p Hp). pose proof (H2 q Hq). lia.
Qed.

Lemma channel_range_single (ch : Pixel -> Z) p :
  0 <= ch p <= 255 -> channel_range ch [p] = 0.
Proof.
  intros Hp. unfold channel_range, channel_max, channel_min. cbn [fold_left]. lia.
Qed.

Lemma Pixel_differ p q :
  p <> q -> pixel_r p <> pixel_r q \/ pixel_g p <> pixel_g q \/ pixel_b p <> pixel_b q.
Proof.
  destruct p as [r1 g1 b1], q as [r2 g2 b2]. simpl. intros Hne.
  destruct (decide (r1 = r2)) as [-> |]; [| by left].
  destruct (decide (g1 = g2)) as [-> |]; [| right; by left].
  destruct (decide (b1 = b2)) as [-> |]; [done | right; by right].
Qed.

(** What a box of pixels in range that are pairwise different adds to
    [newBoxes]: itself when it has one pixel, two pieces that are not
    empty when it has more. *)
Lemma split_box_distinct box :
  box <> [] -> NoDup box -> Forall in_range box ->
  Forall (fun piece => piece <> []) (split_box box) /\
  length (split_box box) = (if decide (2 <= length box)%nat then 2 else 1)%nat.
Proof.
  intros Hne Hnd Hrange.
  destruct box as [| p [| q box]]; [done | |].
  - apply Forall_singleton in Hrange as (Hr & Hg & Hb).
    unfold split_box, split_nonempty.
    rewrite !channel_range_single by done.
    change (Z.max (Z.max 0 0) 0 =? 0) with true. cbv iota.
    split; [by apply Forall_singleton | done].
  - assert (p <> q) as Hpq.
    { apply NoDup_cons in Hnd as [Hnd _]. intros ->. apply Hnd, list_elem_of_here. }
    assert (p ∈ p :: q :: box) as Hp by apply list_elem_of_here.
    assert (q ∈ p :: q :: box) as Hq by apply list_elem_of_further, list_elem_of_here.
    set (b := p :: q :: box) in *.
    assert (0 < Z.max (Z.max (channel_range pixel_r b) (channel_range pixel_g b))
                      (channel_range pixel_b b)) as Hmax.
    { pose proof (channel_range_nonneg pixel_r b p Hp).
      pose proof (channel_range_nonneg pixel_g b p Hp).
      pose proof (channel_range_nonneg pixel_b b p Hp).
      destruct (Pixel_differ p q Hpq) as [H' | [H' | H']].
      - pose proof (channel_range_differ pixel_r b p q Hp Hq H'). lia.
      - pose proof (channel_range_differ pixel_g b p q Hp Hq H'). lia.
      - pose proof (channel_range_differ pixel_b b p q Hp Hq H'). lia. }
    change (split_box b) with (split_nonempty b). unfold split_nonempty.
    cbv zeta.
    destruct (Z.eqb_spec
                (Z.max (Z.max (channel_range pixel_r b) (channel_range pixel_g b))
                   (channel_range pixel_b b)) 0) as [H0 | _]; [lia |].
    match goal with |- context [js_sort ?c b] => set (sorted := js_sort c b) end.
    assert (length sorted = length b) as Hlen by apply js_sort_length.
    assert (2 <= length b)%nat as H2 by (subst b; cbn [length]; lia).
    assert (1 <= length b / 2 < length b)%nat as Hm.
    { split.
      - apply (Nat.Div0.div_le_mono 2 (length b) 2) in H2.
        change (2 / 2)%nat with 1%nat in H2. exact H2.
      - apply Nat.div_lt; lia. }
    split.
    + repeat constructor.
      * intros Hnil. apply (f_equal length) in Hnil.
        rewrite length_take in Hnil. cbn [length] in Hnil. lia.
      * intros Hnil. apply (f_equal length) in Hnil.
        rewrite length_drop in Hnil. cbn [length] in Hnil. lia.
    + destruct (decide (2 <= length b)%nat); [done | lia].
Qed.

(** The boxes of a pass over pixels that are pairwise different: none is
    empty, and there are more of them than before as long as some box
    has two pixels. *)
Lemma split_pass_distinct boxes :
  Forall (fun box => box <> []) boxes -> NoDup (concat boxes) ->
  Forall in_range (concat boxes) ->
  Forall (fun box => box <> []) (split_pass boxes) /\
  (length boxes <= length (split_pass boxes))%nat /\
  ((length boxes < length (concat boxes))%nat ->
   (length boxes < length (split_pass boxes))%nat).
Proof.
  unfold split_pass.
  induction boxes as [| box boxes IH]; intros Hne Hnd Hrange.
  { split; [done |]. split; [done |]. simpl. lia. }
  apply Forall_cons in Hne as [Hbox Hne].
  cbn [concat] in Hnd, Hrange.
  apply NoDup_app in Hnd as (Hnd1 & _ & Hnd2).
  apply Forall_app in Hrange as [Hr1 Hr2].
  destruct (IH Hne Hnd2 Hr2) as (IH1 & IH2 & IH3).
  destruct (split_box_distinct box Hbox Hnd1 Hr1) as [Hpieces Hcount].
  rewrite bind_cons. split; [by apply Forall_app |].
  rewrite length_app, Hcount. cbn [concat length]. rewrite length_app.
  assert (1 <= length box)%nat by (destruct box; [done | cbn [length]; lia]).
  destruct (decide (2 <= length box)%nat); lia.
Qed.

Lemma split_loop_distinct numColors pixels fuel boxes :
  NoDup pixels -> Forall in_range pixels ->
  Forall (fun box => box <> []) boxes -> concat boxes ≡ₚ pixels ->
  (length pixels <= length boxes + fuel)%nat ->
  is_Some (split_loop fuel numColors pixels boxes).
Proof.
  intros Hnd Hrange. revert boxes.
  induction fuel as [| fuel IH]; intros boxes Hne Hperm Hfuel; cbn [split_loop];
    destruct (keep_splitting numColors pixels boxes) eqn:Hk; [| done | | done].
  - unfold keep_splitting in Hk. apply andb_true_iff in Hk as [_ Hk].
    apply Nat.ltb_lt in Hk. lia.
  - unfold keep_splitting in Hk. apply andb_true_iff in Hk as [_ Hk].
    apply Nat.ltb_lt in Hk.
    destruct (split_pass_distinct boxes Hne) as (H1 & H2 & H3).
    { by rewrite Hperm. }
    { by rewrite Hperm. }
    apply IH; [done | by rewrite split_pass_concat |].
    rewrite Hperm in H3. specialize (H3 Hk). lia.
Qed.

(** X21. On a sample of pixels in the range of a byte that are pairwise
    different the loop ends: [medianCut] returns a palette after at most
    [length pixels] passes, whatever number of colours is asked for. *)
Theorem medianCut_distinct_returns (fuel : nat) (pixels : list Pixel) (numColors : Z) :
  NoDup pixels -> Forall in_range pixels -> (length pixels <= fuel)%nat ->
  exists colors, medianCut fuel pixels numColors = Some colors.
Proof.
  intros Hnd Hrange Hfuel. destruct pixels as [| p pixels]; [by exists [] |].
  unfold medianCut.
  destruct (split_loop_distinct numColors (p :: pixels) fuel [p :: pixels] Hnd Hrange)
    as [boxes ->].
  - by apply Forall_singleton.
  - by rewrite concat_one.
  - cbn [length] in *. lia.
  - eauto.
Qed.

(** *** The confidences of [detectColors] *)

Lemma confidence_of_count (count n : nat) :
  (1 <= count <= n)%nat ->
  (Qmin (Z.of_nat count # Pos.of_nat n) 1 == Z.of_nat count # Pos.of_nat n)%Q /\
  (0 < Qmin (Z.of_nat count # Pos.of_nat n) 1)%Q /\
  (Qmin (Z.of_nat count # Pos.of_nat n) 1 <= 1)%Q.
Proof.
  intros Hc.
  assert (Z.of_nat count # Pos.of_nat n <= 1)%Q as Hle.
  { unfold Qle. cbn [Qnum Qden]. rewrite Z.mul_1_r, Z.mul_1_l.
    rewrite Zpos_of_nat by lia. lia. }
  split; [by apply Q.min_l |]. split; [| apply Q.le_min_r].
  apply Q.min_glb_lt; [| reflexivity].
  unfold Qlt. cbn [Qnum Qden]. lia.
Qed.

Lemma confidence_sum (colors : list Color) (n : nat) :
  Forall (fun color => (1 <= color_count color <= n)%nat) colors ->
  (fold_right Qplus 0%Q
     ((fun color => Qmin (Z.of_nat (color_count color) # Pos.of_nat n) 1) <$> colors)
   == Z.of_nat (sum_list_with color_count colors) # Pos.of_nat n)%Q.
Proof.
  induction 1 as [| c cs Hc _ IH].
  - cbn. unfold Qeq. cbn [Qnum Qden]. lia.
  - change (sum_list_with color_count (c :: cs))
      with (color_count c + sum_list_with color_count cs)%nat.
    rewrite fmap_cons. cbn [fold_right]. rewrite IH.
    destruct (confidence_of_count (color_count c) n Hc) as [-> _].
    rewrite Nat2Z.inj_add. unfold Qeq, Qplus. cbn [Qnum Qden].
    rewrite Pos2Z.inj_mul. ring.
Qed.

Lemma counts_le_total colors :
  Forall (fun color => (1 <= color_count color)%nat) colors ->
  Forall (fun color =>
            (1 <= color_count color <= sum_list_with color_count colors)%nat) colors.
Proof.
  induction 1 as [| c cs Hc _ IH]; [done |].
  change (sum_list_with color_count (c :: cs))
    with (color_count c + sum_list_with color_count cs)%nat.
  constructor; [lia |].
  eapply Forall_impl; [exact IH |]. cbv beta. intros c' Hc'. lia.
Qed.

(** X22. On a sample that is not empty the confidences of the colours that
    [detectColors] returns are shares of the sample: each is above 0 and
    at most 1, together they are 1, and every colour has a name. *)
Theorem detectColors_confidences (fuel : nat) (pixels : list Pixel) (numColors : Z)
    (results : list ColorResult) :
  pixels <> [] ->
  detectColors fuel pixels numColors = Some results ->
  (total_confidence results == 1)%Q /\
  Forall (fun result =>
            (0 < confidence result)%Q /\ (confidence result <= 1)%Q /\
            is_Some (name result)) results /\
  results <> [].
Proof.
  intros Hne Hdetect. unfold detectColors in Hdetect.
  destruct (medianCut fuel pixels numColors) as [colors |] eqn:Hcut; [| discriminate Hdetect].
  injection Hdetect as <-.
  destruct (medianCut_counts _ _ _ _ Hcut) as [Hsum Hpos].
  pose proof (counts_le_total colors Hpos) as Hle. rewrite Hsum in Hle.
  assert (0 < length pixels)%nat as Hlen by (destruct pixels; [done | cbn [length]; lia]).
  split; [| split].
  - unfold total_confidence. rewrite <- list_fmap_compose.
    rewrite (confidence_sum colors (length pixels) Hle), Hsum.
    unfold Qeq. cbn [Qnum Qden]. rewrite Z.mul_1_r, Z.mul_1_l.
    by rewrite Zpos_of_nat.
  - apply Forall_fmap. eapply Forall_impl; [exact Hle |]. cbv beta.
    intros color Hcolor. cbn [confidence name].
    destruct (confidence_of_count _ _ Hcolor) as (Hmin & H0 & H1).
    split; [exact H0 |]. split; [exact H1 |].
    rewrite findNearestColorName_flat.
    destruct (findNearestColorName_found (color_rgb color))
      as (i & name & hex & ref & _ & _ & -> & _).
    by eexists.
  - intros Hnil. apply fmap_nil_inv in Hnil. subst colors.
    simpl in Hsum. lia.
Qed.

(** *** What the analysis of a frame adds to the search *)

Lemma elem_of_add_all (tokens more : list jsstring) (x : jsstring) :
  x ∈ add_all tokens more <-> x ∈ tokens \/ x ∈ more.
Proof.
  unfold add_all. revert tokens.
  induction more as [| t more IH]; intros tokens; cbn [fold_left].
  - rewrite elem_of_nil. tauto.
  - rewrite IH, elem_of_set_add, elem_of_cons. tauto.
Qed.

Section SaveFrameSearch.
Variable toLowerCase : jsstring -> jsstring.
Variable normalizeNFD : jsstring -> jsstring.

Local Abbreviation tokensOf := (extractTokens toLowerCase normalizeNFD).
Local Abbreviation save := (saveFrame toLowerCase normalizeNFD).
Local Abbreviation search := (searchVideos toLowerCase normalizeNFD).

Lemma elem_of_fold_add_all (items : list jsstring) (acc : list jsstring) (x : jsstring) :
  x ∈ fold_left (fun ts item => add_all ts (tokensOf item)) items acc <->
  x ∈ acc \/ exists item, item ∈ items /\ x ∈ tokensOf item.
Proof.
  revert acc. induction items as [| item items IH]; intros acc; cbn [fold_left].
  - split; [by left |]. intros [H | (item & Hitem & _)]; [done |].
    by apply elem_of_nil in Hitem.
  - rewrite IH, elem_of_add_all. split.
    + intros [[H | H] | (item' & Hitem' & H)].
      * by left.
      * right. exists item. split; [apply list_elem_of_here | done].
      * right. exists item'. split; [by apply list_elem_of_further | done].
    + intros [H | (item' & Hitem' & H)]; [left; by left |].
      apply elem_of_cons in Hitem' as [-> | Hitem'].
      * left. by right.
      * right. by exists item'.
Qed.

(** The tokens that go to the index for an analysis: the tokens of its
    text, of its labels and of its objects. *)
Lemma elem_of_analysisTokens (analysis : Analysis) (token : jsstring) :
  token ∈ analysisTokens toLowerCase normalizeNFD analysis <->
  token ∈ tokensOf (text analysis) \/
  (exists label, label ∈ labels analysis /\ token ∈ tokensOf label) \/
  (exists object, object ∈ objects analysis /\ token ∈ tokensOf object).
Proof.
  unfold analysisTokens. cbv zeta. rewrite !elem_of_fold_add_all.
  assert (token ∈ match text analysis with
                  | [] => []
                  | _ :: _ => add_all [] (tokensOf (text analysis))
                  end <-> token ∈ tokensOf (text analysis)) as ->.
  { destruct (text analysis) as [| c rest]; [done |].
    rewrite elem_of_add_all, elem_of_nil. tauto. }
  tauto.
Qed.

(** X23. When the vision step runs and answers, the video of the frame is
    found by every query that shares a token with the recognised text, a
    label or an object, provided the video is stored. The index is
    written before the frame, and a failed write of the frame does not
    take the tokens back. *)
Theorem saveFrame_then_search (w : World) (frameData : FrameData) (db : DB)
    (data : BlobData) (s : Settings) (analysis : Analysis) (video : Video)
    (source query token : jsstring) :
  videos_wf db ->
  videos db !! fd_videoId frameData = Some video ->
  convertBlob (fd_blob frameData) = inr (Some data) ->
  settingsRead w = Some s ->
  enableAI s = true -> enableCloudVision s = true -> cloudVisionApiKey s <> [] ->
  analyzeImageWithCloudVision (vision w) = Some analysis ->
  source = text analysis \/ source ∈ labels analysis \/ source ∈ objects analysis ->
  token ∈ tokensOf source ->
  token ∈ tokensOf query ->
  video ∈ search (save w frameData db).2 query.
Proof.
  intros Hwf Hvideo Hblob Hset Hai Hcv Hkey Hreply Hsource Htoken Hquery.
  assert (token ∈ analysisTokens toLowerCase normalizeNFD analysis) as Htokens.
  { apply elem_of_analysisTokens. destruct Hsource as [-> | [H | H]].
    - by left.
    - right. left. by exists source.
    - right. right. by exists source. }
  assert (video_id video = fd_videoId frameData) as Hid by exact (Hwf _ _ Hvideo).
  assert (analyzeForFrame toLowerCase normalizeNFD w frameData (Some data) db
          = (Some analysis,
             updateInvertedIndex (fd_videoId frameData)
               (analysisTokens toLowerCase normalizeNFD analysis) db)) as Han.
  { unfold analyzeForFrame. rewrite Hset.
    assert (analysisEnabled s (Some data) = true) as ->.
    { unfold analysisEnabled. rewrite Hai, Hcv.
      destruct (cloudVisionApiKey s); [done | reflexivity]. }
    by rewrite Hreply. }
  set (db1 := updateInvertedIndex (fd_videoId frameData)
                (analysisTokens toLowerCase normalizeNFD analysis) db) in *.
  assert (videos (save w frameData db).2 = videos db /\
          invertedIndex (save w frameData db).2 = invertedIndex db1) as [Hvs Hix].
  { unfold saveFrame. rewrite Hblob, Han. destruct (framePut w); done. }
  apply elem_of_searchVideos.
  - unfold videos_wf. rewrite Hvs. exact Hwf.
  - split; [rewrite Hvs, Hid; exact Hvideo |].
    exists token. split; [exact Hquery |].
    unfold posting. rewrite Hix, Hid. subst db1.
    unfold updateInvertedIndex. cbn [invertedIndex set_invertedIndex].
    destruct (fold_index_token_listed (fd_videoId frameData) token
                (analysisTokens toLowerCase normalizeNFD analysis) (invertedIndex db)
                (or_introl Htokens)) as (ids & -> & Hin).
    exact Hin.
Qed.
End SaveFrameSearch.

(** *** [isColorQuery] *)

Lemma starts_with_spec (text term : jsstring) :
  starts_with text term = true <-> exists post, text = term ++ post.
Proof.
  revert text. induction term as [| c term IH]; intros text.
  - destruct text; cbn [starts_with]; (split; [| done]); intros _; by eexists.
  - destruct text as [| d text]; cbn [starts_with].
    + split; [done |]. intros (post & H). discriminate H.
    + rewrite andb_true_iff, N.eqb_eq, IH. split.
      * intros [-> (post & ->)]. by exists post.
      * intros (post & H). injection H as -> ->. split; [done |]. by exists post.
Qed.

Lemma includes_spec (text term : jsstring) :
  includes text term = true <-> exists pre post, text = pre ++ term ++ post.
Proof.
  induction text as [| d text IH]; cbn [includes]; rewrite orb_true_iff, starts_with_spec.
  - split.
    + intros [(post & H) | H]; [| done]. by exists [], post.
    + intros (pre & post & H). left. destruct pre as [| p pre]; [| discriminate H].
      by exists post.
  - rewrite IH. split.
    + intros [(post & H) | (pre & post & ->)]; [by exists [], post |].
      by exists (d :: pre), post.
    + intros (pre & post & H). destruct pre as [| p pre].
      * left. by exists post.
      * right. injection H as -> ->. by exists pre, post.
Qed.

(** A text that includes a term includes what the term includes. *)
Lemma includes_trans (text long short : jsstring) :
  includes long short = true -> includes text long = true ->
  includes text short = true.
Proof.
  rewrite !includes_spec. intros (pre1 & post1 & ->) (pre2 & post2 & ->).
  exists (pre2 ++ pre1), (post1 ++ post2). by rewrite <- !app_assoc.
Qed.

(** X24. Four of the seven terms decide [isColorQuery]: the three longer
    terms include one of the four, so a query that has one of them has
    the shorter term too. A query counts as a colour query as soon as the
    letters of one of the four terms occur in it, inside a longer word as
    well. *)
Theorem isColorQuery_four_terms (toLowerCase : jsstring -> jsstring) (query : jsstring) :
  isColorQuery toLowerCase query
  = existsb (fun term => includes (toLowerCase query) term) (take 4 colorTerms).
Proof.
  unfold isColorQuery. cbv zeta. set (q := toLowerCase query).
  unfold colorTerms. cbn [take existsb].
  destruct (includes q [109; 224; 117]%N) eqn:Hmau; [reflexivity |].
  destruct (includes q (js "color")) eqn:Hcolor; [reflexivity |].
  destruct (includes q [225; 111]%N) eqn:Hao; [reflexivity |].
  destruct (includes q [113; 117; 7847; 110]%N) eqn:Hquan; [reflexivity |].
  cbn [orb].
  destruct (includes q [225; 111; 32; 109; 224; 117]%N) eqn:H5.
  { assert (includes q [225; 111]%N = true) as H; [| congruence].
    apply (includes_trans q [225; 111; 32; 109; 224; 117]%N); [| exact H5].
    vm_compute. reflexivity. }
  destruct (includes q [109; 224; 117; 32; 103; 236]%N) eqn:H6.
  { assert (includes q [109; 224; 117]%N = true) as H; [| congruence].
    apply (includes_trans q [109; 224; 117; 32; 103; 236]%N); [| exact H6].
    vm_compute. reflexivity. }
  destruct (includes q (js "what color")) eqn:H7; [| reflexivity].
  assert (includes q (js "color") = true) as H; [| congruence].
  apply (includes_trans q (js "what color")); [| exact H7].
  vm_compute. reflexivity.
Qed.

(** *** Reads after the writes *)

Lemma elem_of_framesOfVideo (videoId : jsstring) (m : gmap jsstring Frame) (f : Frame) :
  f ∈ framesOfVideo videoId m <->
  exists k, m !! k = Some f /\ frame_videoId f = videoId.
Proof.
  unfold framesOfVideo.
  rewrite (index_getAll_perm (fun f => frame_videoId f = videoId)), list_elem_of_fmap.
  split.
  - intros ([k f'] & -> & Hin). apply elem_of_map_to_list in Hin.
    apply map_lookup_filter_Some in Hin as [Hk Hv]. by exists k.
  - intros (k & Hk & Hv). exists (k, f). split; [done |].
    apply elem_of_map_to_list, map_lookup_filter_Some. done.
Qed.

(** X25. [getFramesForVideo] returns the stored frames of the video and no
    others, as many as [getFrameCount] counts; without [includeBlobs] the
    same frames come without their image data, with key, video, time and
    analysis as stored. *)
Theorem getFramesForVideo_stored (videoId : jsstring) (db : DB) :
  (forall f, f ∈ getFramesForVideo videoId true db <->
             exists k, frames db !! k = Some f /\ frame_videoId f = videoId) /\
  (forall includeBlobs,
      length (getFramesForVideo videoId includeBlobs db) = getFrameCount videoId db) /\
  (forall i f,
      getFramesForVideo videoId true db !! i = Some f ->
      exists f',
        getFramesForVideo videoId false db !! i = Some f' /\
        frame_blobData f' = None /\ frame_key f' = frame_key f /\
        frame_videoId f' = frame_videoId f /\ frame_ts f' = frame_ts f /\
        frame_analysis f' = frame_analysis f).
Proof.
  split; [| split].
  - intros f. apply elem_of_framesOfVideo.
  - intros [|]; unfold getFramesForVideo, getFrameCount; cbv zeta;
      [done | by rewrite length_fmap].
  - intros i f Hi. exists (withoutBlob f). split; [| done].
    unfold getFramesForVideo in *. cbv zeta in *.
    by rewrite list_lookup_fmap, Hi.
Qed.

(** X26. After [cleanupOldFrames] no read returns what has expired: the
    frames and the thumbnails that come back are younger than thirty
    days, and [getFrameData] answers [null] for the key of a frame whose
    time is thirty days back or more. *)
Theorem cleanup_then_reads (now : Z) (db : DB) (videoId : jsstring) :
  (forall includeBlobs,
      Forall (fun f => now - thirtyDays < frame_ts f)
        (getFramesForVideo videoId includeBlobs (cleanupOldFrames now db))) /\
  Forall (fun t => now - thirtyDays < thumb_ts t)
    (getThumbnailsForVideo videoId (cleanupOldFrames now db)) /\
  (forall frameKey frame,
      frames db !! frameKey = Some frame -> frame_ts frame <= now - thirtyDays ->
      getFrameData frameKey (cleanupOldFrames now db) = None).
Proof.
  destruct (cleanupOldFrames_stores now db) as [Hf Ht].
  assert (Forall (fun f => now - thirtyDays < frame_ts f)
            (framesOfVideo videoId (frames (cleanupOldFrames now db)))) as Hframes.
  { apply Forall_forall. intros f Hin.
    apply elem_of_framesOfVideo in Hin as (k & Hk & _).
    rewrite Hf in Hk. by apply map_lookup_filter_Some in Hk as [_ Hk]. }
  split; [| split].
  - intros [|]; unfold getFramesForVideo; cbv zeta; [exact Hframes |].
    apply Forall_fmap. eapply Forall_impl; [exact Hframes |]. done.
  - apply Forall_forall. intros t Hin. unfold getThumbnailsForVideo in Hin.
    rewrite js_sort_elem in Hin. apply elem_of_thumbsOfVideo in Hin as (k & Hk & _).
    rewrite Ht in Hk. by apply map_lookup_filter_Some in Hk as [_ Hk].
  - intros frameKey frame Hk Hold. unfold getFrameData.
    rewrite Hf, map_lookup_filter, Hk. simpl.
    rewrite option_guard_False by (simpl; lia). done.
Qed.

Section ClearAllData.
Variable toLowerCase : jsstring -> jsstring.
Variable normalizeNFD : jsstring -> jsstring.

Local Abbreviation save := (saveVideo toLowerCase normalizeNFD).
Local Abbreviation search := (searchVideos toLowerCase normalizeNFD).

(** X27. [clearAllData] empties the four stores: afterwards the counts
    are zero, every search and every listing comes back empty, no frame
    has data, and a video that was indexed before is indexed anew. *)
Theorem clearAllData_resets (db : DB) :
  getStats (clearAllData db) = mkStats 0 0 0 /\
  (forall query, search (clearAllData db) query = []) /\
  (forall limit, getAllVideos limit (clearAllData db) = []) /\
  (forall videoId includeBlobs,
      getFramesForVideo videoId includeBlobs (clearAllData db) = [] /\
      getThumbnailsForVideo videoId (clearAllData db) = []) /\
  (forall frameKey, getFrameData frameKey (clearAllData db) = None) /\
  (forall videoData,
      (save videoData (clearAllData db)).1 = VideoSaved /\
      videos (save videoData (clearAllData db)).2 !! video_id videoData = Some videoData).
Proof.
  split; [reflexivity |]. split; [| split; [| split; [| split]]].
  - intros query. rewrite searchVideos_unfold.
    assert (encounters (clearAllData db) (extractTokens toLowerCase normalizeNFD query) = [])
      as Henc.
    { unfold encounters.
      induction (extractTokens toLowerCase normalizeNFD query) as [| t ts IH]; [done |].
      rewrite bind_cons, IH. reflexivity. }
    unfold videoIdScores. rewrite videoIdScores_stream.
    fold (encounters (clearAllData db) (extractTokens toLowerCase normalizeNFD query)).
    rewrite Henc. reflexivity.
  - intros limit. unfold getAllVideos, clearAllData. cbn [videos].
    unfold entries. rewrite map_to_list_empty.
    change (js_sort _ (js_sort _ [])) with (@nil (jsstring * Video)).
    by destruct (Z.to_nat limit).
  - intros videoId [|]; split; reflexivity.
  - intros frameKey. reflexivity.
  - intros videoData. unfold saveVideo, clearAllData. cbn [videos].
    rewrite lookup_empty. cbn [fst snd]. split; [reflexivity |].
    cbn [videos updateInvertedIndex set_invertedIndex set_videos].
    apply lookup_insert_eq.
Qed.
End ClearAllData.

(** *** The theorems at the examples *)

Lemma saveThumbnail_other_videos_witness :
  thumbs_wf Demo.retention_db /\
  thumbnails Demo.retention_db !! js "A:thumb:1700000000000"
  = Some (Demo.thumbAt "A:thumb:1700000000000" 1700000000000) /\
  thumb_videoId (Demo.thumbAt "A:thumb:1700000000000" 1700000000000)
  <> thumb_videoId Sample.thumbB /\
  js "A:thumb:1700000000000" <> thumb_key Sample.thumbB /\
  thumbnails (saveThumbnail Sample.thumbB Demo.retention_db) !! js "A:thumb:1700000000000"
  = Some (Demo.thumbAt "A:thumb:1700000000000" 1700000000000).
Proof.
  assert (thumbs_wf Demo.retention_db) as H1
    by (refine (bool_decide_unpack _ _); vm_compute; exact I).
  assert (thumbnails Demo.retention_db !! js "A:thumb:1700000000000"
          = Some (Demo.thumbAt "A:thumb:1700000000000" 1700000000000)) as H2
    by (vm_compute; reflexivity).
  assert (thumb_videoId (Demo.thumbAt "A:thumb:1700000000000" 1700000000000)
          <> thumb_videoId Sample.thumbB) as H3 by (vm_compute; discriminate).
  assert (js "A:thumb:1700000000000" <> thumb_key Sample.thumbB) as H4
    by (vm_compute; discriminate).
  split; [exact H1 |]. split; [exact H2 |]. split; [exact H3 |]. split; [exact H4 |].
  exact (saveThumbnail_other_videos Sample.thumbB Demo.retention_db
           (js "A:thumb:1700000000000")
           (Demo.thumbAt "A:thumb:1700000000000" 1700000000000) H1 H2 H3 H4).
Defined.

Lemma saveFrame_getFrameData_witness :
  convertBlob (fd_blob (Demo.frameData (BlobArray [82; 73; 70; 70])))
  = inr (Some (Buffer [82; 73; 70; 70]%N)) /\
  framePut Demo.offline = None /\
  (exists analysis,
      getFrameData (fd_key (Demo.frameData (BlobArray [82; 73; 70; 70])))
        (saveFrame Demo.lower Demo.nfd Demo.offline
           (Demo.frameData (BlobArray [82; 73; 70; 70])) Demo.db).2
      = Some (bytesOf (Buffer [82; 73; 70; 70]%N), analysis)) /\
  (forall values,
      fd_blob (Demo.frameData (BlobArray [82; 73; 70; 70])) = BlobArray values ->
      Forall (fun v => 0 <= v < 256) values ->
      Z.of_N <$> bytesOf (Buffer [82; 73; 70; 70]%N) = values).
Proof.
  assert (convertBlob (fd_blob (Demo.frameData (BlobArray [82; 73; 70; 70])))
          = inr (Some (Buffer [82; 73; 70; 70]%N))) as H1 by (vm_compute; reflexivity).
  assert (framePut Demo.offline = None) as H2 by reflexivity.
  split; [exact H1 |]. split; [exact H2 |].
  exact (saveFrame_getFrameData Demo.lower Demo.nfd Demo.offline
           (Demo.frameData (BlobArray [82; 73; 70; 70])) Demo.db
           (Buffer [82; 73; 70; 70]%N) H1 H2).
Defined.

Lemma saveFrame_getFrameCount_witness :
  convertBlob (fd_blob (Demo.frameData BlobNull)) = inr None /\
  framePut Demo.offline = None /\
  frames Demo.db !! fd_key (Demo.frameData BlobNull) = None /\
  getFrameCount (js "A")
    (saveFrame Demo.lower Demo.nfd Demo.offline (Demo.frameData BlobNull) Demo.db).2
  = if decide (fd_videoId (Demo.frameData BlobNull) = js "A")
    then S (getFrameCount (js "A") Demo.db)
    else getFrameCount (js "A") Demo.db.
Proof.
  assert (convertBlob (fd_blob (Demo.frameData BlobNull)) = inr None) as H1 by reflexivity.
  assert (framePut Demo.offline = None) as H2 by reflexivity.
  assert (frames Demo.db !! fd_key (Demo.frameData BlobNull) = None) as H3
    by (vm_compute; reflexivity).
  split; [exact H1 |]. split; [exact H2 |]. split; [exact H3 |].
  exact (saveFrame_getFrameCount Demo.lower Demo.nfd Demo.offline
           (Demo.frameData BlobNull) Demo.db None (js "A") H1 H2 H3).
Defined.

Lemma hexToRgb_rgbToHex_witness :
  0 <= 255 <= 255 /\ 0 <= 128 <= 255 /\ 0 <= 7 <= 255 /\
  hexToRgb (rgbToHex 255 128 7) = Some (mkPixel 255 128 7).
Proof.
  assert (0 <= 255 <= 255) as H1 by lia.
  assert (0 <= 128 <= 255) as H2 by lia.
  assert (0 <= 7 <= 255) as H3 by lia.
  split; [exact H1 |]. split; [exact H2 |]. split; [exact H3 |].
  exact (hexToRgb_rgbToHex 255 128 7 H1 H2 H3).
Defined.

Lemma medianCut_weights_witness :
  medianCut 5 Sample.shades 3 = Some Sample.palette /\
  sum_list_with color_count Sample.palette = length Sample.shades /\
  Forall (fun color => (1 <= color_count color)%nat) Sample.palette /\
  (length Sample.palette <= length Sample.shades)%nat /\
  (Sample.shades <> [] -> Sample.palette <> []).
Proof.
  assert (medianCut 5 Sample.shades 3 = Some Sample.palette) as H
    by (vm_compute; reflexivity).
  split; [exact H |].
  exact (medianCut_weights 5 Sample.shades 3 Sample.palette H).
Defined.

Lemma medianCut_order_and_size_witness :
  medianCut 5 Sample.shades 3 = Some Sample.palette /\
  (forall i j ci cj,
      (i < j)%nat ->
      Sample.palette !! i = Some ci -> Sample.palette !! j = Some cj ->
      (color_count cj <= color_count ci)%nat) /\
  Z.of_nat (length Sample.palette) <= Z.max 1 (2 * 3 - 2).
Proof.
  assert (medianCut 5 Sample.shades 3 = Some Sample.palette) as H
    by (vm_compute; reflexivity).
  split; [exact H |].
  exact (medianCut_order_and_size 5 Sample.shades 3 Sample.palette H).
Defined.

Lemma medianCut_colors_in_range_witness :
  Forall (fun p => 0 <= pixel_r p <= 255 /\ 0 <= pixel_g p <= 255 /\
                   0 <= pixel_b p <= 255) Sample.shades /\
  medianCut 5 Sample.shades 3 = Some Sample.palette /\
  Forall (fun color =>
            0 <= pixel_r (color_rgb color) <= 255 /\
            0 <= pixel_g (color_rgb color) <= 255 /\
            0 <= pixel_b (color_rgb color) <= 255) Sample.palette.
Proof.
  assert (Forall (fun p => 0 <= pixel_r p <= 255 /\ 0 <= pixel_g p <= 255 /\
                           0 <= pixel_b p <= 255) Sample.shades) as H1
    by (unfold Sample.shades; repeat constructor; simpl; lia).
  assert (medianCut 5 Sample.shades 3 = Some Sample.palette) as H2
    by (vm_compute; reflexivity).
  split; [exact H1 |]. split; [exact H2 |].
  exact (medianCut_colors_in_range 5 Sample.shades 3 Sample.palette H1 H2).
Defined.

Lemma medianCut_distinct_returns_witness :
  NoDup Sample.shades /\ Forall in_range Sample.shades /\
  (length Sample.shades <= 5)%nat /\
  exists colors, medianCut 5 Sample.shades 3 = Some colors.
Proof.
  assert (NoDup Sample.shades) as H1.
  { unfold Sample.shades.
    repeat (apply NoDup_cons; split;
            [intros Hin;
             repeat (apply elem_of_cons in Hin as [Hin | Hin]; [discriminate Hin |]);
             exact (proj1 (elem_of_nil _) Hin) |]).
    apply NoDup_nil_2. }
  assert (Forall in_range Sample.shades) as H2
    by (unfold Sample.shades, in_range; repeat constructor; simpl; lia).
  assert (length Sample.shades <= 5)%nat as H3 by (simpl; lia).
  split; [exact H1 |]. split; [exact H2 |]. split; [exact H3 |].
  exact (medianCut_distinct_returns 5 Sample.shades 3 H1 H2 H3).
Defined.

Lemma detectColors_confidences_witness :
  Sample.shades <> [] /\
  detectColors 5 Sample.shades 3 = Some (default [] (detectColors 5 Sample.shades 3)) /\
  (total_confidence (default [] (detectColors 5 Sample.shades 3)) == 1)%Q /\
  Forall (fun result =>
            (0 < confidence result)%Q /\ (confidence result <= 1)%Q /\
            is_Some (name result)) (default [] (detectColors 5 Sample.shades 3)) /\
  default [] (detectColors 5 Sample.shades 3) <> [].
Proof.
  assert (Sample.shades <> []) as H1 by discriminate.
  assert (detectColors 5 Sample.shades 3
          = Some (default [] (detectColors 5 Sample.shades 3))) as H2
    by (vm_compute; reflexivity).
  split; [exact H1 |]. split; [exact H2 |].
  exact (detectColors_confidences 5 Sample.shades 3 _ H1 H2).
Defined.

Lemma saveFrame_then_search_witness :
  videos_wf Demo.db /\
  videos Demo.db !! fd_videoId (Demo.frameData (BlobArray [82; 73; 70; 70]))
  = Some Demo.videoA /\
  convertBlob (fd_blob (Demo.frameData (BlobArray [82; 73; 70; 70])))
  = inr (Some (Buffer [82; 73; 70; 70]%N)) /\
  settingsRead Sample.online = Some (mkSettings true true (js "key")) /\
  analyzeImageWithCloudVision (vision Sample.online)
  = Some (mkAnalysis [js "Red Shirt"] [] []) /\
  js "red" ∈ extractTokens Demo.lower Demo.nfd (js "Red Shirt") /\
  js "red" ∈ extractTokens Demo.lower Demo.nfd (js "red") /\
  Demo.videoA
  ∈ searchVideos Demo.lower Demo.nfd
      (saveFrame Demo.lower Demo.nfd Sample.online
         (Demo.frameData (BlobArray [82; 73; 70; 70])) Demo.db).2 (js "red").
Proof.
  assert (videos_wf Demo.db) as H1 by (refine (bool_decide_unpack _ _); vm_compute; exact I).
  assert (videos Demo.db !! fd_videoId (Demo.frameData (BlobArray [82; 73; 70; 70]))
          = Some Demo.videoA) as H2 by (vm_compute; reflexivity).
  assert (convertBlob (fd_blob (Demo.frameData (BlobArray [82; 73; 70; 70])))
          = inr (Some (Buffer [82; 73; 70; 70]%N))) as H3 by (vm_compute; reflexivity).
  assert (settingsRead Sample.online = Some (mkSettings true true (js "key"))) as H4
    by reflexivity.
  assert (cloudVisionApiKey (mkSettings true true (js "key")) <> []) as H5
    by (vm_compute; discriminate).
  assert (analyzeImageWithCloudVision (vision Sample.online)
          = Some (mkAnalysis [js "Red Shirt"] [] [])) as H6 by reflexivity.
  assert (js "Red Shirt" = text (mkAnalysis [js "Red Shirt"] [] []) \/
          js "Red Shirt" ∈ labels (mkAnalysis [js "Red Shirt"] [] []) \/
          js "Red Shirt" ∈ objects (mkAnalysis [js "Red Shirt"] [] [])) as H7
    by (right; left; apply list_elem_of_here).
  assert (js "red" ∈ extractTokens Demo.lower Demo.nfd (js "Red Shirt")) as H8
    by (refine (bool_decide_unpack _ _); vm_compute; exact I).
  assert (js "red" ∈ extractTokens Demo.lower Demo.nfd (js "red")) as H9
    by (refine (bool_decide_unpack _ _); vm_compute; exact I).
  split; [exact H1 |]. split; [exact H2 |]. split; [exact H3 |]. split; [exact H4 |].
  split; [exact H6 |]. split; [exact H8 |]. split; [exact H9 |].
  exact (saveFrame_then_search Demo.lower Demo.nfd Sample.online
           (Demo.frameData (BlobArray [82; 73; 70; 70])) Demo.db
           (Buffer [82; 73; 70; 70]%N) (mkSettings true true (js "key"))
           (mkAnalysis [js "Red Shirt"] [] []) Demo.videoA
           (js "Red Shirt") (js "red") (js "red")
           H1 H2 H3 H4 eq_refl eq_refl H5 H6 H7 H8 H9).
Defined.

Lemma hexToRgb_in_range_witness :
  hexToRgb (js "#FF6347") = Some (mkPixel 255 99 71) /\
  in_range (mkPixel 255 99 71) /\
  (length (js "#FF6347") = 6%nat \/
   (length (js "#FF6347") = 7%nat /\ head (js "#FF6347") = Some 35%N)).
Proof.
  assert (hexToRgb (js "#FF6347") = Some (mkPixel 255 99 71)) as H
    by (vm_compute; reflexivity).
  split; [exact H |].
  exact (hexToRgb_in_range (js "#FF6347") (mkPixel 255 99 71) H).
Defined.
